(** * media-log-ingestor: extraction, deduplication, enrichment and delivery

    A shallow embedding of [src/parser.js], [src/ingestor.js] and the
    deduplication and delivery loops of [src/cli.js], with the properties
    the specification states about them.

    Conventions of the embedding.
    - A JavaScript string is a Rocq [string]; its characters stand for the
      code units 0..255 (ASCII and Latin-1).  [toLowerCase], [trim] and the
      regular-expression classes are written out for that range.
    - A [Map] with string keys is a [gmap string _], a [Set] of strings a
      [gset string].
    - Code that talks to the network or the disk threads an explicit
      [World]; the remote services are oracles indexed by request number.
    - A JavaScript exception is the [Throw] case of a [Completion].
    - A loop that the program may never leave takes a [fuel] and returns
      [None] when the fuel is spent.
    - Console output is left out, except for the error [saveFailedBatch]
      logs in place of a record. *)

From Stdlib Require Import ZArith Ascii String List Bool Lia.
From stdpp Require Import base option list gmap sets strings pretty.

Open Scope Z_scope.

(* The set and first-order solvers of stdpp clear hypotheses by name. *)
Set Warnings "-clear-no-such-hyp".

(** ** Strings *)

Module JsString.

Definition code (c : ascii) : N := N_of_ascii c.

(** WhiteSpace and LineTerminator code units below 256: what [\s] matches
    and what [String.prototype.trim] strips. *)
Definition is_space (c : ascii) : bool :=
  let n := code c in
  ((9 <=? n) && (n <=? 13) || (n =? 32) || (n =? 160))%N.

(** LineTerminator code units below 256: what [.] refuses, and where [^]
    and [$] anchor under the [m] flag. *)
Definition is_line_terminator (c : ascii) : bool :=
  let n := code c in ((n =? 10) || (n =? 13))%N.

Definition is_digit (c : ascii) : bool :=
  let n := code c in ((48 <=? n) && (n <=? 57))%N.

(** The class [[a-f0-9]]. *)
Definition is_lower_hex (c : ascii) : bool :=
  let n := code c in (is_digit c || (97 <=? n) && (n <=? 102))%N.

Definition lower_char (c : ascii) : ascii :=
  let n := code c in
  if ((65 <=? n) && (n <=? 90)
      || (192 <=? n) && (n <=? 222) && negb (n =? 215))%N
  then ascii_of_N (n + 32) else c.

Fixpoint toLowerCase (s : string) : string :=
  match s with
  | EmptyString => EmptyString
  | String c s' => String (lower_char c) (toLowerCase s')
  end.

Fixpoint trimStart (s : string) : string :=
  match s with
  | String c s' => if is_space c then trimStart s' else s
  | EmptyString => EmptyString
  end.

(** [trimEnd] keeps a character when it is not a space or when something
    survives after it. *)
Fixpoint trimEnd (s : string) : string :=
  match s with
  | EmptyString => EmptyString
  | String c s' =>
      match trimEnd s' with
      | EmptyString => if is_space c then EmptyString else String c EmptyString
      | t => String c t
      end
  end.

Definition trim (s : string) : string := trimEnd (trimStart s).

Fixpoint startsWith (s p : string) : bool :=
  match p, s with
  | EmptyString, _ => true
  | String a p', String b s' => if Ascii.eqb a b then startsWith s' p' else false
  | String _ _, EmptyString => false
  end.

(** [s.includes(sub)] *)
Fixpoint includes (s sub : string) : bool :=
  if startsWith s sub then true
  else match s with
       | EmptyString => false
       | String _ s' => includes s' sub
       end.

(** Truthiness of a string value: only the empty string is falsy. *)
Definition truthy (s : string) : bool :=
  match s with EmptyString => false | _ => true end.

(** Truthiness of a possibly undefined string. *)
Definition otruthy (o : option string) : bool :=
  match o with Some s => truthy s | None => false end.

Fixpoint str_take (n : nat) (s : string) : string :=
  match n, s with
  | S n', String c s' => String c (str_take n' s')
  | _, _ => EmptyString
  end.

Fixpoint last_char (prev : option ascii) (s : string) : option ascii :=
  match s with
  | EmptyString => prev
  | String c s' => last_char (Some c) s'
  end.

Fixpoint str_drop (n : nat) (s : string) : string :=
  match n, s with
  | S n', String _ s' => str_drop n' s'
  | _, _ => s
  end.

(** The double quote and the line feed, which a literal cannot hold. *)
Definition dq : string := String (ascii_of_N 34) EmptyString.
Definition nl : string := String (ascii_of_N 10) EmptyString.

End JsString.

Import JsString.

(** ** Regular expressions

    The fragment of ECMAScript regular expressions the program uses, with
    the backtracking order of the language: a greedy quantifier tries the
    longest repetition first, a lazy one the shortest, an optional group is
    tried before it is skipped.  Quantifiers are applied to character
    classes only, as in every pattern of the program. *)

Module Regex.

Inductive regex : Type :=
| Str (s : string)                       (* literal characters *)
| Star (cls : ascii -> bool)             (* [cls]*  greedy *)
| Plus (cls : ascii -> bool)             (* [cls]+  greedy *)
| LazyStar (cls : ascii -> bool)         (* [cls]*? *)
| Seq (r1 r2 : regex)
| Opt (r : regex)                        (* (?: r)? greedy *)
| Grp (n : nat) (r : regex)              (* capture group number n *)
| Bol                                    (* ^ *)
| Eol.                                   (* $ *)

(** A position in the subject: the code unit before it (if any), the
    text after it, and the captures made so far. *)
Record mstate := MState {
  prev : option ascii;
  rest : string;
  caps : list (option string)
}.

Definition at_line_start (multiline : bool) (st : mstate) : bool :=
  match prev st with
  | None => true
  | Some c => multiline && is_line_terminator c
  end.

Definition at_line_end (multiline : bool) (st : mstate) : bool :=
  match rest st with
  | EmptyString => true
  | String c _ => multiline && is_line_terminator c
  end.

Section Matcher.
Variable multiline : bool.

Fixpoint star_greedy (cls : ascii -> bool) (k : mstate -> option mstate)
    (p : option ascii) (s : string) (cs : list (option string)) : option mstate :=
  match s with
  | String c s' =>
      if cls c then
        match star_greedy cls k (Some c) s' cs with
        | Some r => Some r
        | None => k (MState p s cs)
        end
      else k (MState p s cs)
  | EmptyString => k (MState p s cs)
  end.

Fixpoint star_lazy (cls : ascii -> bool) (k : mstate -> option mstate)
    (p : option ascii) (s : string) (cs : list (option string)) : option mstate :=
  match k (MState p s cs) with
  | Some r => Some r
  | None =>
      match s with
      | String c s' => if cls c then star_lazy cls k (Some c) s' cs else None
      | EmptyString => None
      end
  end.

(** [rmatch r k st]: match [r] at [st], then the continuation [k]; the
    first success in backtracking order. *)
Fixpoint rmatch (r : regex) (k : mstate -> option mstate) (st : mstate)
    : option mstate :=
  match r with
  | Str s =>
      if startsWith (rest st) s
      then k (MState (last_char (prev st) s)
                     (str_drop (String.length s) (rest st)) (caps st))
      else None
  | Star cls => star_greedy cls k (prev st) (rest st) (caps st)
  | Plus cls =>
      match rest st with
      | String c s' =>
          if cls c then star_greedy cls k (Some c) s' (caps st) else None
      | EmptyString => None
      end
  | LazyStar cls => star_lazy cls k (prev st) (rest st) (caps st)
  | Seq r1 r2 => rmatch r1 (rmatch r2 k) st
  | Opt r' =>
      match rmatch r' k st with
      | Some res => Some res
      | None => k st
      end
  | Grp n r' =>
      rmatch r'
        (fun st' =>
           let used := (String.length (rest st) - String.length (rest st'))%nat in
           k (MState (prev st') (rest st')
                     (<[n := Some (str_take used (rest st))]> (caps st'))))
        st
  | Bol => if at_line_start multiline st then k st else None
  | Eol => if at_line_end multiline st then k st else None
  end.

(** A match starting exactly at this position. *)
Definition match_here (r : regex) (groups : nat) (p : option ascii) (s : string)
    : option mstate :=
  rmatch r Some (MState p s (replicate (S groups) None)).

(** [s.match(r)] for a pattern without the [g] flag: the leftmost match. *)
Fixpoint search (r : regex) (groups : nat) (p : option ascii) (s : string)
    : option (list (option string)) :=
  match match_here r groups p s with
  | Some st => Some (caps st)
  | None =>
      match s with
      | String c s' => search r groups (Some c) s'
      | EmptyString => None
      end
  end.

(** The loop [while ((match = r.exec(s)) !== null)] for a pattern with
    the [g] flag, started with [lastIndex = 0]: the successive leftmost
    matches, each search resuming where the previous match ended.
    [skip] counts the characters of the previous match still to pass.
    Every pattern of the program begins with a literal character, so a
    match is never empty and [lastIndex] always advances
    (see [match_here_consumes]). *)
Fixpoint exec_all (r : regex) (groups : nat) (p : option ascii) (s : string)
    (skip : nat) : list (list (option string)) :=
  match skip with
  | S n =>
      match s with
      | String c s' => exec_all r groups (Some c) s' n
      | EmptyString => []
      end
  | O =>
      match match_here r groups p s with
      | Some st =>
          let used := (String.length s - String.length (rest st))%nat in
          caps st ::
            match s with
            | String c s' => exec_all r groups (Some c) s' (used - 1)
            | EmptyString => []
            end
      | None =>
          match s with
          | String c s' => exec_all r groups (Some c) s' 0
          | EmptyString => []
          end
      end
  end.

End Matcher.

(** Capture [n] of a match: [None] is [undefined]. *)
Definition group (m : list (option string)) (n : nat) : option string :=
  mjoin (m !! n).

(** A capture bound by array destructuring to a name that is then used as
    a string: a group that always takes part in the match. *)
Definition group_str (m : list (option string)) (n : nat) : string :=
  default EmptyString (group m n).

End Regex.

Import Regex.

Notation "r1 &> r2" := (Seq r1 r2) (at level 60, right associativity).

Definition not_char (a : ascii) : ascii -> bool := fun c => negb (Ascii.eqb c a).

Definition quote : ascii := ascii_of_N 34.

(** ** parser.js

    The patterns are quoted in the comments with \x22 for the double quote,
    \x27 for the single quote, and a blank between a star and a closing
    parenthesis; the blank is not part of the pattern. *)

Definition VIDEO_EXTENSIONS : list string :=
  [".mp4"; ".mov"; ".webm"; ".avi"; ".m4v"; ".mkv"].
Definition DOC_EXTENSIONS : list string :=
  [".pdf"; ".doc"; ".docx"; ".xls"; ".xlsx"; ".ppt"; ".pptx"; ".txt"].

(** The class [[^\s\x22\x27)]] of a link destination. *)
Definition url_char (c : ascii) : bool :=
  negb (is_space c || Ascii.eqb c quote || Ascii.eqb c "'" || Ascii.eqb c ")").

(** The class [[^\s\x22]] of the destination of a reference definition. *)
Definition def_url_char (c : ascii) : bool :=
  negb (is_space c || Ascii.eqb c quote).

(** [(?:\s+\x22([^\x22]+)\x22)?]: the optional title, capture 3. *)
Definition optional_title : regex :=
  Opt (Plus is_space &> Str dq &> Grp 3 (Plus (not_char quote)) &> Str dq).

(** [/!\[([^\]]* )\]\(([^\s\x22\x27)]+)(?:\s+\x22([^\x22]+)\x22)?\)/g] *)
Definition MARKDOWN_IMAGE_INLINE_REGEX : regex :=
  Str "![" &> Grp 1 (Star (not_char "]")) &> Str "](" &>
  Grp 2 (Plus url_char) &> optional_title &> Str ")".

(** [/!\[([^\]]* )\]\[([^\]]+)\]/g] *)
Definition MARKDOWN_IMAGE_REFERENCE_REGEX : regex :=
  Str "![" &> Grp 1 (Star (not_char "]")) &> Str "][" &>
  Grp 2 (Plus (not_char "]")) &> Str "]".

(** [/^\[([^\]]+)\]:\s*([^\s\x22]+)(?:\s+\x22([^\x22]+)\x22)?$/gm] *)
Definition MARKDOWN_REFERENCE_DEFINITION_REGEX : regex :=
  Bol &> Str "[" &> Grp 1 (Plus (not_char "]")) &> Str "]:" &> Star is_space &>
  Grp 2 (Plus def_url_char) &> optional_title &> Eol.

(** [/\[([^\]]* )\]\(([^\s\x22\x27)]+)(?:\s+\x22([^\x22]+)\x22)?\)/g] *)
Definition MARKDOWN_LINK_REGEX : regex :=
  Str "[" &> Grp 1 (Star (not_char "]")) &> Str "](" &>
  Grp 2 (Plus url_char) &> optional_title &> Str ")".

(** The matches of a [g] pattern over a whole text, in order. *)
Definition matches (multiline : bool) (r : regex) (text : string)
    : list (list (option string)) :=
  exec_all multiline r 3 None text 0.

Definition isNonImageMedia (url : string) : bool :=
  let lowerUrl := toLowerCase url in
  existsb (fun ext => includes lowerUrl ext) VIDEO_EXTENSIONS
  || existsb (fun ext => includes lowerUrl ext) DOC_EXTENSIONS.

(** The two values the deduplication pass gives to [operation]. *)
Inductive Operation := ingest | reuse.

(** An entry of the media log, as the pipeline builds it: the fields set by
    [addMedia], by the stand-alone branch of [runIngest], by the
    deduplication pass ([operation]) and by enrichment ([user]).  A field a
    JavaScript object does not have is [None]. *)
Record MediaEntry := {
  action : option string;
  owner : option string;
  repo : option string;
  operation : option Operation;
  path : string;
  sourcePath : option string;
  contentSourceType : option string;
  contentType : option string;
  width : option string;
  height : option string;
  alt : option string;
  user : option string
}.

Global Instance Operation_eq_dec : EqDecision Operation.
Proof. solve_decision. Defined.

Global Instance MediaEntry_eq_dec : EqDecision MediaEntry.
Proof. solve_decision. Defined.

Module Parser.

(** The object literal of [addMedia]: [{ action: 'add', path, sourcePath }],
    then [entry.alt] when there is alt text left after trimming. *)
Definition newEntry (sourceUrl path altText : string) : MediaEntry :=
  {| action := Some "add"; owner := None; repo := None; operation := None;
     path := path; sourcePath := Some sourceUrl; contentSourceType := None;
     contentType := None; width := None; height := None;
     alt := if truthy altText && truthy (trim altText)
            then Some (trim altText) else None;
     user := None |}.

(** The closure [addMedia] over its two mutable locals, [seen] and
    [mediaRefs]. *)
Definition addMedia (sourceUrl : string) (st : gset string * list MediaEntry)
    (path altText : string) : gset string * list MediaEntry :=
  if decide (path ∈ st.1) then st
  else ({[ path ]} ∪ st.1, st.2 ++ [newEntry sourceUrl path altText]).

(** [title || altText] *)
Definition title_or (title : option string) (altText : string) : string :=
  match title with
  | Some t => if truthy t then t else altText
  | None => altText
  end.

(** The first loop: the [references] map, keyed by the lowercased id; a
    later definition of an id replaces an earlier one.  The loop runs until
    [exec] returns null, which sets [lastIndex] back to 0, so every call of
    [extractMediaReferences] scans from the start. *)
Definition collectReferences (markdown : string)
    : gmap string (string * option string) :=
  foldl (fun references m =>
           <[ toLowerCase (group_str m 1) := (trim (group_str m 2), group m 3) ]>
             references)
        ∅ (matches true MARKDOWN_REFERENCE_DEFINITION_REGEX markdown).

(** The loop over the inline images. *)
Definition inlineImages (sourceUrl markdown : string)
    (st : gset string * list MediaEntry) : gset string * list MediaEntry :=
  foldl (fun st m =>
           let altText := group_str m 1 in
           let url := group_str m 2 in
           let title := group m 3 in
           if truthy url && truthy (trim url)
           then addMedia sourceUrl st url (title_or title altText)
           else st)
        st (matches false MARKDOWN_IMAGE_INLINE_REGEX markdown).

(** The loop over the reference-style images. *)
Definition referenceImages (sourceUrl markdown : string)
    (references : gmap string (string * option string))
    (st : gset string * list MediaEntry) : gset string * list MediaEntry :=
  foldl (fun st m =>
           let altText := group_str m 1 in
           let refId := group_str m 2 in
           match references !! toLowerCase refId with
           | Some reference =>
               addMedia sourceUrl st reference.1 (title_or reference.2 altText)
           | None => st
           end)
        st (matches false MARKDOWN_IMAGE_REFERENCE_REGEX markdown).

(** The loop over the plain links; [addMedia(url)] leaves the alt text to
    its default value, the empty string. *)
Definition plainLinks (sourceUrl markdown : string)
    (st : gset string * list MediaEntry) : gset string * list MediaEntry :=
  foldl (fun st m =>
           let url := group_str m 2 in
           if isNonImageMedia url then addMedia sourceUrl st url EmptyString
           else st)
        st (matches false MARKDOWN_LINK_REGEX markdown).

Definition sourceUrlOf (sourcePath org repo ref : string) : string :=
  "https://" +:+ ref +:+ "--" +:+ repo +:+ "--" +:+ org +:+ ".aem.page" +:+ sourcePath.

(** [extractMediaReferences(markdown, sourcePath, org, repo, ref)]: the
    reference definitions, then the inline images, the reference-style
    images and the plain links. *)
Definition extractMediaReferences (markdown sourcePath org repo ref : string)
    : list MediaEntry :=
  let sourceUrl := sourceUrlOf sourcePath org repo ref in
  let references := collectReferences markdown in
  let st0 : gset string * list MediaEntry := (∅, []) in
  let st1 := inlineImages sourceUrl markdown st0 in
  let st2 := referenceImages sourceUrl markdown references st1 in
  let st3 := plainLinks sourceUrl markdown st2 in
  st3.2.

(** [/media_([a-f0-9]+)\./] *)
Definition MEDIA_HASH_REGEX : regex :=
  Str "media_" &> Grp 1 (Plus is_lower_hex) &> Str ".".

(** [extractMediaHash(url)]: capture 1 of the leftmost match, or [null]. *)
Definition extractMediaHash (url : string) : option string :=
  match search false MEDIA_HASH_REGEX 1 None url with
  | Some m => group m 1
  | None => None
  end.

(** [entries.slice(start, end)] with integer arguments: negative indices
    count from the end, and both are clamped to the array. *)
Definition js_slice {A} (l : list A) (start stop : Z) : list A :=
  let len := Z.of_nat (length l) in
  let k := if start <? 0 then Z.max (len + start) 0 else Z.min start len in
  let final := if stop <? 0 then Z.max (len + stop) 0 else Z.min stop len in
  take (Z.to_nat (final - k)) (drop (Z.to_nat k) l).

(** The numbers of the batch loop: an integer, or the NaN that [parseInt]
    gives for a text that does not begin with a number.  (A text with too
    many digits parses to an infinity; the clamp to ten, or the loop that
    cannot advance, treat it as they treat any integer of its sign.) *)
Inductive JsNumber :=
| NaN
| Int (n : Z).

(** [a + b] *)
Definition js_add (a b : JsNumber) : JsNumber :=
  match a, b with
  | Int x, Int y => Int (x + y)
  | _, _ => NaN
  end.

(** [a < n] for an integer [n]: a comparison with NaN is false. *)
Definition js_lt (a : JsNumber) (n : Z) : bool :=
  match a with
  | Int x => x <? n
  | NaN => false
  end.

(** ToIntegerOrInfinity, which [slice] applies to its arguments: NaN
    counts as 0. *)
Definition to_integer (a : JsNumber) : Z :=
  match a with
  | Int x => x
  | NaN => 0
  end.

(** The loop of [batchEntries]; [fuel] bounds the number of iterations,
    and [None] is a loop still running when the fuel is spent. *)
Fixpoint batchLoop {A} (fuel : nat) (entries : list A) (batchSize i : JsNumber)
    (batches : list (list A)) : option (list (list A)) :=
  if js_lt i (Z.of_nat (length entries)) then
    match fuel with
    | O => None
    | S fuel' =>
        batchLoop fuel' entries batchSize (js_add i batchSize)
          (batches ++ [js_slice entries (to_integer i)
                         (to_integer (js_add i batchSize))])
    end
  else Some batches.

Definition batchEntries {A} (fuel : nat) (entries : list A) (batchSize : JsNumber)
    : option (list (list A)) :=
  batchLoop fuel entries batchSize (Int 0) [].

End Parser.

Import Parser.

(** ** The deduplication pass of cli.js *)

Definition with_operation (op : Operation) (entry : MediaEntry) : MediaEntry :=
  {| action := action entry; owner := owner entry; repo := repo entry;
     operation := Some op;
     path := path entry; sourcePath := sourcePath entry;
     contentSourceType := contentSourceType entry;
     contentType := contentType entry; width := width entry;
     height := height entry; alt := alt entry; user := user entry |}.

Definition with_user (u : string) (entry : MediaEntry) : MediaEntry :=
  {| action := action entry; owner := owner entry; repo := repo entry;
     operation := operation entry;
     path := path entry; sourcePath := sourcePath entry;
     contentSourceType := contentSourceType entry;
     contentType := contentType entry; width := width entry;
     height := height entry; alt := alt entry; user := Some u |}.

Module Cli.

(** [allEntries.map((entry) => ...)] of [runIngest], the callback closing
    over the set [seenHashes]; the result is [{ ...entry, operation }]. *)
Fixpoint deduplicate (seenHashes : gset string) (allEntries : list MediaEntry)
    : list MediaEntry :=
  match allEntries with
  | [] => []
  | entry :: rest =>
      let hash := extractMediaHash (path entry) in
      if otruthy hash then
        let h := default EmptyString hash in
        if decide (h ∈ seenHashes)
        then with_operation reuse entry :: deduplicate seenHashes rest
        else with_operation ingest entry :: deduplicate ({[ h ]} ∪ seenHashes) rest
      else with_operation ingest entry :: deduplicate seenHashes rest
  end.

Definition deduplicatedEntries (allEntries : list MediaEntry) : list MediaEntry :=
  deduplicate ∅ allEntries.

(** [Math.min(parseInt(batchSize, 10), 10)], from what [parseInt] gives
    for the option: the minimum with NaN is NaN. *)
Definition effectiveBatchSize (parsed : JsNumber) : JsNumber :=
  match parsed with
  | Int configured => Int (Z.min configured 10)
  | NaN => NaN
  end.

End Cli.

Import Cli.

(** ** ingestor.js *)

Inductive Completion (A : Type) : Type :=
| Return (a : A)
| Throw (message : string).
Arguments Return {A} a.
Arguments Throw {A} message.

(** [response.ok] *)
Definition response_ok (status : Z) : bool := (200 <=? status) && (status <=? 299).

Record FailureRecord := {
  timestamp : Z;
  error : string;
  entries : list MediaEntry
}.

(** What [fetch] gives for a POST to the media log; the body of a response
    is taken to be readable, so [response.text()] resolves to [text]. *)
Inductive FetchOutcome :=
| NetworkError (message : string)          (* the promise rejects *)
| Response (status : Z) (text : string).

(** What [failed-entries.json] is when it is read. *)
Inductive FileState :=
| Missing                                  (* readFile fails with ENOENT *)
| Unreadable (message : string)            (* readFile fails otherwise *)
| Garbage (message : string)               (* JSON.parse throws *)
| NotArray (message : string)              (* parses, but has no push *)
| Records (records : list FailureRecord).  (* a JSON array *)

Inductive Event :=
| EPost (attempt : nat) (batch : list MediaEntry)
| ESleep (ms : Z)
| EWriteFile (records : list FailureRecord)
| EConsoleError (message : string).

(** The clock of the model advances only while the program sleeps. *)
Record World := {
  posts : nat;             (* POST requests issued so far *)
  now : Z;                 (* the clock, in milliseconds *)
  disk : FileState;        (* failed-entries.json *)
  writable : bool;         (* whether writeFile succeeds *)
  trace : list Event       (* what happened, oldest first *)
}.

Inductive SendResult :=
| Sent (dryRun : bool) (status : Z)        (* { success: true, ... } *)
| SentNull.                                (* return null *)

Record Stats := { batchesSent : nat; errors : nat }.

Module Ingestor.

Section Delivery.
(** The media log service: its answer to the n-th request. *)
Variable medialog : nat -> list MediaEntry -> FetchOutcome.

Definition sleep (ms : Z) (w : World) : World :=
  {| posts := posts w; now := now w + ms; disk := disk w;
     writable := writable w; trace := trace w ++ [ESleep ms] |}.

Definition post (attempt : nat) (batch : list MediaEntry) (w : World) : World :=
  {| posts := S (posts w); now := now w; disk := disk w;
     writable := writable w; trace := trace w ++ [EPost attempt batch] |}.

Definition is_rate_limit (status : Z) : bool :=
  (status =? 403) || (status =? 429).

(** The [for] loop of [sendMediaLogBatch]: [remaining] iterations are
    left, that is [attempt <= maxRetries] holds [remaining] more times. *)
Fixpoint sendLoop (remaining attempt maxRetries : nat)
    (batch : list MediaEntry) (w : World) : World * Completion SendResult :=
  match remaining with
  | O => (w, Return SentNull)
  | S remaining' =>
      let response := medialog (posts w) batch in
      let w1 := post attempt batch w in
      match response with
      | NetworkError e => (w1, Throw e)
      | Response status text =>
          if response_ok status then (w1, Return (Sent false status))
          else if is_rate_limit status && (attempt <? maxRetries)%nat then
            let backoffMs := 2 ^ Z.of_nat attempt * 1000 in
            sendLoop remaining' (S attempt) maxRetries batch (sleep backoffMs w1)
          else
            (w1, Throw ("Media log API error: " +:+ pretty status +:+ " - " +:+ text))
      end
  end.

Definition sendMediaLogBatch (batch : list MediaEntry) (dryRun : bool)
    (maxRetries : nat) (w : World) : World * Completion SendResult :=
  if dryRun then (w, Return (Sent true 200))
  else sendLoop (S maxRetries) 0 maxRetries batch w.

Definition console_error (message : string) (w : World) : World :=
  {| posts := posts w; now := now w; disk := disk w;
     writable := writable w; trace := trace w ++ [EConsoleError message] |}.

(** [saveFailedBatch(batch, error)]: the inner [try] reads the file and
    lets only ENOENT pass; everything else that fails, the write
    included, ends in the outer [catch], which logs. *)
Definition saveFailedBatch (batch : list MediaEntry) (error : string)
    (w : World) : World :=
  let failedEntry := {| timestamp := now w; error := error; entries := batch |} in
  let existing : Completion (list FailureRecord) :=
    match disk w with
    | Missing => Return []
    | Records records => Return records
    | Unreadable e | Garbage e | NotArray e => Throw e
    end in
  match existing with
  | Throw e => console_error e w
  | Return existing =>
      if writable w then
        {| posts := posts w; now := now w;
           disk := Records (existing ++ [failedEntry]);
           writable := writable w;
           trace := trace w ++ [EWriteFile (existing ++ [failedEntry])] |}
      else console_error "writeFile failed" w
  end.

(** The delivery loop of [runIngest], [for (const [index, batch] of
    batches.entries())], with [total = batches.length]. *)
Fixpoint deliver (dryRun : bool) (total index : nat)
    (batches : list (list MediaEntry)) (stats : Stats) (w : World)
    : Stats * World :=
  match batches with
  | [] => (stats, w)
  | batch :: rest =>
      match sendMediaLogBatch batch dryRun 3 w with
      | (w1, Return _) =>
          let stats1 := {| batchesSent := S (batchesSent stats);
                           errors := errors stats |} in
          let w2 := if (index <? total - 1)%nat && negb dryRun
                    then sleep 100 w1 else w1 in
          deliver dryRun total (S index) rest stats1 w2
      | (w1, Throw e) =>
          let stats1 := {| batchesSent := batchesSent stats;
                           errors := S (errors stats) |} in
          deliver dryRun total (S index) rest stats1 (saveFailedBatch batch e w1)
      end
  end.

Definition deliverAll (dryRun : bool) (batches : list (list MediaEntry))
    (w : World) : Stats * World :=
  deliver dryRun (length batches) 0 batches {| batchesSent := 0; errors := 0 |} w.

End Delivery.

(** *** The preview log and the user index *)

(** An event of the preview log; a field the event does not have, or has
    with a null value, is [None]. *)
Record LogEvent := {
  ev_route : option string;
  ev_path : option string;
  ev_user : option string
}.

(** What [response.json()] gives: it rejects (or resolves to a value
    without properties), or is an object with [entries], an array whose
    items may be null, and possibly [links.next]. *)
Inductive LogBody :=
| BodyRejects (message : string)
| BodyData (entries : option (list (option LogEvent))) (next : option string).

(** What [fetch] gives for a GET on the log; [text] is [None] when
    [response.text()] rejects. *)
Inductive LogOutcome :=
| LogFetchRejects (message : string)
| LogResponse (status : Z) (text : option string) (body : LogBody).

Definition LOG_API : string := "https://admin.hlx.page/log".

(** The body of the [for (const entry of entries)] loop. *)
Definition recordEvent (userMap : gmap string string) (entry : LogEvent)
    : gmap string string :=
  match ev_route entry, ev_path entry, ev_user entry with
  | Some route, Some p, Some u =>
      if String.eqb route "preview" && truthy p && truthy u then
        match userMap !! p with
        | Some _ => userMap
        | None => <[ p := u ]> userMap
        end
      else userMap
  | _, _, _ => userMap
  end.

(** The loop over one page; reading a property of a null item throws,
    with the map as it is at that point. *)
Fixpoint processEntries (entries : list (option LogEvent))
    (userMap : gmap string string) : gmap string string * Completion unit :=
  match entries with
  | [] => (userMap, Return tt)
  | None :: _ => (userMap, Throw "TypeError: cannot read properties of null")
  | Some entry :: rest => processEntries rest (recordEvent userMap entry)
  end.

Definition is_null (entry : option LogEvent) : bool :=
  match entry with None => true | Some _ => false end.

Section UserIndex.
(** The log service: its answer to the n-th request, made to the given
    url. *)
Variable logapi : nat -> string -> LogOutcome.
Variable verbose : bool.

(** The [while (hasMore)] loop of [buildPreviewUserMap], inside its
    [try]: the map as the loop leaves it, and how the loop ended.
    [None] is a loop still running when the fuel is spent. *)
Fixpoint fetchPages (fuel : nat) (url : string) (pageCount : nat)
    (userMap : gmap string string)
    : option (gmap string string * Completion unit) :=
  match fuel with
  | O => None
  | S fuel' =>
      match logapi pageCount url with
      | LogFetchRejects e => Some (userMap, Throw e)
      | LogResponse status text body =>
          if negb (response_ok status) then
            (* verbose: await response.text(), then the messages; break *)
            match verbose, text with
            | true, None => Some (userMap, Throw "text() rejected")
            | _, _ => Some (userMap, Return tt)
            end
          else
            match body with
            | BodyRejects e => Some (userMap, Throw e)
            | BodyData entries next =>
                let entries := default [] entries in
                let pageCount := S pageCount in
                (* verbose, first page: entries.map((e) => e.route) *)
                if verbose && (pageCount =? 1)%nat && existsb is_null entries
                then Some (userMap, Throw "TypeError: cannot read properties of null")
                else
                  match processEntries entries userMap with
                  | (userMap', Throw e) => Some (userMap', Throw e)
                  | (userMap', Return _) =>
                      match next with
                      | Some nextUrl =>
                          if truthy nextUrl
                          then fetchPages fuel' nextUrl pageCount userMap'
                          else Some (userMap', Return tt)
                      | None => Some (userMap', Return tt)
                      end
                  end
            end
      end
  end.

(** [buildPreviewUserMap(org, repo, ref, token, verbose)]: the [catch]
    swallows whatever the loop threw, and the map is returned. *)
Definition buildPreviewUserMap (fuel : nat) (org repo ref : string)
    : option (Completion (gmap string string)) :=
  let url := LOG_API +:+ "/" +:+ org +:+ "/" +:+ repo +:+ "/" +:+ ref
             +:+ "/?since=30d&limit=1000" in
  match fetchPages fuel url 0 ∅ with
  | None => None
  | Some (userMap, Return _) => Some (Return userMap)
  | Some (userMap, Throw _) => Some (Return userMap)
  end.

End UserIndex.

(** [/\.aem\.page(\/.*?)$/] *)
Definition AEM_PAGE_REGEX : regex :=
  Str ".aem.page"
  &> Grp 1 (Str "/" &> LazyStar (fun c => negb (is_line_terminator c)))
  &> Eol.

(** [entry.sourcePath.match(...)], then capture 1. *)
Definition sitePath (sourcePath : string) : option string :=
  match search false AEM_PAGE_REGEX 1 None sourcePath with
  | Some urlMatch => Some (group_str urlMatch 1)
  | None => None
  end.

(** The callback of [entries.map] in [enrichEntriesWithUser]. *)
Definition enrichEntry (previewUserMap : gmap string string)
    (fallbackUser : option string) (entry : MediaEntry) : MediaEntry :=
  let enriched := entry in
  if otruthy (sourcePath entry) then
    match sitePath (default EmptyString (sourcePath entry)) with
    | Some sourcePath =>
        let user := previewUserMap !! sourcePath in
        if otruthy user then with_user (default EmptyString user) enriched
        else if otruthy fallbackUser
             then with_user (default EmptyString fallbackUser) enriched
             else enriched
    | None =>
        if otruthy fallbackUser
        then with_user (default EmptyString fallbackUser) enriched
        else enriched
    end
  else if otruthy fallbackUser
       then with_user (default EmptyString fallbackUser) enriched
       else enriched.

Definition enrichEntries (previewUserMap : gmap string string)
    (fallbackUser : option string) (entries : list MediaEntry)
    : list MediaEntry :=
  map (enrichEntry previewUserMap fallbackUser) entries.

(** [enrichEntriesWithUser(entries, org, repo, ref, token, fallbackUser,
    verbose)] *)
Definition enrichEntriesWithUser (logapi : nat -> string -> LogOutcome)
    (fuel : nat) (entries : list MediaEntry) (org repo ref : string)
    (fallbackUser : option string) (verbose : bool)
    : option (Completion (list MediaEntry)) :=
  match buildPreviewUserMap logapi verbose fuel org repo ref with
  | None => None
  | Some (Throw e) => Some (Throw e)
  | Some (Return previewUserMap) =>
      Some (Return (enrichEntries previewUserMap fallbackUser entries))
  end.

End Ingestor.

Import Ingestor.


(** ** parser.js: content type and dimensions *)

(** [CONTENT_TYPE_MAP], its keys in the order of the object literal, which
    is the order [Object.keys] gives them in. *)
Definition CONTENT_TYPE_MAP : list (string * string) :=
  [ (".jpg", "image/jpeg"); (".jpeg", "image/jpeg"); (".png", "image/png");
    (".gif", "image/gif"); (".webp", "image/webp"); (".avif", "image/avif");
    (".mp4", "video/mp4"); (".mov", "video/quicktime"); (".webm", "video/webm");
    (".avi", "video/x-msvideo"); (".m4v", "video/x-m4v");
    (".mkv", "video/x-matroska") ].

(** [getContentType(url)]: the type of the first key that occurs in the
    lowercased url, or [null]. *)
Definition getContentType (url : string) : option string :=
  let lowerUrl := toLowerCase url in
  match List.find (fun e : string * string => includes lowerUrl e.1) CONTENT_TYPE_MAP with
  | Some ext => Some ext.2
  | None => None
  end.

(** [/#width=(\d+)&height=(\d+)/] *)
Definition DIMENSIONS_REGEX : regex :=
  Str "#width=" &> Grp 1 (Plus is_digit) &> Str "&height=" &> Grp 2 (Plus is_digit).

(** [extractDimensions(url)]: [{ width, height }] or [null]. *)
Definition extractDimensions (url : string) : option (string * string) :=
  match search false DIMENSIONS_REGEX 2 None url with
  | Some m => Some (group_str m 1, group_str m 2)
  | None => None
  end.

(** ** discovery.js *)

(** [s.endsWith(suffix)] *)
Definition endsWith (s suffix : string) : bool :=
  (String.length suffix <=? String.length s)%nat
  && String.eqb (str_drop (String.length s - String.length suffix) s) suffix.

Definition ADMIN_API : string := "https://admin.hlx.page".

Definition MEDIA_EXTENSIONS : list string :=
  [ ".jpg"; ".jpeg"; ".png"; ".gif"; ".webp"; ".avif"; ".svg";
    ".mp4"; ".mov"; ".webm"; ".avi"; ".m4v"; ".mkv";
    ".pdf"; ".doc"; ".docx"; ".xls"; ".xlsx"; ".ppt"; ".pptx" ].

Definition IGNORE_EXTENSIONS : list string :=
  [ ".json"; ".yaml"; ".yml"; ".xml"; ".txt"; ".csv";
    ".js"; ".css"; ".html"; ".ico";
    ".zip"; ".tar"; ".gz" ].

(** [isMediaFile(path)]; a resource may come without a path. *)
Definition isMediaFile (path : option string) : bool :=
  if otruthy path then
    let lowerPath := toLowerCase (default EmptyString path) in
    existsb (fun ext => endsWith lowerPath ext) MEDIA_EXTENSIONS
  else false.

(** A resource of the job details; only its [path] is read. *)
Record Resource := { resource_path : option string }.

(** [shouldProcessResource(resource)] *)
Definition shouldProcessResource (resource : Resource) : bool :=
  let path := resource_path resource in
  if otruthy path then
    let lowerPath := toLowerCase (default EmptyString path) in
    if existsb (fun ext => endsWith lowerPath ext) IGNORE_EXTENSIONS
    then false else true
  else false.

(** The local [fetchPath] of [fetchMarkdown]. *)
Definition fetchPath (resourcePath : string) : string :=
  if endsWith resourcePath ".md" then resourcePath
  else if endsWith resourcePath "/" then resourcePath +:+ "index.md"
  else resourcePath +:+ ".md".

(** [fetchMarkdown(org, site, ref, resourcePath, token)]; [preview] is the
    answer of the service to a GET on the url. *)
Definition fetchMarkdown (preview : string -> FetchOutcome)
    (org site ref resourcePath : string) : Completion string :=
  let url := ADMIN_API +:+ "/preview/" +:+ org +:+ "/" +:+ site +:+ "/" +:+ ref
             +:+ fetchPath resourcePath in
  match preview url with
  | NetworkError e => Throw e
  | Response status text =>
      if negb (response_ok status)
      then Throw ("Failed to fetch markdown: " +:+ pretty status)
      else Return text
  end.

(** What a poll of the job gives: the request is rejected, or there is a
    response whose body cannot be read as an object, or holds [state] and
    possibly [progress]. *)
Record Progress := { processed : Z; total : Z }.

Inductive JobBody :=
| JobBodyRejects (message : string)
| JobStatus (state : option string) (progress : option Progress).

Inductive PollOutcome :=
| PollRejects (message : string)
| PollResponse (status : Z) (body : JobBody).

Inductive PollEvent :=
| PollProgress (progress : Progress)       (* onProgress(progress) *)
| PollSleep (ms : Z).                      (* setTimeout(resolve, pollInterval) *)

(** [pollJobStatus(jobUrl, token, pollInterval, onProgress)]: the function
    calls itself until the state is completed or stopped; [jobapi n] is the
    answer to the n-th poll, [hasCallback] tells whether [onProgress] was
    given, and [None] is a job still polled when the fuel is spent. *)
Fixpoint pollJobStatus (jobapi : nat -> PollOutcome) (fuel n : nat)
    (pollInterval : Z) (hasCallback : bool) (events : list PollEvent)
    : option (list PollEvent * Completion string) :=
  match fuel with
  | O => None
  | S fuel' =>
      match jobapi n with
      | PollRejects e => Some (events, Throw e)
      | PollResponse status body =>
          if negb (response_ok status)
          then Some (events, Throw ("Failed to fetch job status: " +:+ pretty status))
          else
            match body with
            | JobBodyRejects e => Some (events, Throw e)
            | JobStatus state progress =>
                let events1 :=
                  match hasCallback, progress with
                  | true, Some p => events ++ [PollProgress p]
                  | _, _ => events
                  end in
                let state' := default EmptyString state in
                if negb (String.eqb state' "completed")
                   && negb (String.eqb state' "stopped")
                then pollJobStatus jobapi fuel' (S n) pollInterval hasCallback
                       (events1 ++ [PollSleep pollInterval])
                else Some (events1, Return state')
            end
      end
  end.

(** ** cli.js: stand-alone media *)

(** The object [runIngest] builds for a stand-alone media file. *)
Definition standaloneEntry (org repo path : string) : MediaEntry :=
  let dimensions := extractDimensions path in
  {| action := None; owner := Some org; repo := Some repo;
     operation := Some ingest; path := path; sourcePath := None;
     contentSourceType := Some "markup";
     contentType := getContentType path;
     width := fst <$> dimensions; height := snd <$> dimensions;
     alt := None; user := None |}.
(** * Notions used to state the properties *)

(** Every character of [s] is in the class [f]. *)
Fixpoint str_forallb (f : ascii -> bool) (s : string) : bool :=
  match s with
  | EmptyString => true
  | String c s' => f c && str_forallb f s'
  end.

(** The least number of characters a pattern takes. *)
Fixpoint min_len (r : regex) : nat :=
  match r with
  | Str s => String.length s
  | Plus _ => 1
  | Seq r1 r2 => min_len r1 + min_len r2
  | Grp _ r' => min_len r'
  | Star _ | LazyStar _ | Opt _ | Bol | Eol => 0
  end.

(** ** Deduplication *)

(** The content hash of a record. *)
Definition hashOf (e : MediaEntry) : option string := extractMediaHash (path e).

(** The records of [l] whose path carries the hash [h]. *)
Definition hash_count (h : string) (l : list MediaEntry) : nat :=
  length (filter (fun e => hashOf e = Some h) l).

(** Those of them that carry the operation [op]. *)
Definition op_count (h : string) (op : Operation) (l : list MediaEntry) : nat :=
  length (filter (fun e => hashOf e = Some h /\ operation e = Some op) l).

(** The classification the specification describes: a record is a reuse
    when an earlier record has the same hash. *)
Definition classify (earlier : list MediaEntry) (e : MediaEntry) : Operation :=
  match hashOf e with
  | Some h => if decide (Some h ∈ hashOf <$> earlier) then reuse else ingest
  | None => ingest
  end.

(** The pass as the specification describes it, over the records that
    follow [earlier]. *)
Fixpoint classifyAll (earlier entries : list MediaEntry) : list MediaEntry :=
  match entries with
  | [] => []
  | e :: rest => with_operation (classify earlier e) e :: classifyAll (earlier ++ [e]) rest
  end.

(** The hashes carried by a list of records. *)
Definition hashesOf (l : list MediaEntry) : gset string :=
  list_to_set (omap hashOf l).

(** A record extracted from the page [/p] of a site. *)
Definition hashed (p : string) : MediaEntry :=
  newEntry "https://main--r--o.aem.page/p" p "".

(** A stand-alone asset, as [runIngest] builds it: no source page. *)
Definition standalone (p : string) : MediaEntry :=
  {| action := None; owner := Some "org"; repo := Some "site";
     operation := Some ingest; path := p; sourcePath := None;
     contentSourceType := Some "markup"; contentType := Some "video/mp4";
     width := None; height := None; alt := None; user := None |}.

(** ** Enrichment *)

(** The two records agree on every field but [operation]. *)
Definition same_but_operation (e e' : MediaEntry) : Prop :=
  action e' = action e /\ owner e' = owner e /\ repo e' = repo e
  /\ path e' = path e /\ sourcePath e' = sourcePath e
  /\ contentSourceType e' = contentSourceType e
  /\ contentType e' = contentType e /\ width e' = width e
  /\ height e' = height e /\ alt e' = alt e /\ user e' = user e.

(** The two records agree on every field but [user]. *)
Definition same_but_user (e e' : MediaEntry) : Prop :=
  action e' = action e /\ owner e' = owner e /\ repo e' = repo e
  /\ operation e' = operation e
  /\ path e' = path e /\ sourcePath e' = sourcePath e
  /\ contentSourceType e' = contentSourceType e
  /\ contentType e' = contentType e /\ width e' = width e
  /\ height e' = height e /\ alt e' = alt e.

(** A user index as [buildPreviewUserMap] builds it: no empty user. *)
Definition index_wf (userIndex : gmap string string) : Prop :=
  forall p u, userIndex !! p = Some u -> u <> EmptyString.

(** The fallback identity, when one is configured. *)
Definition configured (fallbackUser : option string) : option string :=
  match fallbackUser with
  | Some f => if truthy f then Some f else None
  | None => None
  end.

(** The attribution the specification describes: the user found for the
    site-relative path of the source page, else the fallback. *)
Definition attribution (userIndex : gmap string string)
    (fallbackUser : option string) (e : MediaEntry) : option string :=
  match sourcePath e with
  | Some sp =>
      if truthy sp then
        match sitePath sp with
        | Some p =>
            match userIndex !! p with
            | Some u => Some u
            | None => configured fallbackUser
            end
        | None => configured fallbackUser
        end
      else configured fallbackUser
  | None => configured fallbackUser
  end.

(** A record with the attribution applied. *)
Definition attributed (userIndex : gmap string string)
    (fallbackUser : option string) (e : MediaEntry) : MediaEntry :=
  match attribution userIndex fallbackUser e with
  | Some u => with_user u e
  | None => e
  end.

(** An index with one page, and three records: of that page, of a page of
    another host, and a stand-alone asset. *)
Definition example_index : gmap string string :=
  {[ "/products/x" := "ann@example.com" ]}.

Definition example_records : list MediaEntry :=
  [ newEntry "https://main--site--org.aem.page/products/x" "/media_1a2b.png" "";
    newEntry "https://www.example.com/products/x" "/media_3c4d.png" "";
    standalone "/media_5e6f.mp4" ].

(** ** Extraction *)

(** The arguments with which each loop calls [addMedia], in order. *)
Definition inlineCalls (markdown : string) : list (string * string) :=
  omap (fun m =>
          let altText := group_str m 1 in
          let url := group_str m 2 in
          if truthy url && truthy (trim url)
          then Some (url, title_or (group m 3) altText)
          else None)
       (matches false MARKDOWN_IMAGE_INLINE_REGEX markdown).

Definition referenceCalls (markdown : string) : list (string * string) :=
  let references := collectReferences markdown in
  omap (fun m =>
          let altText := group_str m 1 in
          match references !! toLowerCase (group_str m 2) with
          | Some reference => Some (reference.1, title_or reference.2 altText)
          | None => None
          end)
       (matches false MARKDOWN_IMAGE_REFERENCE_REGEX markdown).

(** The plain links the last loop finds: the url of each. *)
Definition linkUrls (markdown : string) : list string :=
  (fun m => group_str m 2) <$> matches false MARKDOWN_LINK_REGEX markdown.

Definition linkCalls (markdown : string) : list (string * string) :=
  (fun url => (url, EmptyString))
    <$> filter (fun url => isNonImageMedia url = true) (linkUrls markdown).

(** Every call of [addMedia] during one extraction, in order. *)
Definition addMediaCalls (markdown : string) : list (string * string) :=
  inlineCalls markdown ++ referenceCalls markdown ++ linkCalls markdown.

(** A run of calls of [addMedia]. *)
Definition runCalls (sourceUrl : string) (st : gset string * list MediaEntry)
    (calls : list (string * string)) : gset string * list MediaEntry :=
  foldl (fun st c => addMedia sourceUrl st c.1 c.2) st calls.

(** The calls of [addMedia] that add a record: those whose path is not in
    [seen] and was not passed by an earlier call. *)
Fixpoint keepFirst (seen : gset string) (calls : list (string * string))
    : list (string * string) :=
  match calls with
  | [] => []
  | c :: rest =>
      if decide (c.1 ∈ seen) then keepFirst seen rest
      else c :: keepFirst ({[ c.1 ]} ∪ seen) rest
  end.

(** [sub] occurs in [s]. *)
Definition occurs_in (sub s : string) : Prop :=
  exists a b, s = a +:+ sub +:+ b.

(** The scenario of the specification: an image with a title, then a link
    to a document. *)
Definition scenario_markdown : string :=
  "![Product shot](img/p1_abc123.png " +:+ dq +:+ "Main" +:+ dq +:+ ")" +:+ nl
  +:+ "[spec sheet](docs/spec.pdf)".

(** One url introduced inline and again through a reference definition,
    and a second url introduced through a reference only. *)
Definition twice_markdown : string :=
  "![first](img/a.png)" +:+ nl
  +:+ "![second][Logo] and ![third][other]" +:+ nl +:+ nl
  +:+ "[logo]: img/a.png " +:+ dq +:+ "Logo title" +:+ dq +:+ nl
  +:+ "[other]: img/b.png " +:+ dq +:+ "B title" +:+ dq.

(** Links of every kind. *)
Definition links_markdown : string :=
  "[clip](a/intro.MP4?x=1) [site](/navigation) [pic](b.png) [doc](c.pdf#p2)"
  +:+ " ![img](b.png) [nav](/docs/mp4/readme)".

(** ** Delivery *)

(** The delivery of one batch as the specification describes it: the
    states Pending, RateLimited, Sent and Failed.  The terminal states keep
    the index of the attempt that ended the delivery. *)
Module RetrySpec.

Inductive State :=
| Pending (attempt : nat)
| RateLimited (attempt : nat)
| SentState (attempt : nat) (status : Z)
| Failed (attempt : nat) (response : FetchOutcome).

(** Maximum retry attempts per batch. *)
Definition maxRetryAttempts : nat := 3.

(** The two status codes that signal throttling. *)
Definition rate_limit_signal (status : Z) : bool :=
  (status =? 403) || (status =? 429).

(** Pending: the submission is attempted and its response observed. *)
Definition observe (response : FetchOutcome) (attempt : nat) : State :=
  match response with
  | Response status _ =>
      if response_ok status then SentState attempt status
      else if rate_limit_signal status && (attempt <? maxRetryAttempts)%nat
           then RateLimited attempt
           else Failed attempt response
  | NetworkError _ => Failed attempt response
  end.

(** The machine run for [fuel] steps from [s]: the state reached and the
    waits made, in seconds; [responses a] is the response to attempt [a]. *)
Fixpoint run (fuel : nat) (responses : nat -> FetchOutcome) (s : State)
    : State * list Z :=
  match fuel with
  | O => (s, [])
  | S fuel' =>
      match s with
      | Pending a => run fuel' responses (observe (responses a) a)
      | RateLimited a =>
          let r := run fuel' responses (Pending (S a)) in
          (r.1, 2 ^ Z.of_nat a :: r.2)
      | SentState _ _ | Failed _ _ => (s, [])
      end
  end.

Definition terminal (s : State) : Prop :=
  match s with
  | SentState _ _ | Failed _ _ => True
  | Pending _ | RateLimited _ => False
  end.

Definition attempt_of (s : State) : nat :=
  match s with
  | Pending a | RateLimited a | SentState a _ | Failed a _ => a
  end.

(** What the caller of the submission sees, for each terminal state. *)
Definition outcome_matches (result : Completion SendResult) (s : State) : Prop :=
  match s with
  | SentState _ status => result = Return (Sent false status)
  | Failed _ (Response status text) =>
      result = Throw ("Media log API error: " +:+ pretty status +:+ " - " +:+ text)
  | Failed _ (NetworkError e) => result = Throw e
  | Pending _ | RateLimited _ => False
  end.

End RetrySpec.

(** The waits of a trace, in milliseconds. *)
Definition sleeps (events : list Event) : list Z :=
  omap (fun e => match e with ESleep ms => Some ms | _ => None end) events.

(** The contents written to the failure file in a trace. *)
Definition writes (events : list Event) : list (list FailureRecord) :=
  omap (fun e => match e with EWriteFile records => Some records | _ => None end)
       events.

(** The batches whose first submission is in a trace. *)
Definition first_posts (events : list Event) : list (list MediaEntry) :=
  omap (fun e => match e with EPost O batch => Some batch | _ => None end) events.

(** What happened between two worlds of one run. *)
Definition events_since (w w' : World) : list Event :=
  drop (length (trace w)) (trace w').

Definition is_rate_limited (response : FetchOutcome) : Prop :=
  match response with
  | Response status _ => is_rate_limit status = true
  | NetworkError _ => False
  end.

Definition initial_world (disk : FileState) : World :=
  {| posts := 0; now := 0; disk := disk; writable := true; trace := [] |}.

(** A service that throttles the first two requests and accepts the third. *)
Definition throttled_twice (n : nat) (batch : list MediaEntry) : FetchOutcome :=
  match n with
  | 0%nat | 1%nat => Response 429 "slow down"
  | _ => Response 201 "created"
  end.

(** A service that refuses everything. *)
Definition always_500 (n : nat) (batch : list MediaEntry) : FetchOutcome :=
  Response 500 "boom".

(** A service that throttles for ever. *)
Definition always_429 (n : nat) (batch : list MediaEntry) : FetchOutcome :=
  Response 429 "slow down".

(** The failure file can be appended to: it is absent or holds a list. *)
Definition appendable (d : FileState) : Prop :=
  match d with
  | Missing | Records _ => True
  | Unreadable _ | Garbage _ | NotArray _ => False
  end.

(** The records a failure file holds. *)
Definition records_of (d : FileState) : list FailureRecord :=
  match d with
  | Records records => records
  | _ => []
  end.

(** The run after its first [k] batches: the counters and the world. *)
Definition after_batches (medialog : nat -> list MediaEntry -> FetchOutcome)
    (batches : list (list MediaEntry)) (w : World) (k : nat) : Stats * World :=
  deliver medialog false (length batches) 0 (take k batches)
    {| batchesSent := 0; errors := 0 |} w.

(** The record [saveFailedBatch] builds. *)
Definition failure_record (w : World) (batch : list MediaEntry) (e : string)
    : FailureRecord :=
  {| timestamp := now w; error := e; entries := batch |}.

(** ** The user index *)

(** The path and the user an event of the log contributes: its route is
    preview and both fields are present. *)
Definition qualifying (e : LogEvent) : option (string * string) :=
  match ev_route e, ev_path e, ev_user e with
  | Some route, Some p, Some u =>
      if String.eqb route "preview" && truthy p && truthy u
      then Some (p, u) else None
  | _, _, _ => None
  end.

(** The index after a run of events. *)
Definition index_events (events : list LogEvent) (userMap : gmap string string)
    : gmap string string :=
  foldl recordEvent userMap events.

(** Request [n], made to [url], is answered by a page of [events] that
    links to [nextUrl]. *)
Definition good_page (outcome : LogOutcome) (events : list LogEvent)
    (nextUrl : string) : Prop :=
  exists status text entries,
    outcome = LogResponse status text (BodyData entries (Some nextUrl))
    /\ response_ok status = true
    /\ truthy nextUrl = true
    /\ default [] entries = Some <$> events.

(** The service answers the requests from number [n] on, the first made to
    [url], by the pages [pages], each given with the link it carries. *)
Fixpoint follows (logapi : nat -> string -> LogOutcome) (n : nat) (url : string)
    (pages : list (list LogEvent * string)) : Prop :=
  match pages with
  | [] => True
  | (events, nextUrl) :: rest =>
      good_page (logapi n url) events nextUrl /\ follows logapi (S n) nextUrl rest
  end.

(** The url the last of the pages links to. *)
Definition end_url (url : string) (pages : list (list LogEvent * string)) : string :=
  List.last pages.*2 url.

(** A transport failure, or a response that is not a success (403
    included). *)
Definition failed_request (outcome : LogOutcome) : Prop :=
  match outcome with
  | LogFetchRejects _ => True
  | LogResponse status _ (BodyRejects _) => True
  | LogResponse status _ (BodyData _ _) => response_ok status = false
  end.

(** The url of the first request. *)
Definition first_log_url (org repo ref : string) : string :=
  LOG_API +:+ "/" +:+ org +:+ "/" +:+ repo +:+ "/" +:+ ref
  +:+ "/?since=30d&limit=1000".

Definition preview (p u : string) : LogEvent :=
  {| ev_route := Some "preview"; ev_path := Some p; ev_user := Some u |}.

(** Two pages, then the service refuses with 403. *)
Definition two_pages_then_403 (n : nat) (url : string) : LogOutcome :=
  match n with
  | 0%nat =>
      LogResponse 200 (Some "")
        (BodyData (Some [Some (preview "/a" "ann"); Some (preview "/b" "bob");
                         Some {| ev_route := Some "live"; ev_path := Some "/c";
                                 ev_user := Some "cy" |}])
                  (Some "https://admin.hlx.page/log/next1"))
  | 1%nat =>
      LogResponse 200 (Some "")
        (BodyData (Some [Some (preview "/a" "zed"); Some (preview "/c" "cy")])
                  (Some "https://admin.hlx.page/log/next2"))
  | _ => LogResponse 403 (Some "forbidden") (BodyRejects "not json")
  end.

Definition two_pages : list (list LogEvent * string) :=
  [ ([preview "/a" "ann"; preview "/b" "bob";
      {| ev_route := Some "live"; ev_path := Some "/c"; ev_user := Some "cy" |}],
     "https://admin.hlx.page/log/next1");
    ([preview "/a" "zed"; preview "/c" "cy"],
     "https://admin.hlx.page/log/next2") ].

(** ** Discovery *)

(** The state a poll reports is neither completed nor stopped (it may be
    missing). *)
Definition poll_pending (outcome : PollOutcome) : Prop :=
  exists status state progress,
    outcome = PollResponse status (JobStatus state progress)
    /\ response_ok status = true
    /\ default EmptyString state <> "completed"
    /\ default EmptyString state <> "stopped".

(** The poll reports the terminal state [s]. *)
Definition poll_done (outcome : PollOutcome) (s : string) : Prop :=
  exists status progress,
    outcome = PollResponse status (JobStatus (Some s) progress)
    /\ response_ok status = true
    /\ (s = "completed" \/ s = "stopped").

(** The waits between polls. *)
Definition poll_sleeps (events : list PollEvent) : list Z :=
  omap (fun e => match e with PollSleep ms => Some ms | _ => None end) events.

(** A job that completes at the third poll. *)
Definition job_done_at_2 (n : nat) : PollOutcome :=
  match n with
  | 0%nat => PollResponse 200 (JobStatus (Some "created") None)
  | 1%nat => PollResponse 200
               (JobStatus (Some "running") (Some {| processed := 3; total := 9 |}))
  | _ => PollResponse 200
           (JobStatus (Some "stopped") (Some {| processed := 9; total := 9 |}))
  end.

(** ** Delivery, whole runs *)

(** The trace of a run in which every batch is accepted at once: a
    request per batch and a pause of 100 ms between two batches. *)
Fixpoint accepted_trace (batches : list (list MediaEntry)) : list Event :=
  match batches with
  | [] => []
  | batch :: rest =>
      match rest with
      | [] => [EPost 0 batch]
      | _ => EPost 0 batch :: ESleep 100 :: accepted_trace rest
      end
  end.

(** The service accepts every request. *)
Definition always_accepts (medialog : nat -> list MediaEntry -> FetchOutcome) : Prop :=
  forall n batch, exists status text,
    medialog n batch = Response status text /\ response_ok status = true.

(** The service refuses every request with a status that is not retried. *)
Definition always_refuses (medialog : nat -> list MediaEntry -> FetchOutcome) : Prop :=
  forall n batch, exists status text,
    medialog n batch = Response status text
    /\ response_ok status = false /\ is_rate_limit status = false.

(** A service that accepts everything. *)
Definition always_200 (n : nat) (batch : list MediaEntry) : FetchOutcome :=
  Response 200 "ok".

(** ** Patterns *)

(** The pattern has a capture group number [n]. *)
Fixpoint binds (n : nat) (r : regex) : bool :=
  match r with
  | Grp m r' => (m =? n)%nat || binds n r'
  | Seq r1 r2 => binds n r1 || binds n r2
  | Opt r' => binds n r'
  | Str _ | Star _ | Plus _ | LazyStar _ | Bol | Eol => false
  end.

(** ** Enrichment, whole runs *)

(** The log service is out of reach. *)
Definition log_offline (n : nat) (url : string) : LogOutcome :=
  LogFetchRejects "fetch failed".

(** The log holds one page, which does not link on. *)
Definition one_page (n : nat) (url : string) : LogOutcome :=
  LogResponse 200 (Some "")
    (BodyData (Some [Some (preview "/products/x" "ann@example.com")]) None).

(** The media extensions for which [CONTENT_TYPE_MAP] has no type. *)
Definition untyped_extensions : list string :=
  [".svg"; ".pdf"; ".doc"; ".docx"; ".xls"; ".xlsx"; ".ppt"; ".pptx"].

(** A log whose every page is empty and links to itself. *)
Definition endless_log (n : nat) (url : string) : LogOutcome :=
  LogResponse 200 (Some "") (BodyData (Some []) (Some "https://admin.hlx.page/log/next")).
(** * Properties *)

(** ** Strings and the matcher *)

Section StringFacts.

Lemma str_app_nil (t : string) : "" +:+ t = t.
Proof. reflexivity. Qed.

Lemma str_app_cons (c : ascii) (s t : string) :
  String c s +:+ t = String c (s +:+ t).
Proof. reflexivity. Qed.

Lemma startsWith_app (s p : string) :
  startsWith s p = true <-> exists t, s = p +:+ t.
Proof.
  revert s; induction p as [|a p IH]; intros s.
  - split; [intros _; by exists s | by destruct s].
  - destruct s as [|b s]; simpl.
    + split; [done | intros [t Ht]; discriminate].
    + destruct (Ascii.eqb_spec a b) as [->|Hne].
      * rewrite IH. split; intros [t Ht]; exists t.
        -- by rewrite Ht.
        -- rewrite str_app_cons in Ht. by injection Ht.
      * split; [done | intros [t Ht]].
        rewrite str_app_cons in Ht. injection Ht; congruence.
Qed.

Lemma str_drop_app (p t : string) : str_drop (String.length p) (p +:+ t) = t.
Proof.
  induction p as [|c p IH]; [by destruct t|].
  by rewrite str_app_cons.
Qed.

Lemma str_app_assoc (a b c : string) : (a +:+ b) +:+ c = a +:+ b +:+ c.
Proof.
  induction a as [|x a IH]; [done|].
  by rewrite !str_app_cons, IH.
Qed.

Lemma str_app_length (a b : string) :
  String.length (a +:+ b) = (String.length a + String.length b)%nat.
Proof.
  induction a as [|x a IH]; [done|].
  rewrite str_app_cons. simpl. by rewrite IH.
Qed.

Lemma str_take_drop (n : nat) (s : string) : str_take n s +:+ str_drop n s = s.
Proof.
  revert s; induction n as [|n IH]; intros [|c s]; simpl; try done.
  by rewrite str_app_cons, IH.
Qed.

Lemma str_drop_length (n : nat) (s : string) :
  String.length (str_drop n s) = (String.length s - n)%nat.
Proof. revert s; induction n as [|n IH]; intros [|c s]; simpl; auto. Qed.

(** [s.includes(sub)] is the substring relation. *)
Lemma includes_spec (s sub : string) :
  includes s sub = true <-> exists a b, s = a +:+ sub +:+ b.
Proof.
  induction s as [|c s IH].
  - change (includes "" sub) with (if startsWith "" sub then true else false).
    destruct (startsWith "" sub) eqn:E.
    + apply startsWith_app in E as [t Ht]. split; [|done].
      intros _. by exists EmptyString, t.
    + split; [done|]. intros (a & b & Hab).
      destruct a; [|discriminate]. rewrite str_app_nil in Hab.
      assert (startsWith "" sub = true) by (apply startsWith_app; eauto).
      congruence.
  - change (includes (String c s) sub)
      with (if startsWith (String c s) sub then true else includes s sub).
    destruct (startsWith (String c s) sub) eqn:E.
    + apply startsWith_app in E as [t Ht]. split; [|done].
      intros _. by exists EmptyString, t.
    + rewrite IH. split.
      * intros (a & b & ->). by exists (String c a), b.
      * intros (a & b & Hab). destruct a as [|c' a].
        -- rewrite str_app_nil in Hab.
           assert (startsWith (String c s) sub = true)
             by (apply startsWith_app; eauto).
           congruence.
        -- rewrite str_app_cons in Hab. injection Hab as -> ->. eauto.
Qed.

End StringFacts.

Section MatcherFacts.
Variable multiline : bool.

(** Where a greedy repetition hands over to its continuation: after some
    characters of the class, with the captures untouched. *)
Lemma star_greedy_inv cls k p s cs res :
  star_greedy cls k p s cs = Some res ->
  exists n, (n <= String.length s)%nat
    /\ str_forallb cls (str_take n s) = true
    /\ k (MState (last_char p (str_take n s)) (str_drop n s) cs) = Some res.
Proof.
  revert p; induction s as [|c s IH]; intros p; simpl.
  - intros H. exists 0%nat. by simpl.
  - destruct (cls c) eqn:Hc.
    + destruct (star_greedy cls k (Some c) s cs) eqn:E.
      * intros [= <-]. destruct (IH _ E) as (n & Hn & Hall & Hk).
        exists (S n). simpl. rewrite Hc. split; [lia|]. by split.
      * intros H. exists 0%nat. simpl. split; [lia|]. by split.
    + intros H. exists 0%nat. simpl. split; [lia|]. by split.
Qed.

Lemma star_lazy_inv cls k p s cs res :
  star_lazy cls k p s cs = Some res ->
  exists n, (n <= String.length s)%nat
    /\ str_forallb cls (str_take n s) = true
    /\ k (MState (last_char p (str_take n s)) (str_drop n s) cs) = Some res.
Proof.
  revert p; induction s as [|c s IH]; intros p; simpl.
  - destruct (k _) eqn:E; [|done]. intros [= <-]. exists 0%nat. by simpl.
  - destruct (k _) eqn:E.
    + intros [= <-]. exists 0%nat. simpl. split; [lia|]. by split.
    + destruct (cls c) eqn:Hc; [|done]. intros H.
      destruct (IH _ H) as (n & Hn & Hall & Hk).
      exists (S n). simpl. rewrite Hc. split; [lia|]. by split.
Qed.

(** A successful match runs its continuation at a position that is at
    least [min_len r] characters further. *)
Lemma rmatch_inv r : forall k st res,
  rmatch multiline r k st = Some res ->
  exists st', k st' = Some res
    /\ (String.length (rest st') + min_len r <= String.length (rest st))%nat.
Proof.
  induction r as [s|cls|cls|cls|r1 IH1 r2 IH2|r IH|n r IH| |];
    intros k st res; simpl.
  - destruct (startsWith (rest st) s) eqn:E; [|done]. intros H.
    eexists; split; [exact H|]. simpl.
    apply startsWith_app in E as [t ->].
    rewrite str_drop_app, str_app_length. lia.
  - intros H. apply star_greedy_inv in H as (n & Hn & _ & Hk).
    eexists; split; [exact Hk|]. simpl. rewrite str_drop_length. lia.
  - destruct (rest st) as [|c s] eqn:Hr; [done|].
    destruct (cls c); [|done]. intros H.
    apply star_greedy_inv in H as (n & Hn & _ & Hk).
    eexists; split; [exact Hk|]. simpl. rewrite str_drop_length. lia.
  - intros H. apply star_lazy_inv in H as (n & Hn & _ & Hk).
    eexists; split; [exact Hk|]. simpl. rewrite str_drop_length. lia.
  - intros H. apply IH1 in H as (st1 & H & Hl1).
    apply IH2 in H as (st2 & H & Hl2).
    exists st2. split; [done|lia].
  - destruct (rmatch multiline r k st) eqn:E.
    + intros [= <-]. apply IH in E as (st' & H & Hl).
      exists st'. split; [done|lia].
    + intros H. exists st. split; [done|lia].
  - intros H. apply IH in H as (st' & H & Hl).
    eexists; split; [exact H|]. simpl. lia.
  - destruct (at_line_start multiline st); [|done]. intros H.
    exists st. split; [done|lia].
  - destruct (at_line_end multiline st); [|done]. intros H.
    exists st. split; [done|lia].
Qed.

(** A pattern that takes at least one character never matches the empty
    string: the [exec] loop always advances. *)
Lemma match_here_consumes r groups p s st :
  (1 <= min_len r)%nat ->
  match_here multiline r groups p s = Some st ->
  (String.length (rest st) < String.length s)%nat.
Proof.
  intros Hmin H. apply rmatch_inv in H as (st' & [= ->] & Hl).
  simpl in Hl. lia.
Qed.

End MatcherFacts.

(** The patterns of the program never match the empty string. *)
Lemma patterns_consume :
  Forall (fun r => (1 <= min_len r)%nat)
    [MARKDOWN_IMAGE_INLINE_REGEX; MARKDOWN_IMAGE_REFERENCE_REGEX;
     MARKDOWN_REFERENCE_DEFINITION_REGEX; MARKDOWN_LINK_REGEX].
Proof. repeat constructor; simpl; lia. Qed.

(** ** The content hash *)

Lemma search_inv multiline r groups p s cs :
  search multiline r groups p s = Some cs ->
  exists pre s' p' st, s = pre +:+ s'
    /\ match_here multiline r groups p' s' = Some st /\ caps st = cs.
Proof.
  revert p; induction s as [|c s IH]; intros p; simpl.
  - destruct (match_here _ _ _ _ _) eqn:E; [|done]. intros [= <-].
    by exists EmptyString, EmptyString, p, m.
  - destruct (match_here _ _ _ _ _) eqn:E.
    + intros [= <-]. by exists EmptyString, (String c s), p, m.
    + intros H. apply IH in H as (pre & s' & p' & st & -> & H & Hc).
      by exists (String c pre), s', p', st.
Qed.

Lemma search_here multiline r groups p s st :
  match_here multiline r groups p s = Some st ->
  search multiline r groups p s = Some (caps st).
Proof. intros H. destruct s; simpl; by rewrite H. Qed.

Lemma star_greedy_run cls k p h rest0 cs res :
  str_forallb cls h = true ->
  (match rest0 with String c _ => cls c = false | EmptyString => True end) ->
  k (MState (last_char p h) rest0 cs) = Some res ->
  star_greedy cls k p (h +:+ rest0) cs = Some res.
Proof.
  revert p; induction h as [|c h IH]; intros p Hall Hstop Hk.
  - rewrite str_app_nil. destruct rest0 as [|c r]; simpl; [done|by rewrite Hstop].
  - rewrite str_app_cons. simpl in *. apply andb_prop in Hall as [Hc Hall].
    by rewrite Hc, (IH (Some c)).
Qed.

Lemma hash_match_inv p s st :
  match_here false MEDIA_HASH_REGEX 1 p s = Some st ->
  exists h post, s = "media_" +:+ h +:+ "." +:+ post
    /\ h <> EmptyString /\ str_forallb is_lower_hex h = true
    /\ caps st = [None; Some h].
Proof.
  intros H.
  unfold match_here, MEDIA_HASH_REGEX in H. cbn [rmatch rest prev caps] in H.
  destruct (startsWith s "media_") eqn:E; [|done].
  apply startsWith_app in E as [t ->]. rewrite str_drop_app in H.
  destruct t as [|c t]; [done|].
  destruct (is_lower_hex c) eqn:Hc; [|done].
  apply star_greedy_inv in H as (n & Hn & Hall & H).
  cbn [rest prev caps] in H.
  destruct (startsWith (str_drop n t) ".") eqn:E; [|done].
  apply startsWith_app in E as [post Hpost].
  injection H as <-. cbn [caps].
  rewrite str_drop_length.
  replace (S (String.length t) - (String.length t - n))%nat with (S n) by lia.
  exists (String c (str_take n t)), post.
  split.
  { f_equal. rewrite str_app_cons. f_equal.
    rewrite <- Hpost. symmetry. apply str_take_drop. }
  split; [done|]. split; [simpl; by rewrite Hc|done].
Qed.

Lemma hash_match_here p h post :
  h <> EmptyString -> str_forallb is_lower_hex h = true ->
  exists st, match_here false MEDIA_HASH_REGEX 1 p ("media_" +:+ h +:+ "." +:+ post) = Some st.
Proof.
  intros Hne Hall. destruct h as [|c h]; [done|]. simpl in Hall.
  apply andb_prop in Hall as [Hc Hall].
  unfold match_here, MEDIA_HASH_REGEX. cbn [rmatch rest prev caps].
  assert (startsWith ("media_" +:+ String c h +:+ "." +:+ post) "media_" = true) as ->
    by (apply startsWith_app; eauto).
  rewrite str_drop_app, str_app_cons, Hc.
  eexists. apply star_greedy_run; [done|done|].
  cbn [rest prev caps].
  assert (startsWith ("." +:+ post) "." = true) as -> by (apply startsWith_app; eauto).
  done.
Qed.

(** What [extractMediaHash] returns is the hexadecimal part of a name
    [media_<hex>.] that occurs in the url. *)
Lemma extractMediaHash_sound url h :
  extractMediaHash url = Some h ->
  h <> EmptyString /\ str_forallb is_lower_hex h = true
  /\ exists pre post, url = pre +:+ "media_" +:+ h +:+ "." +:+ post.
Proof.
  unfold extractMediaHash.
  destruct (search _ _ _ _ _) as [cs|] eqn:E; [|done].
  apply search_inv in E as (pre & s' & p' & st & -> & H & <-).
  apply hash_match_inv in H as (h' & post & -> & Hne & Hall & ->).
  unfold group. simpl. intros [= <-]. eauto.
Qed.

(** A url that holds a name [media_<hex>.] always has a hash. *)
Lemma extractMediaHash_complete pre h post :
  h <> EmptyString -> str_forallb is_lower_hex h = true ->
  is_Some (extractMediaHash (pre +:+ "media_" +:+ h +:+ "." +:+ post)).
Proof.
  intros Hne Hall. unfold extractMediaHash.
  assert (forall p, exists st, search false MEDIA_HASH_REGEX 1 p
             (pre +:+ "media_" +:+ h +:+ "." +:+ post) = Some (caps st)
           /\ exists h', caps st = [None; Some h']) as Hs.
  { induction pre as [|c pre IH]; intros p.
    - rewrite str_app_nil.
      destruct (hash_match_here p h post Hne Hall) as [st Hst].
      exists st. split.
      + by apply search_here.
      + apply hash_match_inv in Hst as (h' & ? & _ & _ & _ & ->). eauto.
    - rewrite str_app_cons. simpl.
      destruct (match_here _ _ _ _ _) as [st|] eqn:E.
      + exists st. split; [done|].
        apply hash_match_inv in E as (h' & ? & _ & _ & _ & ->). eauto.
      + apply IH. }
  destruct (Hs None) as (st & -> & h' & ->). by eexists.
Qed.

(** ** Deduplication *)

Lemma elem_of_hashesOf h l : h ∈ hashesOf l <-> Some h ∈ hashOf <$> l.
Proof.
  unfold hashesOf. rewrite elem_of_list_to_set, list_elem_of_omap, list_elem_of_fmap.
  split; intros (e & H1 & H2); exists e; [by split|by split].
Qed.

Lemma hashesOf_snoc l e h :
  hashOf e = Some h -> hashesOf (l ++ [e]) = {[ h ]} ∪ hashesOf l.
Proof.
  intros H. apply set_eq. intros x.
  rewrite elem_of_union, elem_of_singleton, !elem_of_hashesOf, fmap_app.
  rewrite elem_of_app. simpl. rewrite H, list_elem_of_singleton.
  split; [intros [?|[= ->]]; auto | intros [->|?]; auto].
Qed.

Lemma hashesOf_snoc_None l e :
  hashOf e = None -> hashesOf (l ++ [e]) = hashesOf l.
Proof.
  intros H. apply set_eq. intros x.
  rewrite !elem_of_hashesOf, fmap_app, elem_of_app. simpl.
  rewrite H, list_elem_of_singleton. naive_solver.
Qed.

Lemma hash_path_with_operation op e : hashOf (with_operation op e) = hashOf e.
Proof. reflexivity. Qed.

(** The pass computes that classification. *)
Lemma deduplicate_classify earlier entries :
  deduplicate (hashesOf earlier) entries = classifyAll earlier entries.
Proof.
  revert earlier; induction entries as [|e rest IH]; intros earlier; [done|].
  simpl. unfold classify. fold (hashOf e).
  destruct (hashOf e) as [h|] eqn:Hh.
  - destruct (extractMediaHash_sound _ _ Hh) as (Hne & _).
    assert (otruthy (Some h) = true) as -> by (by destruct h).
    simpl. destruct (decide (h ∈ hashesOf earlier)) as [Hin|Hin].
    + rewrite decide_True by (by apply elem_of_hashesOf).
      f_equal. rewrite <- IH. f_equal.
      rewrite (hashesOf_snoc _ _ _ Hh). set_solver.
    + rewrite decide_False by (by rewrite <- elem_of_hashesOf).
      f_equal. rewrite <- IH. f_equal. by rewrite (hashesOf_snoc _ _ _ Hh).
  - simpl. f_equal. rewrite <- IH. f_equal. by rewrite hashesOf_snoc_None.
Qed.

Lemma classifyAll_lookup earlier entries i e :
  entries !! i = Some e ->
  classifyAll earlier entries !! i
  = Some (with_operation (classify (earlier ++ take i entries) e) e).
Proof.
  revert earlier i; induction entries as [|e0 rest IH]; intros earlier i; [done|].
  destruct i as [|i]; simpl.
  - intros [= ->]. by rewrite app_nil_r.
  - intros H. rewrite (IH _ _ H). by rewrite <- app_assoc.
Qed.

Lemma classifyAll_length earlier entries :
  length (classifyAll earlier entries) = length entries.
Proof. revert earlier; induction entries; intros; simpl; auto. Qed.

Lemma hash_count_cons h e l :
  hash_count h (e :: l)
  = (if decide (hashOf e = Some h) then S (hash_count h l) else hash_count h l).
Proof. unfold hash_count. rewrite filter_cons. by destruct (decide _). Qed.

Lemma op_count_cons h op e l :
  op_count h op (e :: l)
  = (if decide (hashOf e = Some h /\ operation e = Some op)
     then S (op_count h op l) else op_count h op l).
Proof. unfold op_count. rewrite filter_cons. by destruct (decide _). Qed.

Lemma classifyAll_counts h earlier entries :
  op_count h ingest (classifyAll earlier entries)
  = (if decide (Some h ∈ hashOf <$> earlier) then 0
     else Nat.min 1 (hash_count h entries))%nat
  /\ op_count h reuse (classifyAll earlier entries)
  = (if decide (Some h ∈ hashOf <$> earlier) then hash_count h entries
     else hash_count h entries - 1)%nat.
Proof.
  revert earlier; induction entries as [|e rest IH]; intros earlier.
  - unfold op_count, hash_count. simpl. by destruct (decide _).
  - destruct (IH (earlier ++ [e])) as [IHi IHr].
    simpl classifyAll. rewrite !op_count_cons, hash_count_cons, IHi, IHr.
    rewrite hash_path_with_operation. cbn [operation with_operation].
    assert (Some h ∈ hashOf <$> earlier ++ [e]
            <-> Some h ∈ hashOf <$> earlier \/ hashOf e = Some h) as Hsnoc.
    { rewrite fmap_app, elem_of_app. simpl. rewrite list_elem_of_singleton.
      naive_solver. }
    unfold classify.
    destruct (hashOf e) as [h'|] eqn:Hh.
    + destruct (decide (Some h' ∈ hashOf <$> earlier)) as [Hin'|Hin'];
        repeat case_decide; try lia; naive_solver.
    + repeat case_decide; try lia; naive_solver.
Qed.

(** C2. Deduplication classifies by content hash: a record whose path
    yields no hash (no name of the form media_<hex>.) is first-seen
    ([ingest]); a record with a hash is first-seen exactly when no earlier
    record of the list has that hash, and reused ([reuse]) otherwise; so of
    the [k] records that carry a given hash, [min 1 k] (one, when there is
    any) are first-seen and the other [k - 1] are reused.  The records keep
    their order and their contents. *)
Theorem deduplicate_first_seen_then_reused (allEntries : list MediaEntry) :
  let out := deduplicatedEntries allEntries in
  length out = length allEntries
  /\ (forall i e, allEntries !! i = Some e ->
        exists op, out !! i = Some (with_operation op e)
          /\ (hashOf e = None -> op = ingest)
          /\ (forall h, hashOf e = Some h ->
                (op = ingest <->
                   forall j e0, (j < i)%nat -> allEntries !! j = Some e0 ->
                                hashOf e0 <> Some h)
                /\ (op = reuse <->
                      exists j e0, (j < i)%nat /\ allEntries !! j = Some e0
                                   /\ hashOf e0 = Some h)))
  /\ (forall h,
        op_count h ingest out = Nat.min 1 (hash_count h allEntries)
        /\ op_count h reuse out = (hash_count h allEntries - 1)%nat).
Proof.
  intros out. subst out. unfold deduplicatedEntries.
  change (∅ : gset string) with (hashesOf []).
  rewrite deduplicate_classify.
  split; [apply classifyAll_length|]. split.
  - intros i e Hi. exists (classify (take i allEntries) e).
    split; [by rewrite (classifyAll_lookup _ _ _ _ Hi)|].
    unfold classify.
    assert (forall h, Some h ∈ hashOf <$> take i allEntries <->
              exists j e0, (j < i)%nat /\ allEntries !! j = Some e0
                           /\ hashOf e0 = Some h) as Hearlier.
    { intros h. rewrite list_elem_of_fmap. split.
      - intros (e0 & He0 & Hin). apply list_elem_of_lookup in Hin as [j Hj].
        apply lookup_take_Some in Hj as [Hj Hlt]. eauto.
      - intros (j & e0 & Hlt & Hj & He0). exists e0. split; [done|].
        apply list_elem_of_lookup. exists j. by rewrite lookup_take_lt. }
    split; [by intros ->|].
    intros h ->. destruct (decide _) as [Hin|Hin].
    + apply Hearlier in Hin as (j & e0 & Hlt & Hj & He0). split.
      * split; [done|]. intros Hall. by destruct (Hall j e0).
      * split; [eauto|done].
    + split.
      * split; [|done]. intros _ j e0 Hlt Hj He0. apply Hin, Hearlier. eauto.
      * split; [done|]. intros Hex. by apply Hearlier in Hex.
  - intros h. destruct (classifyAll_counts h [] allEntries) as [Hi Hr].
    rewrite decide_False in Hi, Hr by (simpl; apply not_elem_of_nil).
    done.
Qed.



(** Three uses of one asset among five records: one first-seen, two
    reused. *)
Lemma deduplicate_first_seen_then_reused_witness :
  let l := [hashed "/media_1a2b.png"; hashed "/logo.svg"; hashed "/x/media_1a2b.png";
            hashed "/media_ff.jpg"; hashed "/y/media_1a2b.png#w"] in
  deduplicatedEntries l !! 2%nat = Some (with_operation reuse (hashed "/x/media_1a2b.png"))
  /\ deduplicatedEntries l !! 1%nat = Some (with_operation ingest (hashed "/logo.svg"))
  /\ op_count "1a2b" ingest (deduplicatedEntries l) = 1%nat
  /\ op_count "1a2b" reuse (deduplicatedEntries l) = 2%nat.
Proof.
  intros l.
  destruct (deduplicate_first_seen_then_reused l) as (_ & Hat & Hcount).
  split; [|split].
  - destruct (Hat 2%nat (hashed "/x/media_1a2b.png") eq_refl) as (op & -> & _ & Hop).
    destruct (Hop "1a2b" eq_refl) as [_ [_ Hreuse]].
    rewrite Hreuse; [done|].
    exists 0%nat, (hashed "/media_1a2b.png"). split; [lia|]. by split.
  - destruct (Hat 1%nat (hashed "/logo.svg") eq_refl) as (op & -> & Hnone & _).
    by rewrite Hnone.
  - destruct (Hcount "1a2b") as [-> ->]. by vm_compute.
Defined.
(** ** Enrichment *)

Lemma str_take_all (s : string) : str_take (String.length s) s = s.
Proof. induction s as [|c s IH]; simpl; congruence. Qed.

Lemma str_drop_nil_inv (n : nat) (s : string) :
  (n <= String.length s)%nat -> str_drop n s = EmptyString -> n = String.length s.
Proof.
  intros Hn H. pose proof (str_drop_length n s) as Hl. rewrite H in Hl.
  simpl in Hl. lia.
Qed.

Lemma aem_match_inv p s st :
  match_here false AEM_PAGE_REGEX 1 p s = Some st ->
  exists q, s = ".aem.page" +:+ "/" +:+ q
    /\ str_forallb (fun c => negb (is_line_terminator c)) q = true
    /\ caps st = [None; Some ("/" +:+ q)].
Proof.
  intros H. unfold match_here, AEM_PAGE_REGEX in H.
  cbn [rmatch rest prev caps] in H.
  destruct (startsWith s ".aem.page") eqn:E; [|done].
  apply startsWith_app in E as [t ->]. rewrite str_drop_app in H.
  destruct (startsWith t "/") eqn:E; [|done].
  apply startsWith_app in E as [q ->]. rewrite str_drop_app in H.
  apply star_lazy_inv in H as (n & Hn & Hall & H).
  cbn [rest prev caps] in H. unfold at_line_end in H. cbn [rest] in H.
  destruct (str_drop n q) eqn:Hd; [|done].
  apply str_drop_nil_inv in Hd as ->; [|done].
  injection H as <-. exists q. rewrite str_take_all in Hall.
  split; [done|]. split; [done|]. cbn [caps].
  by rewrite !str_app_nil, str_take_all.
Qed.

(** The path [sitePath] extracts is what follows the host suffix
    [.aem.page], begins with a slash and runs to the end of the url. *)
Lemma sitePath_sound sourcePath p :
  sitePath sourcePath = Some p ->
  exists host, sourcePath = host +:+ ".aem.page" +:+ p
    /\ startsWith p "/" = true.
Proof.
  unfold sitePath.
  destruct (search _ _ _ _ _) as [cs|] eqn:E; [|done].
  apply search_inv in E as (pre & s' & p' & st & -> & H & <-).
  apply aem_match_inv in H as (q & -> & _ & ->).
  unfold group_str, group. simpl. intros [= <-].
  exists pre. split; [done|]. apply startsWith_app. eauto.
Qed.

Lemma enrichEntry_attributed userIndex fallbackUser e :
  index_wf userIndex ->
  enrichEntry userIndex fallbackUser e = attributed userIndex fallbackUser e.
Proof.
  intros Hwf. unfold enrichEntry, attributed, attribution, configured.
  destruct (sourcePath e) as [sp|]; simpl.
  - destruct (truthy sp); simpl.
    + destruct (sitePath sp) as [p|].
      * destruct (userIndex !! p) as [u|] eqn:Hu; simpl.
        -- apply Hwf in Hu. by destruct u.
        -- destruct fallbackUser as [f|]; simpl; [by destruct (truthy f)|done].
      * destruct fallbackUser as [f|]; simpl; [by destruct (truthy f)|done].
    + destruct fallbackUser as [f|]; simpl; [by destruct (truthy f)|done].
  - destruct fallbackUser as [f|]; simpl; [by destruct (truthy f)|done].
Qed.

(** C5. Enrichment resolves the user of each record as the specification
    describes: with a source page whose url has the host suffix, the user
    the index holds for the path after the suffix, else the configured
    fallback, else none; with a source page of another shape, or without a
    source page, the configured fallback, else none.  The function is total:
    nothing raises.  The path looked up is the part of the url after
    [.aem.page], beginning with a slash. *)
Theorem enrichEntries_attribution (userIndex : gmap string string)
    (fallbackUser : option string) (entries : list MediaEntry) :
  index_wf userIndex ->
  enrichEntries userIndex fallbackUser entries
  = map (attributed userIndex fallbackUser) entries
  /\ (forall e, user e = None ->
        user (attributed userIndex fallbackUser e)
        = attribution userIndex fallbackUser e)
  /\ (forall sp p, sitePath sp = Some p ->
        exists host, sp = host +:+ ".aem.page" +:+ p /\ startsWith p "/" = true).
Proof.
  intros Hwf. split; [|split; [|apply sitePath_sound]].
  - unfold enrichEntries. apply map_ext. intros e.
    by apply enrichEntry_attributed.
  - intros e He. unfold attributed.
    by destruct (attribution userIndex fallbackUser e).
Qed.

Lemma star_lazy_to_end cls k p q cs :
  str_forallb cls q = true ->
  (forall p' c s', k (MState p' (String c s') cs) = None) ->
  star_lazy cls k p q cs = k (MState (last_char p q) EmptyString cs).
Proof.
  revert p; induction q as [|c q IH]; intros p Hall Hk; simpl.
  - by destruct (k _).
  - simpl in Hall. apply andb_prop in Hall as [Hc Hall].
    by rewrite Hk, Hc, IH.
Qed.

Lemma aem_match_here p q :
  str_forallb (fun c => negb (is_line_terminator c)) q = true ->
  exists st, match_here false AEM_PAGE_REGEX 1 p (".aem.page" +:+ "/" +:+ q) = Some st.
Proof.
  intros Hall. unfold match_here, AEM_PAGE_REGEX.
  cbn [rmatch rest prev caps].
  assert (startsWith (".aem.page" +:+ "/" +:+ q) ".aem.page" = true) as ->
    by (apply startsWith_app; eauto).
  rewrite str_drop_app.
  assert (startsWith ("/" +:+ q) "/" = true) as ->
    by (apply startsWith_app; eauto).
  rewrite str_drop_app, star_lazy_to_end; [|done|done].
  cbn [rest prev caps]. by eexists.
Qed.

(** Every url that ends in the host suffix, a slash and a line of text has
    a site path. *)
Lemma sitePath_complete host q :
  str_forallb (fun c => negb (is_line_terminator c)) q = true ->
  is_Some (sitePath (host +:+ ".aem.page" +:+ "/" +:+ q)).
Proof.
  intros Hall. unfold sitePath.
  assert (forall p, is_Some (search false AEM_PAGE_REGEX 1 p
                               (host +:+ ".aem.page" +:+ "/" +:+ q))) as Hs.
  { induction host as [|c host IH]; intros p.
    - rewrite str_app_nil. destruct (aem_match_here p q Hall) as [st Hst].
      rewrite (search_here _ _ _ _ _ _ Hst). by eexists.
    - rewrite str_app_cons. simpl.
      destruct (match_here _ _ _ _ _); [by eexists|apply IH]. }
  destruct (Hs None) as [cs ->]. by eexists.
Qed.

Lemma example_index_wf : index_wf example_index.
Proof.
  intros p u H. unfold example_index in H.
  apply lookup_singleton_Some in H as [_ <-]. done.
Qed.

(** A page of the site, a page of another host, a stand-alone asset. *)
Lemma enrichEntries_attribution_witness :
  user <$> enrichEntries example_index (Some "backfill") example_records
  = [Some "ann@example.com"; Some "backfill"; Some "backfill"]
  /\ user <$> enrichEntries example_index None example_records
  = [Some "ann@example.com"; None; None].
Proof.
  split.
  - rewrite (proj1 (enrichEntries_attribution example_index (Some "backfill")
                      example_records example_index_wf)).
    by vm_compute.
  - rewrite (proj1 (enrichEntries_attribution example_index None
                      example_records example_index_wf)).
    by vm_compute.
Defined.

(** ** Frame of the two passes *)

Lemma classifyAll_frame earlier entries :
  Forall2 same_but_operation entries (classifyAll earlier entries).
Proof.
  revert earlier; induction entries as [|e rest IH]; intros earlier; simpl.
  - constructor.
  - constructor; [|apply IH]. by repeat split.
Qed.

Lemma with_user_frame u e : same_but_user e (with_user u e).
Proof. by repeat split. Qed.

Lemma same_but_user_refl e : same_but_user e e.
Proof. by repeat split. Qed.

Lemma enrichEntry_frame userIndex fallbackUser e :
  same_but_user e (enrichEntry userIndex fallbackUser e).
Proof.
  unfold enrichEntry.
  repeat (match goal with
          | |- context [if ?b then _ else _] => destruct b
          | |- context [match ?o with Some _ => _ | None => _ end] => destruct o
          end);
    auto using with_user_frame, same_but_user_refl.
Qed.

Lemma enrichEntries_frame userIndex fallbackUser entries :
  Forall2 same_but_user entries (enrichEntries userIndex fallbackUser entries).
Proof.
  unfold enrichEntries. induction entries as [|e rest IH]; simpl.
  - constructor.
  - constructor; [apply enrichEntry_frame|apply IH].
Qed.

(** C10. Deduplication and enrichment map the list record by record: the
    output has the length and the order of the input, and each output
    record agrees with its input record on every field but the one the pass
    sets, [operation] for deduplication and [user] for enrichment. *)
Theorem passes_preserve_other_fields (allEntries : list MediaEntry)
    (previewUserMap : gmap string string) (fallbackUser : option string) :
  (length (deduplicatedEntries allEntries) = length allEntries
   /\ Forall2 same_but_operation allEntries (deduplicatedEntries allEntries))
  /\ (length (enrichEntries previewUserMap fallbackUser allEntries) = length allEntries
      /\ Forall2 same_but_user allEntries
           (enrichEntries previewUserMap fallbackUser allEntries)).
Proof.
  assert (Forall2 same_but_operation allEntries (deduplicatedEntries allEntries)) as Hd.
  { unfold deduplicatedEntries. change (∅ : gset string) with (hashesOf []).
    rewrite deduplicate_classify. apply classifyAll_frame. }
  pose proof (enrichEntries_frame previewUserMap fallbackUser allEntries) as He.
  split; (split; [symmetry; eapply Forall2_length; eassumption|done]).
Qed.
(** ** Batches *)

Section Batches.
Context {A : Type}.
Implicit Types (entries : list A) (batches : list (list A)).

Lemma js_slice_window entries (i B : Z) :
  0 <= i -> 1 <= B ->
  js_slice entries i (i + B)
  = take (Z.to_nat (Z.min B (Z.of_nat (length entries) - i)))
         (drop (Z.to_nat i) entries).
Proof.
  intros Hi HB. unfold js_slice.
  destruct (Z.ltb_spec i 0); [lia|]. destruct (Z.ltb_spec (i + B) 0); [lia|].
  destruct (Z.le_gt_cases i (Z.of_nat (length entries))) as [Hle|Hgt].
  - rewrite (Z.min_l i) by lia. f_equal. lia.
  - rewrite (Z.min_r i) by lia.
    rewrite (drop_ge entries (Z.to_nat i)) by lia.
    rewrite drop_ge by lia. by rewrite !take_nil.
Qed.

(** The loop from index [i]: what it appends to [batches]. *)
Lemma batchLoop_spec entries (B : Z) (fuel : nat) : 1 <= B ->
  forall (i : Z) batches,
    0 <= i -> i < Z.of_nat (length entries) + B ->
    Z.of_nat (length entries) - i < Z.of_nat fuel ->
    exists more,
      batchLoop fuel entries (Int B) (Int i) batches = Some (batches ++ more)
      /\ concat more = drop (Z.to_nat i) entries
      /\ Z.of_nat (length more) = (Z.of_nat (length entries) - i + B - 1) / B
      /\ (forall j b, more !! j = Some b ->
            Z.of_nat (length b)
            = Z.min B (Z.of_nat (length entries) - i - Z.of_nat j * B)).
Proof.
  intros HB. induction fuel as [|fuel IH]; intros i batches Hi Hlt Hfuel.
  - exists []. cbn [batchLoop js_lt].
    destruct (Z.ltb_spec i (Z.of_nat (length entries))); [lia|].
    rewrite app_nil_r, drop_ge by lia.
    repeat split; [|done]. symmetry. apply Z.div_small. lia.
  - cbn [batchLoop js_lt js_add to_integer].
    destruct (Z.ltb_spec i (Z.of_nat (length entries))) as [Hin|Hout].
    + destruct (IH (i + B) (batches ++ [js_slice entries i (i + B)]))
        as (more & Hrun & Hcat & Hlen & Hsize); [lia..|].
      exists (js_slice entries i (i + B) :: more).
      rewrite Hrun, <- app_assoc. split; [done|].
      rewrite js_slice_window in * by lia. split; [|split].
      * simpl. rewrite Hcat.
        transitivity
          (take (Z.to_nat (Z.min B (Z.of_nat (length entries) - i)))
                (drop (Z.to_nat i) entries)
           ++ drop (Z.to_nat (Z.min B (Z.of_nat (length entries) - i)))
                (drop (Z.to_nat i) entries)); [|apply take_drop].
        f_equal. rewrite drop_drop.
        destruct (Z.le_gt_cases B (Z.of_nat (length entries) - i)).
        -- rewrite Z.min_l by lia. f_equal. lia.
        -- rewrite Z.min_r by lia. rewrite !drop_ge; [done|lia..].
      * simpl length. rewrite Nat2Z.inj_succ, Hlen.
        replace (Z.of_nat (length entries) - i + B - 1)
          with (Z.of_nat (length entries) - (i + B) + B - 1 + 1 * B) by lia.
        rewrite Z.div_add by lia. lia.
      * intros [|j] b; simpl.
        -- intros [= <-]. rewrite length_take, length_drop. lia.
        -- intros Hb. rewrite (Hsize _ _ Hb). f_equal. lia.
    + exists []. rewrite app_nil_r, drop_ge by lia.
      repeat split; [|done]. symmetry. apply Z.div_small. lia.
Qed.

End Batches.

(** A size of zero, or below, never leaves the loop. *)
Lemma batchLoop_diverges {A : Type} (entries : list A) (B : Z) (fuel : nat) :
  B <= 0 -> forall i batches,
    i < Z.of_nat (length entries) ->
    batchLoop fuel entries (Int B) (Int i) batches = None.
Proof.
  intros HB. induction fuel as [|fuel IH]; intros i batches Hi;
    cbn [batchLoop js_lt js_add to_integer];
    destruct (Z.ltb_spec i (Z.of_nat (length entries))); try lia; [done|].
  apply IH. lia.
Qed.

(** A size that is no number: the first slice is empty, and the index,
    no number either, ends the loop. *)
Lemma batchEntries_NaN {A : Type} (entries : list A) (fuel : nat) :
  entries <> [] -> (1 <= fuel)%nat -> batchEntries fuel entries NaN = Some [[]].
Proof.
  intros Hne Hfuel. destruct fuel as [|fuel]; [lia|].
  destruct entries as [|a entries]; [done|].
  unfold batchEntries. cbn [batchLoop js_lt js_add to_integer].
  destruct (Z.ltb_spec 0 (Z.of_nat (length (a :: entries)))) as [_|H];
    [|simpl in H; lia].
  destruct fuel; reflexivity.
Qed.

(** C6.  For a batch size that parses to an integer of at least one, the
    effective size [B] is that integer clamped to ten, and [batchEntries]
    splits the [N] records into the [ceil(N/B)] batches that follow one
    another in the list: every batch but the last has [B] records, the
    last has the remaining [N - (count - 1) * B], between one and [B].
    For the other sizes there is no such partition when there is a record:
    with an integer of zero or below the loop never ends, and with a text
    that is no number (NaN) the result is one empty batch. *)
Theorem batchEntries_partition {A : Type} (entries : list A) (parsed : JsNumber)
    (fuel : nat) :
  (forall configured,
     parsed = Int configured -> 1 <= configured -> (length entries < fuel)%nat ->
     let B := Z.min configured 10 in
     let N := Z.of_nat (length entries) in
     (1 <= B <= 10
      /\ (configured <= 10 -> B = configured) /\ (10 <= configured -> B = 10))
     /\ exists batches,
          batchEntries fuel entries (effectiveBatchSize parsed) = Some batches
          /\ Z.of_nat (length batches) = (N + B - 1) / B
          /\ concat batches = entries
          /\ (forall j b, batches !! j = Some b -> (S j < length batches)%nat ->
                Z.of_nat (length b) = B)
          /\ (forall b, last batches = Some b ->
                Z.of_nat (length b) = N - (Z.of_nat (length batches) - 1) * B
                /\ 1 <= Z.of_nat (length b) <= B))
  /\ (forall configured,
        parsed = Int configured -> configured <= 0 -> entries <> [] ->
        batchEntries fuel entries (effectiveBatchSize parsed) = None)
  /\ (parsed = NaN -> entries <> [] -> (1 <= fuel)%nat ->
      batchEntries fuel entries (effectiveBatchSize parsed) = Some [[]]).
Proof.
  split; [|split].
  - intros configured -> Hconf Hfuel B N. cbn [effectiveBatchSize]. fold B.
    assert (1 <= B <= 10) as HB by (subst B; lia).
    split; [subst B; lia|].
    destruct (batchLoop_spec entries B fuel (proj1 HB) 0 [])
      as (batches & Hrun & Hcat & Hlen & Hsize); [lia..|].
    exists batches. simpl in Hrun, Hcat. rewrite Z.sub_0_r in Hlen. fold N in Hlen.
    split; [done|]. split; [done|]. split; [done|].
    assert (forall j b, batches !! j = Some b ->
              Z.of_nat (length b) = Z.min B (N - Z.of_nat j * B)) as Hsize'.
    { intros j b Hb. rewrite (Hsize _ _ Hb). f_equal. lia. }
    assert (0 < N -> (Z.of_nat (length batches) - 1) * B < N
                     /\ N <= Z.of_nat (length batches) * B) as Hceil.
    { intros HN. rewrite Hlen.
      pose proof (Z.div_mod (N + B - 1) B ltac:(lia)) as Hdm.
      pose proof (Z.mod_pos_bound (N + B - 1) B ltac:(lia)) as Hmod.
      nia. }
    split.
    + intros j b Hb Hj. rewrite (Hsize' _ _ Hb).
      assert (0 < N).
      { destruct (Z.eq_dec N 0) as [HN|]; [|lia].
        rewrite HN, Z.add_0_l, Z.div_small in Hlen by lia. lia. }
      destruct (Hceil ltac:(done)). nia.
    + intros b Hb. rewrite last_lookup in Hb.
      assert (0 < length batches)%nat
        by (destruct batches; [done|simpl; lia]).
      rewrite (Hsize' _ _ Hb).
      assert (0 < N).
      { destruct (Z.eq_dec N 0) as [HN|]; [|lia].
        rewrite HN, Z.add_0_l, Z.div_small in Hlen by lia. lia. }
      destruct (Hceil ltac:(done)).
      replace (Z.of_nat (Init.Nat.pred (length batches)))
        with (Z.of_nat (length batches) - 1) by lia.
      lia.
  - intros configured -> Hconf Hne. unfold batchEntries. cbn [effectiveBatchSize].
    apply batchLoop_diverges; [lia|]. destruct entries; [done|]. simpl. lia.
  - intros -> Hne Hfuel. by apply batchEntries_NaN.
Qed.

(** Twenty-three records: a size of twenty-five is clamped, and gives
    batches of ten, ten and three; a size of four is kept, and gives five
    batches of four and one of three. *)
Lemma batchEntries_partition_witness :
  (exists batches,
     batchEntries 24 (seq 0 23) (effectiveBatchSize (Int 25)) = Some batches
     /\ Z.of_nat (length batches) = 3
     /\ concat batches = seq 0 23)
  /\ (exists batches,
        batchEntries 24 (seq 0 23) (effectiveBatchSize (Int 4)) = Some batches
        /\ Z.of_nat (length batches) = 6
        /\ (forall b, batches !! 0%nat = Some b -> Z.of_nat (length b) = 4)).
Proof.
  split.
  - destruct (proj1 (batchEntries_partition (seq 0 23) (Int 25) 24) 25)
      as (_ & batches & Hrun & Hlen & Hcat & _); [done | lia | simpl; lia |].
    exists batches. split; [done|]. split; [by rewrite Hlen|done].
  - destruct (proj1 (batchEntries_partition (seq 0 23) (Int 4) 24) 4)
      as (_ & batches & Hrun & Hlen & _ & Hsize & _); [done | lia | simpl; lia |].
    exists batches. split; [done|]. split; [by rewrite Hlen|].
    intros b Hb. apply (Hsize 0%nat b Hb).
    apply Nat2Z.inj_lt. rewrite Hlen. by vm_compute.
Defined.

(** Three records and a size of zero: the loop is still running after
    any number of steps.  Three records and a size that is no number: one
    batch, with no record in it. *)
Lemma batchEntries_no_partition :
  (forall fuel, batchEntries fuel (seq 0 3) (effectiveBatchSize (Int 0)) = None)
  /\ batchEntries 10 (seq 0 3) (effectiveBatchSize NaN) = Some [[]].
Proof.
  split; [|reflexivity].
  intros fuel. unfold batchEntries. cbn [effectiveBatchSize].
  apply batchLoop_diverges; [lia|]. simpl. lia.
Qed.

Example batchEntries_23_by_25 :
  batchEntries 24 (seq 0 23) (effectiveBatchSize (Int 25))
  = Some [seq 0 10; seq 10 10; seq 20 3].
Proof. reflexivity. Qed.

(** ** Extraction *)

Lemma keepFirst_lookup seen calls c :
  c ∈ keepFirst seen calls <->
  exists i, calls !! i = Some c /\ (c.1 ∉ seen)
    /\ forall j c', (j < i)%nat -> calls !! j = Some c' -> c'.1 <> c.1.
Proof.
  revert seen; induction calls as [|c0 rest IH]; intros seen; simpl.
  - split; [by intros ?%elem_of_nil|by intros (i & ? & _)].
  - destruct (decide (c0.1 ∈ seen)) as [Hin|Hin].
    + rewrite IH. split.
      * intros (i & Hi & Hs & Hfirst). exists (S i). split; [done|]. split; [done|].
        intros [|j] c' Hj; simpl; [intros [= <-]; by intros Heq; rewrite Heq in Hin|].
        apply Hfirst. lia.
      * intros ([|i] & Hi & Hs & Hfirst); simpl in Hi.
        -- by injection Hi as <-.
        -- exists i. split; [done|]. split; [done|].
           intros j c' Hj Hc'. apply (Hfirst (S j)); [lia|done].
    + rewrite elem_of_cons, IH. split.
      * intros [->|(i & Hi & Hs & Hfirst)].
        -- exists 0%nat. split; [done|]. split; [done|]. intros; lia.
        -- exists (S i). split; [done|]. split; [set_solver|].
           intros [|j] c' Hj; simpl; [intros [= <-]; set_solver|].
           apply Hfirst. lia.
      * intros ([|i] & Hi & Hs & Hfirst); simpl in Hi.
        -- left. by injection Hi.
        -- right. exists i. split; [done|]. split.
           ++ pose proof (Hfirst 0%nat c0 ltac:(lia) eq_refl). set_solver.
           ++ intros j c' Hj Hc'. apply (Hfirst (S j)); [lia|done].
Qed.

Lemma keepFirst_fresh seen calls c :
  c ∈ keepFirst seen calls -> c.1 ∉ seen.
Proof. rewrite keepFirst_lookup. by intros (_ & _ & ? & _). Qed.

Lemma keepFirst_NoDup seen calls : NoDup (keepFirst seen calls).*1.
Proof.
  revert seen; induction calls as [|c0 rest IH]; intros seen; simpl.
  - constructor.
  - destruct (decide (c0.1 ∈ seen)); [apply IH|].
    simpl. constructor; [|apply IH].
    intros (c & Heq & Hc)%list_elem_of_fmap.
    apply keepFirst_fresh in Hc. set_solver.
Qed.

Lemma keepFirst_covers seen calls c :
  c ∈ calls -> c.1 ∈ seen \/ c.1 ∈ (keepFirst seen calls).*1.
Proof.
  revert seen; induction calls as [|c0 rest IH]; intros seen; simpl.
  - by intros ?%elem_of_nil.
  - intros [->|Hin]%elem_of_cons.
    + destruct (decide (c0.1 ∈ seen)); [by left|]. right. simpl. left.
    + destruct (decide (c0.1 ∈ seen)); [by apply IH|].
      destruct (IH ({[c0.1]} ∪ seen) Hin) as [[Heq%elem_of_singleton|?]%elem_of_union|?].
      * right. simpl. rewrite Heq. left.
      * by left.
      * right. simpl. by right.
Qed.

(** What a run of calls does to the two locals of the extraction. *)
Lemma runCalls_keepFirst sourceUrl seen mediaRefs calls :
  runCalls sourceUrl (seen, mediaRefs) calls
  = (list_to_set calls.*1 ∪ seen,
     mediaRefs ++ ((fun c => newEntry sourceUrl c.1 c.2) <$> keepFirst seen calls)).
Proof.
  revert seen mediaRefs; induction calls as [|c rest IH]; intros seen mediaRefs.
  - simpl. f_equal; [set_solver|by rewrite app_nil_r].
  - unfold runCalls in *. simpl foldl. unfold addMedia at 2. simpl fst. simpl snd.
    destruct (decide (c.1 ∈ seen)).
    + rewrite IH. simpl. rewrite decide_True by done. f_equal. set_solver.
    + rewrite IH. simpl. rewrite decide_False by done.
      f_equal; [set_solver|]. by rewrite <- app_assoc.
Qed.

Lemma keepFirst_app seen calls1 calls2 :
  keepFirst seen (calls1 ++ calls2)
  = keepFirst seen calls1 ++ keepFirst (list_to_set calls1.*1 ∪ seen) calls2.
Proof.
  revert seen; induction calls1 as [|c rest IH]; intros seen; simpl.
  - f_equal. set_solver.
  - assert (forall X : gset string,
              list_to_set rest.*1 ∪ ({[c.1]} ∪ X)
              = {[c.1]} ∪ list_to_set rest.*1 ∪ X) as Hset by set_solver.
    destruct (decide (c.1 ∈ seen)) as [Hin|Hin].
    + rewrite IH. do 2 f_equal. set_solver.
    + simpl. rewrite IH. by rewrite Hset.
Qed.

(** Each loop of the extraction is a run of calls of [addMedia]. *)
Lemma inlineImages_calls sourceUrl markdown st :
  inlineImages sourceUrl markdown st = runCalls sourceUrl st (inlineCalls markdown).
Proof.
  unfold inlineImages, inlineCalls, runCalls.
  generalize (matches false MARKDOWN_IMAGE_INLINE_REGEX markdown).
  intros ms. revert st; induction ms as [|m ms IH]; intros st; [done|].
  simpl. destruct (truthy _ && truthy _); simpl; apply IH.
Qed.

Lemma referenceImages_calls sourceUrl markdown st :
  referenceImages sourceUrl markdown (collectReferences markdown) st
  = runCalls sourceUrl st (referenceCalls markdown).
Proof.
  unfold referenceImages, referenceCalls, runCalls.
  generalize (matches false MARKDOWN_IMAGE_REFERENCE_REGEX markdown).
  intros ms. revert st; induction ms as [|m ms IH]; intros st; [done|].
  simpl. destruct (collectReferences markdown !! _); simpl; apply IH.
Qed.

Lemma plainLinks_calls sourceUrl markdown st :
  plainLinks sourceUrl markdown st = runCalls sourceUrl st (linkCalls markdown).
Proof.
  unfold plainLinks, linkCalls, linkUrls, runCalls.
  generalize (matches false MARKDOWN_LINK_REGEX markdown).
  intros ms. revert st; induction ms as [|m ms IH]; intros st; [done|].
  rewrite fmap_cons, filter_cons. cbn [foldl].
  destruct (decide (isNonImageMedia (group_str m 2) = true)) as [E|E].
  - rewrite E. simpl. apply IH.
  - apply not_true_is_false in E. rewrite E. apply IH.
Qed.

(** The records of an extraction are the first calls of [addMedia]. *)
Lemma extractMediaReferences_keepFirst markdown sourcePath org repo ref :
  extractMediaReferences markdown sourcePath org repo ref
  = (fun c => newEntry (sourceUrlOf sourcePath org repo ref) c.1 c.2)
      <$> keepFirst ∅ (addMediaCalls markdown).
Proof.
  unfold extractMediaReferences, addMediaCalls.
  rewrite inlineImages_calls, referenceImages_calls, plainLinks_calls.
  rewrite !runCalls_keepFirst. simpl snd.
  rewrite !keepFirst_app, !fmap_app, !app_assoc.
  repeat f_equal; set_solver.
Qed.

Lemma path_newEntry sourceUrl (calls : list (string * string)) :
  path <$> ((fun c => newEntry sourceUrl c.1 c.2) <$> calls) = calls.*1.
Proof. rewrite <- list_fmap_compose. by apply list_fmap_ext. Qed.

(** C3. An extraction emits at most one record for each url: the paths of
    the records are pairwise distinct; each record was made by the first
    call of [addMedia] for its url, in the order inline images, reference
    images, plain links, and carries the alt text of that call, trimmed
    (no alt text when that leaves nothing), whatever later calls for the
    same url bring; and every url passed to [addMedia] has a record. *)
Theorem extractMediaReferences_first_wins
    (markdown sourcePath org repo ref : string) :
  let out := extractMediaReferences markdown sourcePath org repo ref in
  let calls := addMediaCalls markdown in
  NoDup (path <$> out)
  /\ (forall e, e ∈ out ->
        exists i altText,
          calls !! i = Some (path e, altText)
          /\ (forall j c, (j < i)%nat -> calls !! j = Some c -> c.1 <> path e)
          /\ e = newEntry (sourceUrlOf sourcePath org repo ref) (path e) altText
          /\ alt e = (if truthy (trim altText) then Some (trim altText) else None))
  /\ (forall c, c ∈ calls -> c.1 ∈ path <$> out).
Proof.
  intros out calls. subst out calls.
  rewrite extractMediaReferences_keepFirst, path_newEntry.
  split; [apply keepFirst_NoDup|]. split.
  - intros e (c & -> & Hc)%list_elem_of_fmap.
    apply keepFirst_lookup in Hc as (i & Hi & _ & Hfirst).
    exists i, c.2. simpl. split; [by destruct c|]. split; [done|].
    split; [done|]. by destruct c as [p [|a altText]].
  - intros c Hc. destruct (keepFirst_covers ∅ _ _ Hc) as [?|?]; [set_solver|done].
Qed.

(** The url [img/a.png] comes first inline, with the alt text [first], and
    again through the reference [logo], with a title: one record, the
    first of the extraction, with the alt text [first]. *)
Lemma extractMediaReferences_first_wins_witness :
  let out := extractMediaReferences twice_markdown "/p" "org" "site" "main" in
  NoDup (path <$> out)
  /\ exists e, out !! 0%nat = Some e /\ path e = "img/a.png" /\ alt e = Some "first".
Proof.
  cbn zeta.
  destruct (extractMediaReferences_first_wins twice_markdown "/p" "org" "site" "main")
    as (Hnodup & Hfirst & _).
  split; [done|].
  eexists. split; [by vm_compute|]. split; [done|].
  match goal with |- alt ?e = _ =>
    destruct (Hfirst e) as (i & altText & Hi & Hmin & _ & Halt);
      [apply (list_elem_of_lookup_2 _ 0%nat); by vm_compute|]
  end.
  rewrite Halt. clear Halt.
  replace (addMediaCalls twice_markdown)
    with [("img/a.png", "first"); ("img/a.png", "Logo title"); ("img/b.png", "B title")]
    in Hi, Hmin by (by vm_compute).
  cbn [path] in Hi, Hmin.
  destruct i as [|[|[|i]]]; simpl in Hi; try discriminate.
  - by injection Hi as <-.
  - by destruct (Hmin 0%nat ("img/a.png", "first") ltac:(lia) eq_refl).
Defined.

Example extractMediaReferences_twice :
  addMediaCalls twice_markdown
  = [("img/a.png", "first"); ("img/a.png", "Logo title"); ("img/b.png", "B title")]
  /\ (fun e => (path e, alt e))
       <$> extractMediaReferences twice_markdown "/p" "org" "site" "main"
     = [("img/a.png", Some "first"); ("img/b.png", Some "B title")].
Proof. by vm_compute. Qed.

(** C8. The scenario of the specification: the markdown holds an image
    [img/p1_abc123.png] with bracket text [Product shot] and title [Main],
    and on the next line a link to [docs/spec.pdf]; for the page
    [/products/x] of any site, the extraction is exactly two records, the
    image with alt [Main] and the document with no alt, both with the
    source path https://<ref>--<repo>--<org>.aem.page/products/x. *)
Theorem extractMediaReferences_scenario (org repo ref : string) :
  let sourceUrl :=
    "https://" +:+ ref +:+ "--" +:+ repo +:+ "--" +:+ org +:+ ".aem.page"
    +:+ "/products/x" in
  extractMediaReferences scenario_markdown "/products/x" org repo ref
  = [ {| action := Some "add"; owner := None; repo := None; operation := None;
         path := "img/p1_abc123.png"; sourcePath := Some sourceUrl;
         contentSourceType := None; contentType := None; width := None;
         height := None; alt := Some "Main"; user := None |};
      {| action := Some "add"; owner := None; repo := None; operation := None;
         path := "docs/spec.pdf"; sourcePath := Some sourceUrl;
         contentSourceType := None; contentType := None; width := None;
         height := None; alt := None; user := None |} ].
Proof.
  intros sourceUrl. rewrite extractMediaReferences_keepFirst.
  replace (keepFirst ∅ (addMediaCalls scenario_markdown))
    with [("img/p1_abc123.png", "Main"); ("docs/spec.pdf", "")]
    by (by vm_compute).
  reflexivity.
Qed.

(** [isNonImageMedia] is the substring test on the lowercased url. *)
Lemma isNonImageMedia_spec url :
  isNonImageMedia url = true <->
  exists ext, ext ∈ VIDEO_EXTENSIONS ++ DOC_EXTENSIONS
              /\ occurs_in ext (toLowerCase url).
Proof.
  unfold isNonImageMedia. rewrite <- existsb_app, existsb_exists.
  split; intros (ext & H1 & H2); exists ext.
  - split; [by apply list_elem_of_In|by apply includes_spec].
  - split; [by apply list_elem_of_In|by apply includes_spec].
Qed.

(** C9. For a plain link of the markdown, the last loop calls [addMedia]
    exactly when the lowercased url holds, anywhere, one of the fourteen
    video or document extensions with its dot: .mp4 .mov .webm .avi .m4v
    .mkv, .pdf .doc .docx .xls .xlsx .ppt .pptx .txt.  When it does, the
    extraction has a record for the url; when it does not, a record for the
    url, if any, comes from an image construct. *)
Theorem plain_link_emitted_iff_media
    (markdown sourcePath org repo ref url : string) :
  url ∈ linkUrls markdown ->
  let out := extractMediaReferences markdown sourcePath org repo ref in
  ((url, EmptyString) ∈ linkCalls markdown <->
     exists ext,
       ext ∈ [".mp4"; ".mov"; ".webm"; ".avi"; ".m4v"; ".mkv";
              ".pdf"; ".doc"; ".docx"; ".xls"; ".xlsx"; ".ppt"; ".pptx"; ".txt"]
       /\ occurs_in ext (toLowerCase url))
  /\ ((url, EmptyString) ∈ linkCalls markdown -> url ∈ path <$> out)
  /\ ((url, EmptyString) ∉ linkCalls markdown ->
        forall e, e ∈ out -> path e = url ->
          exists altText,
            (url, altText) ∈ inlineCalls markdown ++ referenceCalls markdown).
Proof.
  intros Hlink out. subst out.
  rewrite extractMediaReferences_keepFirst, path_newEntry.
  assert ((url, EmptyString) ∈ linkCalls markdown <-> isNonImageMedia url = true)
    as Hcall.
  { unfold linkCalls. rewrite list_elem_of_fmap. split.
    - intros (u & [= <-] & Hu). by apply list_elem_of_filter in Hu as [? _].
    - intros Hm. exists url. split; [done|]. by apply list_elem_of_filter. }
  split; [rewrite Hcall; exact (isNonImageMedia_spec url)|]. split.
  - intros Hin.
    assert ((url, EmptyString) ∈ addMediaCalls markdown) as Hin'
      by (unfold addMediaCalls; rewrite !elem_of_app; auto).
    destruct (keepFirst_covers ∅ _ _ Hin') as [?|?]; [set_solver|done].
  - intros Hnot e (c & -> & Hc)%list_elem_of_fmap Hpath. simpl in Hpath.
    apply keepFirst_lookup in Hc as (i & Hi & _ & _).
    apply list_elem_of_lookup_2 in Hi. unfold addMediaCalls in Hi.
    rewrite app_assoc in Hi. apply elem_of_app in Hi as [Hi|Hi].
    + exists c.2. by rewrite <- Hpath, <- surjective_pairing.
    + exfalso. apply Hnot. unfold linkCalls in *.
      apply list_elem_of_fmap in Hi as (u & -> & Hu). simpl in Hpath. subst u.
      apply list_elem_of_fmap. eauto.
Qed.

(** A video link with an upper-case extension in the middle of its url and
    a document link have a record; for a link whose path only holds the
    letters of an extension, [addMedia] is not called. *)
Lemma plain_link_emitted_iff_media_witness :
  let out := extractMediaReferences links_markdown "/p" "org" "site" "main" in
  "a/intro.MP4?x=1" ∈ path <$> out
  /\ "c.pdf#p2" ∈ path <$> out
  /\ ("/docs/mp4/readme", EmptyString) ∉ linkCalls links_markdown.
Proof.
  cbn zeta. split; [|split].
  - destruct (plain_link_emitted_iff_media links_markdown "/p" "org" "site" "main"
                "a/intro.MP4?x=1") as (Hiff & Hin & _).
    + apply (list_elem_of_lookup_2 _ 0%nat). by vm_compute.
    + apply Hin, Hiff. exists ".mp4". split.
      * apply (list_elem_of_lookup_2 _ 0%nat). reflexivity.
      * by exists "a/intro", "?x=1".
  - destruct (plain_link_emitted_iff_media links_markdown "/p" "org" "site" "main"
                "c.pdf#p2") as (Hiff & Hin & _).
    + apply (list_elem_of_lookup_2 _ 3%nat). by vm_compute.
    + apply Hin, Hiff. exists ".pdf". split.
      * apply (list_elem_of_lookup_2 _ 6%nat). reflexivity.
      * by exists "c", "#p2".
  - destruct (plain_link_emitted_iff_media links_markdown "/p" "org" "site" "main"
                "/docs/mp4/readme") as (Hiff & _).
    + apply (list_elem_of_lookup_2 _ 5%nat). by vm_compute.
    + intros Hcall. apply Hiff in Hcall as (ext & Hext & Hocc).
      apply includes_spec in Hocc.
      repeat (apply elem_of_cons in Hext as [->|Hext]; [by vm_compute in Hocc|]).
      by apply elem_of_nil in Hext.
Defined.

(** The url [/docs/mp4/readme] holds the letters mp4, without the dot: the
    link is found, and no record is made for it. *)
Lemma plain_link_without_dot_ignored :
  let out := extractMediaReferences links_markdown "/p" "org" "site" "main" in
  "/docs/mp4/readme" ∈ linkUrls links_markdown
  /\ occurs_in "mp4" (toLowerCase "/docs/mp4/readme")
  /\ "/docs/mp4/readme" ∉ path <$> out.
Proof.
  cbn zeta. split; [apply (list_elem_of_lookup_2 _ 5%nat); by vm_compute|].
  split; [by exists "/docs/", "/readme"|].
  replace (path <$> extractMediaReferences links_markdown "/p" "org" "site" "main")
    with ["b.png"; "a/intro.MP4?x=1"; "c.pdf#p2"] by (by vm_compute).
  intros H. repeat (apply elem_of_cons in H as [H|H]; [discriminate|]).
  by apply elem_of_nil in H.
Qed.

Example links_scenario :
  linkUrls links_markdown
  = ["a/intro.MP4?x=1"; "/navigation"; "b.png"; "c.pdf#p2"; "b.png"; "/docs/mp4/readme"]
  /\ path <$> extractMediaReferences links_markdown "/p" "org" "site" "main"
     = ["b.png"; "a/intro.MP4?x=1"; "c.pdf#p2"].
Proof. by vm_compute. Qed.
(** ** Delivery *)

Lemma rate_limit_signal_eq status :
  RetrySpec.rate_limit_signal status = is_rate_limit status.
Proof. reflexivity. Qed.

(** The loop of [sendMediaLogBatch] follows the machine of the
    specification from [Pending attempt]. *)
Lemma sendLoop_refines medialog batch (base : nat) :
  forall remaining attempt w,
    (1 <= remaining)%nat -> (attempt + remaining = 4)%nat ->
    posts w = (base + attempt)%nat ->
    let responses := fun a => medialog (base + a)%nat batch in
    let r := sendLoop medialog remaining attempt 3 batch w in
    let m := RetrySpec.run (2 * remaining) responses (RetrySpec.Pending attempt) in
    RetrySpec.terminal m.1
    /\ RetrySpec.outcome_matches r.2 m.1
    /\ (attempt <= RetrySpec.attempt_of m.1 <= 3)%nat
    /\ m.2 = (fun a => 2 ^ Z.of_nat a)
              <$> seq attempt (RetrySpec.attempt_of m.1 - attempt)
    /\ posts r.1 = (base + S (RetrySpec.attempt_of m.1))%nat
    /\ disk r.1 = disk w /\ writable r.1 = writable w /\ now w <= now r.1
    /\ exists events, trace r.1 = trace w ++ events
         /\ sleeps events = (fun s => s * 1000) <$> m.2
         /\ writes events = []
         /\ first_posts events = (if attempt is O then [batch] else []).
Proof.
  induction remaining as [|remaining IH]; intros attempt w Hrem Hsum Hposts; [lia|].
  cbn zeta.
  replace (2 * S remaining)%nat with (S (S (2 * remaining))) by lia.
  cbn [sendLoop RetrySpec.run]. rewrite Hposts.
  destruct (medialog (base + attempt)%nat batch) as [e|status text] eqn:Hresp;
    cbn [RetrySpec.observe].
  - cbn. rewrite Nat.sub_diag. repeat split; try lia.
    exists [EPost attempt batch]. repeat split. by destruct attempt.
  - destruct (response_ok status) eqn:Hok.
    + cbn. rewrite Nat.sub_diag. repeat split; try lia.
      exists [EPost attempt batch]. repeat split. by destruct attempt.
    + rewrite rate_limit_signal_eq. unfold RetrySpec.maxRetryAttempts.
      destruct (is_rate_limit status && (attempt <? 3)%nat) eqn:Hretry.
      * apply andb_prop in Hretry as [Hrl Hlt]. apply Nat.ltb_lt in Hlt.
        cbn [RetrySpec.run fst snd].
        destruct (IH (S attempt)
                    (sleep (2 ^ Z.of_nat attempt * 1000) (post attempt batch w)))
          as (Hterm & Hout & Hatt & Hwaits & Hp & Hdisk & Hwr & Hnow
              & events & Htr & Hsl & Hw & Hfp);
          [lia | lia | simpl; lia |].
        split; [done|]. split; [done|]. split; [lia|].
        split.
        { rewrite Hwaits.
          replace (RetrySpec.attempt_of
                     (RetrySpec.run (2 * remaining)
                        (fun a => medialog (base + a)%nat batch)
                        (RetrySpec.Pending (S attempt))).1 - attempt)%nat
            with (S (RetrySpec.attempt_of
                     (RetrySpec.run (2 * remaining)
                        (fun a => medialog (base + a)%nat batch)
                        (RetrySpec.Pending (S attempt))).1 - S attempt))%nat by lia.
          done. }
        split; [by rewrite Hp|].
        split; [by rewrite Hdisk|]. split; [by rewrite Hwr|].
        split; [simpl in Hnow; lia|].
        exists (EPost attempt batch :: ESleep (2 ^ Z.of_nat attempt * 1000) :: events).
        split; [rewrite Htr; simpl; by rewrite <- !app_assoc|].
        split; [simpl; by rewrite Hsl|]. split; [done|].
        simpl. rewrite Hfp. by destruct attempt.
      * cbn. rewrite Nat.sub_diag. repeat split; try lia.
        exists [EPost attempt batch]. repeat split. by destruct attempt.
Qed.

Lemma rate_limit_not_ok status : is_rate_limit status = true -> response_ok status = false.
Proof.
  unfold is_rate_limit, response_ok. intros H.
  apply orb_prop in H as [H|H]; apply Z.eqb_eq in H; by subst.
Qed.

Lemma events_since_app w w' events :
  trace w' = trace w ++ events -> events_since w w' = events.
Proof. intros H. unfold events_since. by rewrite H, drop_app_length. Qed.

(** C1. A submission that is not a dry run, with the default of three
    retries, follows the retry machine of the specification: the machine
    ends in Sent or Failed within eight steps, the caller sees the matching
    result, and the waits of the code are those of the machine, a wait of
    [2^a] seconds after a rate-limited attempt [a] that leaves a retry.
    At most four requests are made; the waits are [2^a] seconds after
    each attempt [a] before the last, an initial part of 1s, 2s, 4s.  When attempts 0 and 1 are rate-limited and attempt 2
    succeeds, the submission returns success after exactly the waits 1s and
    2s, and the delivery of that batch writes nothing to the failure
    file. *)
Theorem sendMediaLogBatch_retry_machine
    (medialog : nat -> list MediaEntry -> FetchOutcome)
    (batch : list MediaEntry) (w : World) :
  let responses := fun a => medialog (posts w + a)%nat batch in
  let r := sendMediaLogBatch medialog batch false 3 w in
  let m := RetrySpec.run 8 responses (RetrySpec.Pending 0) in
  (RetrySpec.terminal m.1
   /\ RetrySpec.outcome_matches r.2 m.1
   /\ sleeps (events_since w r.1) = (fun s => s * 1000) <$> m.2
   /\ posts r.1 = (posts w + S (RetrySpec.attempt_of m.1))%nat)
  /\ ((posts r.1 - posts w <= 4)%nat
      /\ sleeps (events_since w r.1)
         = (fun a => 2 ^ Z.of_nat a * 1000)
             <$> seq 0 (RetrySpec.attempt_of m.1)
      /\ sleeps (events_since w r.1) `prefix_of` [1000; 2000; 4000])
  /\ (forall status text,
        is_rate_limited (responses 0%nat) ->
        is_rate_limited (responses 1%nat) ->
        responses 2%nat = Response status text ->
        response_ok status = true ->
        r.2 = Return (Sent false status)
        /\ sleeps (events_since w r.1) = [1000; 2000]
        /\ let w' := (deliverAll medialog false [batch] w).2 in
           disk w' = disk w /\ writes (events_since w w') = []).
Proof.
  intros responses r m.
  destruct (sendLoop_refines medialog batch (posts w) 4 0 w)
    as (Hterm & Hout & Hatt & Hwaits & Hp & Hdisk & Hwr & Hnow
        & events & Htr & Hsl & Hw & Hfp); [lia..|].
  change (sendLoop medialog 4 0 3 batch w) with r in *.
  change (RetrySpec.run (2 * 4) (fun a => medialog (posts w + a)%nat batch)
            (RetrySpec.Pending 0)) with m in *.
  pose proof (events_since_app _ _ _ Htr) as Hev.
  split; [by rewrite Hev|]. split.
  - split; [lia|]. rewrite Hev, Hsl, Hwaits, Nat.sub_0_r.
    split; [by rewrite <- list_fmap_compose|].
    destruct (RetrySpec.attempt_of m.1) as [|[|[|[|n]]]]; [..|lia]; simpl.
    + by exists [1000; 2000; 4000].
    + by exists [2000; 4000].
    + by exists [4000].
    + by exists [].
  - intros status text H0 H1 H2 Hok.
    assert (m = (RetrySpec.SentState 2 status, [1; 2])) as Hm.
    { subst m responses. cbn beta in *. clear -H0 H1 H2 Hok.
      destruct (medialog (posts w + 0)%nat batch) as [|s0 t0] eqn:E0; [done|].
      destruct (medialog (posts w + 1)%nat batch) as [|s1 t1] eqn:E1; [done|].
      simpl in H0, H1.
      pose proof (rate_limit_not_ok _ H0). pose proof (rate_limit_not_ok _ H1).
      do 2 (cbn [RetrySpec.run]; cbn beta).
      rewrite E0. cbn [RetrySpec.observe].
      rewrite rate_limit_signal_eq, H0, H. cbn [andb Nat.ltb Nat.leb RetrySpec.maxRetryAttempts].
      do 2 (cbn [RetrySpec.run]; cbn beta).
      rewrite E1. cbn [RetrySpec.observe].
      rewrite rate_limit_signal_eq, H1, H3. cbn [andb Nat.ltb Nat.leb RetrySpec.maxRetryAttempts].
      do 2 (cbn [RetrySpec.run]; cbn beta).
      rewrite H2. cbn [RetrySpec.observe]. rewrite Hok.
      cbn [RetrySpec.run fst snd]. done. }
    rewrite Hm in *. simpl in Hout, Hsl.
    split; [done|]. split; [by rewrite Hev|].
    unfold deliverAll. cbn [deliver length].
    change (sendMediaLogBatch medialog batch false 3 w) with r.
    destruct r as [w1 res]. simpl in Hout, Hev, Hdisk. subst res. cbn.
    split; [done|]. by rewrite Hev.
Qed.

(** The service throttles twice, then accepts. *)
Lemma sendMediaLogBatch_retry_machine_witness :
  let w := initial_world Missing in
  let r := sendMediaLogBatch throttled_twice [hashed "/media_1a2b.png"] false 3 w in
  r.2 = Return (Sent false 201)
  /\ sleeps (events_since w r.1) = [1000; 2000]
  /\ disk (deliverAll throttled_twice false [[hashed "/media_1a2b.png"]] w).2 = Missing.
Proof.
  intros w r.
  destruct (sendMediaLogBatch_retry_machine throttled_twice
              [hashed "/media_1a2b.png"] w) as (_ & _ & Hscenario).
  destruct (Hscenario 201 "created") as (Hres & Hsleeps & Hdisk & _); try done.
Defined.


(** What a submission leaves behind, whatever its result. *)
Lemma sendMediaLogBatch_effects medialog batch w :
  let r := sendMediaLogBatch medialog batch false 3 w in
  disk r.1 = disk w /\ writable r.1 = writable w
  /\ exists events, trace r.1 = trace w ++ events
       /\ writes events = [] /\ first_posts events = [batch].
Proof.
  destruct (sendLoop_refines medialog batch (posts w) 4 0 w)
    as (_ & _ & _ & _ & _ & Hdisk & Hwr & _ & events & Htr & _ & Hw & Hfp);
    [lia..|].
  cbn zeta. split; [done|]. split; [done|]. by exists events.
Qed.

(** What [saveFailedBatch] does to the file. *)
Lemma saveFailedBatch_effects batch e w :
  let w' := saveFailedBatch batch e w in
  posts w' = posts w /\ writable w' = writable w /\ now w' = now w
  /\ (appendable (disk w) -> writable w = true ->
        disk w' = Records (records_of (disk w) ++ [failure_record w batch e])
        /\ trace w'
           = trace w ++ [EWriteFile (records_of (disk w) ++ [failure_record w batch e])])
  /\ (~ (appendable (disk w) /\ writable w = true) ->
        disk w' = disk w
        /\ exists message, trace w' = trace w ++ [EConsoleError message]).
Proof.
  unfold saveFailedBatch, failure_record.
  destruct (disk w) eqn:Hd; simpl; destruct (writable w) eqn:Hwr; simpl;
    rewrite ?Hd, ?Hwr; repeat split; try done; try tauto; eauto;
    intros Hno; exfalso; by apply Hno.
Qed.

Lemma classic_appendable (d : FileState) (wr : bool) :
  (appendable d /\ wr = true) \/ ~ (appendable d /\ wr = true).
Proof.
  destruct d, wr; simpl;
    first [left; by split | right; intros [? ?]; done].
Qed.

Lemma appendable_Records l : appendable (Records l).
Proof. done. Qed.

(** The delivery loop, from any batch on. *)
Lemma deliver_loop medialog (total : nat) :
  forall batches index stats w,
    let r := deliver medialog false total index batches stats w in
    (batchesSent r.1 + errors r.1
     = batchesSent stats + errors stats + length batches)%nat
    /\ (errors stats <= errors r.1)%nat
    /\ writable r.2 = writable w
    /\ exists events,
         trace r.2 = trace w ++ events
         /\ first_posts events = batches
         /\ (appendable (disk w) -> writable w = true ->
               exists failures,
                 length failures = (errors r.1 - errors stats)%nat
                 /\ Forall (fun f => entries f ∈ batches) failures
                 /\ length (writes events) = length failures
                 /\ disk r.2 = (match failures with
                                | [] => disk w
                                | _ => Records (records_of (disk w) ++ failures)
                                end))
         /\ (~ (appendable (disk w) /\ writable w = true) ->
               disk r.2 = disk w /\ writes events = []).
Proof.
  induction batches as [|batch rest IH]; intros index stats w; cbn zeta.
  - simpl. split; [lia|]. split; [lia|]. split; [done|].
    exists []. rewrite app_nil_r. split; [done|]. split; [done|]. split.
    + intros _ _. exists []. by rewrite Nat.sub_diag.
    + done.
  - cbn [deliver].
    destruct (sendMediaLogBatch_effects medialog batch w)
      as (Hdisk & Hwr & ev1 & Htr & Hw1 & Hfp1).
    destruct (sendMediaLogBatch medialog batch false 3 w) as [w1 [res|e]];
      cbn [fst snd] in *.
    + (* sent *)
      set (w2 := if (index <? total - 1)%nat && negb false
                 then sleep 100 w1 else w1).
      assert (disk w2 = disk w /\ writable w2 = writable w
              /\ exists ev2, trace w2 = trace w ++ ev1 ++ ev2
                   /\ writes ev2 = [] /\ first_posts ev2 = []) as (Hd2 & Hwr2 & ev2 & Htr2 & Hw2 & Hfp2).
      { subst w2. destruct ((index <? total - 1)%nat && negb false); simpl.
        - split; [done|]. split; [done|]. exists [ESleep 100].
          by rewrite Htr, <- app_assoc.
        - split; [done|]. split; [done|]. exists [].
          by rewrite Htr, app_nil_r. }
      destruct (IH (S index) {| batchesSent := S (batchesSent stats);
                                errors := errors stats |} w2)
        as (Hcount & Hmono & Hwr' & events & Htr' & Hfp & Hgood & Hbad).
      cbn [batchesSent errors] in *.
      split; [simpl; lia|]. split; [done|]. split; [congruence|].
      exists (ev1 ++ ev2 ++ events).
      split; [by rewrite Htr', Htr2, <- !app_assoc|].
      split.
      { unfold first_posts in *. by rewrite !omap_app, Hfp1, Hfp2, Hfp. }
      rewrite Hd2, Hwr2 in Hgood, Hbad. split.
      * intros Ha Hwt. destruct (Hgood Ha Hwt) as (failures & Hlen & Hall & Hwl & Hdk).
        exists failures. split; [done|]. split.
        { eapply Forall_impl; [exact Hall|]. intros f Hf. by right. }
        split; [|done].
        unfold writes in *. by rewrite !omap_app, Hw1, Hw2.
      * intros Hno. destruct (Hbad Hno) as [Hdk Hwn]. split; [done|].
        unfold writes in *. by rewrite !omap_app, Hw1, Hw2, Hwn.
    + (* terminal failure *)
      destruct (saveFailedBatch_effects batch e w1)
        as (Hp2 & Hwr2 & Hnow2 & Hsave & Hlost).
      set (w2 := saveFailedBatch batch e w1) in *.
      destruct (IH (S index) {| batchesSent := batchesSent stats;
                                errors := S (errors stats) |} w2)
        as (Hcount & Hmono & Hwr' & events & Htr' & Hfp & Hgood & Hbad).
      cbn [batchesSent errors] in *.
      split; [simpl; lia|]. split; [lia|]. split; [congruence|].
      rewrite Hdisk, Hwr in Hsave, Hlost.
      destruct (classic_appendable (disk w) (writable w)) as [[Ha Hwt]|Hno].
      * destruct (Hsave Ha Hwt) as [Hd2 Htr2].
        exists (ev1 ++ [EWriteFile (records_of (disk w) ++ [failure_record w1 batch e])]
                    ++ events).
        split; [by rewrite Htr', Htr2, Htr, <- !app_assoc|].
        split.
        { unfold first_posts in *. by rewrite !omap_app, Hfp1, Hfp. }
        split; [|intros Hno; exfalso; by apply Hno].
        intros _ _.
        destruct Hgood as (failures & Hlen & Hall & Hwl & Hdk).
        { rewrite Hd2. apply appendable_Records. }
        { congruence. }
        exists (failure_record w1 batch e :: failures).
        split; [simpl; lia|]. split.
        { constructor; [simpl; left|].
          eapply Forall_impl; [exact Hall|]. intros f Hf. by right. }
        split.
        { unfold writes in *. rewrite !omap_app, Hw1. simpl. by rewrite Hwl. }
        rewrite Hdk, Hd2. simpl.
        destruct failures; [done|]. by rewrite <- app_assoc.
      * destruct (Hlost Hno) as [Hd2 [message Htr2]].
        exists (ev1 ++ [EConsoleError message] ++ events).
        split; [by rewrite Htr', Htr2, Htr, <- !app_assoc|].
        split.
        { unfold first_posts in *. by rewrite !omap_app, Hfp1, Hfp. }
        split; [intros Ha Hwt; exfalso; by apply Hno|].
        intros _. destruct Hbad as [Hdk Hwn].
        { by rewrite Hd2, Hwr2, Hwr. }
        split; [congruence|].
        unfold writes in *. by rewrite !omap_app, Hw1, Hwn.
Qed.

Lemma deliver_app medialog dryRun total l1 :
  forall l2 index stats w,
    deliver medialog dryRun total index (l1 ++ l2) stats w
    = deliver medialog dryRun total (index + length l1) l2
        (deliver medialog dryRun total index l1 stats w).1
        (deliver medialog dryRun total index l1 stats w).2.
Proof.
  induction l1 as [|batch l1 IH]; intros l2 index stats w.
  - simpl. by rewrite Nat.add_0_r.
  - cbn [app deliver length].
    replace (index + S (length l1))%nat with (S index + length l1)%nat by lia.
    destruct (sendMediaLogBatch medialog batch dryRun 3 w) as [w1 [res|e]];
      apply IH.
Qed.

(** C7, as the code has it.  A terminal failure of a batch never ends the
    run: every batch is submitted, in order, and counted as sent or as an
    error, and after each batch the run goes on with the next.  The
    submission of a batch throws exactly when the retry machine ends in
    Failed (retries exhausted, or an error that is not retried), and then
    [saveFailedBatch] gets that batch and that error: when the failure file
    is absent or holds a list, and can be written, the file becomes the
    records it had followed by one record with the time, the error and the
    batch, in one write; when the file cannot be read or does not hold a
    list, nothing is written, the file stays as it was and the failure to
    save is only logged; when the write fails, it is only logged too.  A
    batch that is sent writes nothing. *)
Theorem terminal_failures_are_appended
    (medialog : nat -> list MediaEntry -> FetchOutcome)
    (batches : list (list MediaEntry)) (w : World) :
  let after := after_batches medialog batches w in
  let r := deliverAll medialog false batches w in
  (after 0%nat = ({| batchesSent := 0; errors := 0 |}, w)
   /\ after (length batches) = r)
  /\ ((batchesSent r.1 + errors r.1 = length batches)%nat
      /\ first_posts (events_since w r.2) = batches)
  /\ (appendable (disk w) -> writable w = true ->
        exists failures,
          length failures = errors r.1
          /\ length (writes (events_since w r.2)) = errors r.1
          /\ disk r.2 = (match failures with
                         | [] => disk w
                         | _ => Records (records_of (disk w) ++ failures)
                         end))
  /\ (forall k batch, batches !! k = Some batch ->
        let s := after k in
        let sub := sendMediaLogBatch medialog batch false 3 s.2 in
        let s' := after (S k) in
        let m := RetrySpec.run 8 (fun a => medialog (posts s.2 + a)%nat batch)
                   (RetrySpec.Pending 0) in
        (RetrySpec.terminal m.1 /\ RetrySpec.outcome_matches sub.2 m.1)
        /\ deliver medialog false (length batches) (S k) (drop (S k) batches)
             s'.1 s'.2 = r
        /\ match sub.2 with
           | Return _ =>
               s'.1 = {| batchesSent := S (batchesSent s.1); errors := errors s.1 |}
               /\ disk s'.2 = disk s.2
               /\ writes (events_since s.2 s'.2) = []
           | Throw e =>
               let record :=
                 {| timestamp := now sub.1; error := e; entries := batch |} in
               s'.1 = {| batchesSent := batchesSent s.1; errors := S (errors s.1) |}
               /\ (appendable (disk s.2) -> writable s.2 = true ->
                     disk s'.2 = Records (records_of (disk s.2) ++ [record])
                     /\ writes (events_since s.2 s'.2)
                        = [records_of (disk s.2) ++ [record]])
               /\ (~ appendable (disk s.2) ->
                     disk s'.2 = disk s.2
                     /\ writes (events_since s.2 s'.2) = []
                     /\ exists message,
                          last (trace s'.2) = Some (EConsoleError message))
               /\ (writable s.2 = false ->
                     writes (events_since s.2 s'.2) = []
                     /\ exists message,
                          last (trace s'.2) = Some (EConsoleError message))
           end).
Proof.
  intros after r. subst after r. unfold after_batches, deliverAll.
  split; [split; [done|by rewrite firstn_all]|].
  destruct (deliver_loop medialog (length batches) batches 0
              {| batchesSent := 0; errors := 0 |} w)
    as (Hcount & _ & _ & events & Htr & Hfp & Hgood & _).
  cbn [batchesSent errors] in *.
  split; [split; [lia|by rewrite (events_since_app _ _ _ Htr)]|].
  split.
  { intros Ha Hwt. destruct (Hgood Ha Hwt) as (failures & Hlen & _ & Hwl & Hdk).
    exists failures. rewrite Nat.sub_0_r in Hlen.
    rewrite (events_since_app _ _ _ Htr).
    split; [done|]. split; [congruence|done]. }
  clear events Htr Hfp Hcount Hgood.
  intros k batch Hk. cbn zeta.
  pose proof (lookup_lt_Some _ _ _ Hk) as Hlt.
  assert (length (take k batches) = k) as Hlen by (rewrite length_take; lia).
  assert (length (take (S k) batches) = S k) as Hlen' by (rewrite length_take; lia).
  set (stats0 := {| batchesSent := 0; errors := 0 |}).
  set (s := deliver medialog false (length batches) 0 (take k batches) stats0 w).
  assert (deliver medialog false (length batches) 0 (take (S k) batches) stats0 w
          = deliver medialog false (length batches) k [batch] s.1 s.2) as Hstep.
  { rewrite (take_S_r _ _ _ Hk), deliver_app. by rewrite Hlen. }
  split.
  { destruct (sendLoop_refines medialog batch (posts s.2) 4 0 s.2)
      as (Hterm & Hout & _); [lia..|]. by split. }
  split.
  { symmetry.
    transitivity (deliver medialog false (length batches) 0
                    (take (S k) batches ++ drop (S k) batches) stats0 w);
      [by rewrite take_drop|].
    rewrite deliver_app. by rewrite Hlen'. }
  rewrite Hstep. cbn [deliver].
  destruct (sendMediaLogBatch_effects medialog batch s.2)
    as (Hdisk & Hwr & ev1 & Htr & Hw1 & _).
  destruct (sendMediaLogBatch medialog batch false 3 s.2) as [w1 [res|e]];
    cbn [fst snd] in *.
  - split; [done|].
    destruct ((k <? length batches - 1)%nat && negb false); cbn [sleep disk trace].
    + split; [done|].
      rewrite (events_since_app s.2 _ (ev1 ++ [ESleep 100]))
        by (simpl; by rewrite Htr, <- app_assoc).
      unfold writes in *. by rewrite omap_app, Hw1.
    + split; [done|]. by rewrite (events_since_app _ _ _ Htr).
  - split; [done|].
    destruct (saveFailedBatch_effects batch e w1) as (_ & _ & _ & Hsave & Hlost).
    rewrite Hdisk, Hwr in Hsave, Hlost. split; [|split].
    + intros Ha Hwt. destruct (Hsave Ha Hwt) as [Hd2 Htr2].
      split; [done|]. rewrite Htr, <- app_assoc in Htr2.
      rewrite (events_since_app _ _ _ Htr2).
      unfold writes in *. rewrite omap_app, Hw1. done.
    + intros Hno. destruct Hlost as [Hd2 [message Htr2]]; [by intros [? _]|].
      split; [done|]. split.
      * rewrite Htr, <- app_assoc in Htr2. rewrite (events_since_app _ _ _ Htr2).
        unfold writes in *. by rewrite omap_app, Hw1.
      * exists message. rewrite Htr2. apply last_snoc.
    + intros Hno. destruct Hlost as [Hd2 [message Htr2]];
        [intros [_ ?]; congruence|].
      split.
      * rewrite Htr, <- app_assoc in Htr2. rewrite (events_since_app _ _ _ Htr2).
        unfold writes in *. by rewrite omap_app, Hw1.
      * exists message. rewrite Htr2. apply last_snoc.
Qed.

(** Two batches refused by the service, no failure file yet: the file is
    created, and holds the record of the first batch, then that of the
    second, each with the error of the service. *)
Lemma terminal_failures_are_appended_witness :
  disk (deliverAll always_500 false
          [[hashed "/media_1a2b.png"]; [hashed "/media_3c4d.png"]]
          (initial_world Missing)).2
  = Records [ {| timestamp := 0; error := "Media log API error: 500 - boom";
                 entries := [hashed "/media_1a2b.png"] |};
              {| timestamp := 0; error := "Media log API error: 500 - boom";
                 entries := [hashed "/media_3c4d.png"] |} ].
Proof.
  destruct (terminal_failures_are_appended always_500
              [[hashed "/media_1a2b.png"]; [hashed "/media_3c4d.png"]]
              (initial_world Missing))
    as ((_ & Hend) & _ & _ & Hstep).
  rewrite <- Hend.
  destruct (Hstep 1%nat [hashed "/media_3c4d.png"] eq_refl) as (_ & _ & Hcase).
  cbn zeta in Hcase.
  replace (sendMediaLogBatch always_500 [hashed "/media_3c4d.png"] false 3
             (after_batches always_500
                [[hashed "/media_1a2b.png"]; [hashed "/media_3c4d.png"]]
                (initial_world Missing) 1).2).2
    with (@Throw SendResult "Media log API error: 500 - boom") in Hcase
    by (by vm_compute).
  destruct Hcase as (_ & Hgood & _).
  destruct Hgood as [Hdisk _]; [by vm_compute|by vm_compute|].
  cbn [length] in *. rewrite Hdisk. by vm_compute.
Defined.

(** The failure file holds text that is not JSON: the batch fails for
    good, the error is counted, and nothing is written; the file is as it
    was. *)
Lemma terminal_failure_record_lost :
  let w := initial_world (Garbage "Unexpected end of JSON input") in
  let r := deliverAll always_500 false [[hashed "/media_1a2b.png"]] w in
  errors r.1 = 1%nat
  /\ disk r.2 = Garbage "Unexpected end of JSON input"
  /\ trace r.2 = [EPost 0 [hashed "/media_1a2b.png"];
                  EConsoleError "Unexpected end of JSON input"].
Proof. by vm_compute. Qed.

Example exhausted_retries :
  let w := initial_world (Records []) in
  let r := deliverAll always_429 false [[hashed "/media_1a2b.png"]] w in
  posts r.2 = 4%nat
  /\ sleeps (trace r.2) = [1000; 2000; 4000]
  /\ disk r.2
     = Records [{| timestamp := 7000;
                   error := "Media log API error: 429 - slow down";
                   entries := [hashed "/media_1a2b.png"] |}].
Proof. by vm_compute. Qed.
(** ** The user index *)

Lemma recordEvent_qualifying userMap e :
  recordEvent userMap e
  = match qualifying e with
    | Some (p, u) =>
        match userMap !! p with
        | Some _ => userMap
        | None => <[ p := u ]> userMap
        end
    | None => userMap
    end.
Proof.
  unfold recordEvent, qualifying.
  destruct (ev_route e), (ev_path e), (ev_user e); try done.
  by destruct (_ && _ && _).
Qed.

Lemma index_events_lookup events userMap p :
  index_events events userMap !! p
  = match userMap !! p with
    | Some u => Some u
    | None => index_events events ∅ !! p
    end.
Proof.
  revert userMap; induction events as [|e events IH]; intros userMap.
  - simpl. rewrite lookup_empty. by destruct (userMap !! p).
  - unfold index_events in *. simpl. rewrite IH, (IH (recordEvent ∅ e)).
    rewrite !recordEvent_qualifying.
    destruct (qualifying e) as [[p' u']|]; [|by rewrite lookup_empty].
    rewrite lookup_empty.
    destruct (userMap !! p') eqn:Hp'.
    + destruct (decide (p' = p)) as [->|Hne].
      * by rewrite Hp'.
      * rewrite lookup_insert_ne by done. by rewrite lookup_empty.
    + destruct (decide (p' = p)) as [->|Hne].
      * by rewrite !lookup_insert_eq, Hp'.
      * by rewrite !lookup_insert_ne, lookup_empty by done.
Qed.

(** First occurrence per path wins. *)
Lemma index_events_first events p u :
  index_events events ∅ !! p = Some u <->
  exists i e, events !! i = Some e /\ qualifying e = Some (p, u)
    /\ forall j e', (j < i)%nat -> events !! j = Some e' ->
         forall u', qualifying e' <> Some (p, u').
Proof.
  induction events as [|e events IH].
  - simpl. rewrite lookup_empty. split; [done|]. by intros (i & e & ? & _).
  - unfold index_events in *. simpl. fold (index_events events (recordEvent ∅ e)).
    rewrite index_events_lookup, recordEvent_qualifying.
    destruct (qualifying e) as [[p' u']|] eqn:Hq.
    + rewrite lookup_empty. destruct (decide (p' = p)) as [->|Hne].
      * rewrite lookup_insert_eq. split.
        -- intros [= ->]. exists 0%nat, e. split; [done|]. split; [done|]. intros; lia.
        -- intros ([|i] & e0 & Hi & Hq0 & Hfirst); simpl in Hi.
           ++ injection Hi as <-. congruence.
           ++ by destruct (Hfirst 0%nat e ltac:(lia) eq_refl u').
      * rewrite lookup_insert_ne, lookup_empty by done.
        unfold index_events. rewrite IH. split.
        -- intros (i & e0 & Hi & Hq0 & Hfirst). exists (S i), e0.
           split; [done|]. split; [done|].
           intros [|j] e' Hj He' u0; simpl in He'.
           ++ injection He' as <-. congruence.
           ++ apply (Hfirst j); [lia|done].
        -- intros ([|i] & e0 & Hi & Hq0 & Hfirst); simpl in Hi.
           ++ injection Hi as <-. congruence.
           ++ exists i, e0. split; [done|]. split; [done|].
              intros j e' Hj He'. apply (Hfirst (S j)); [lia|done].
    + rewrite lookup_empty. unfold index_events. rewrite IH. split.
      * intros (i & e0 & Hi & Hq0 & Hfirst). exists (S i), e0.
        split; [done|]. split; [done|].
        intros [|j] e' Hj He' u0; simpl in He'.
        -- injection He' as <-. congruence.
        -- apply (Hfirst j); [lia|done].
      * intros ([|i] & e0 & Hi & Hq0 & Hfirst); simpl in Hi.
        -- injection Hi as <-. congruence.
        -- exists i, e0. split; [done|]. split; [done|].
           intros j e' Hj He'. apply (Hfirst (S j)); [lia|done].
Qed.

Lemma processEntries_all events userMap :
  processEntries (Some <$> events) userMap = (index_events events userMap, Return tt).
Proof.
  revert userMap; induction events as [|e events IH]; intros userMap; [done|].
  simpl. by rewrite IH.
Qed.

Lemma no_null events : existsb is_null (Some <$> events) = false.
Proof. by induction events. Qed.

Lemma last_nonempty {A} (x : A) (l : list A) (a b : A) :
  List.last (x :: l) a = List.last (x :: l) b.
Proof. revert x; induction l as [|y l IH]; intros x; [done|]. apply (IH y). Qed.

(** Through pages that link on, the loop only folds the events. *)
Lemma fetchPages_follows logapi verbose pages :
  forall n url userMap fuel,
    follows logapi n url pages ->
    fetchPages logapi verbose (length pages + fuel) url n userMap
    = fetchPages logapi verbose fuel (end_url url pages) (n + length pages)
        (index_events (concat pages.*1) userMap).
Proof.
  induction pages as [|[events nextUrl] rest IH]; intros n url userMap fuel Hf.
  - simpl. by rewrite Nat.add_0_r.
  - destruct Hf as [(status & text & entries & Hout & Hok & Hnext & Hentries) Hf].
    cbn [length Nat.add fetchPages]. rewrite Hout, Hok. cbn [negb].
    rewrite Hentries, no_null, andb_false_r, processEntries_all, Hnext.
    rewrite (IH _ _ _ _ Hf). unfold end_url, index_events. simpl.
    rewrite foldl_app.
    replace (n + S (length rest))%nat with (S (n + length rest)) by lia.
    f_equal. destruct rest as [|[ev1 u1] rest]; [done|].
    apply last_nonempty.
Qed.

Lemma qualifying_spec e p u :
  qualifying e = Some (p, u) <->
  ev_route e = Some "preview" /\ ev_path e = Some p /\ ev_user e = Some u
  /\ p <> EmptyString /\ u <> EmptyString.
Proof.
  unfold qualifying.
  destruct (ev_route e) as [route|], (ev_path e) as [p'|], (ev_user e) as [u'|];
    try (split; [done|by intros (? & ? & ? & _)]).
  destruct (String.eqb_spec route "preview") as [->|Hne]; simpl.
  - destruct p' as [|c p'], u' as [|c' u']; simpl;
      (split; [intros [= <- <-]; by repeat split
              | intros (_ & [= <-] & [= <-] & ? & ?); done]).
  - split; [done|]. intros ([= ->] & _). done.
Qed.

Lemma fetchPages_failed logapi verbose fuel url n userMap :
  failed_request (logapi n url) ->
  exists c, fetchPages logapi verbose (S fuel) url n userMap = Some (userMap, c).
Proof.
  intros Hfail. cbn [fetchPages].
  destruct (logapi n url) as [e|status text body]; [by eexists|].
  destruct body as [e|entries next]; simpl in Hfail.
  - destruct (response_ok status); simpl; [by eexists|].
    destruct verbose, text; by eexists.
  - rewrite Hfail. simpl. destruct verbose, text; by eexists.
Qed.

(** C4. [buildPreviewUserMap] never raises: whenever it returns, it
    returns a map.  When the service answers some requests with pages that
    link on and then fails (the request is rejected, the body cannot be
    read, or the response is not a success, 403 included), the function
    returns, with the index of the events of the pages read so far.  An
    event changes the index only when its route is preview, its path and
    its user are present and the path is not yet in the index; so the index
    holds, for each path, the user of the first such event. *)
Theorem buildPreviewUserMap_partial_index
    (logapi : nat -> string -> LogOutcome) (verbose : bool)
    (org repo ref : string) :
  (forall fuel r,
     buildPreviewUserMap logapi verbose fuel org repo ref = Some r ->
     exists userMap, r = Return userMap)
  /\ (forall pages fuel,
        follows logapi 0 (first_log_url org repo ref) pages ->
        failed_request
          (logapi (length pages) (end_url (first_log_url org repo ref) pages)) ->
        (length pages < fuel)%nat ->
        buildPreviewUserMap logapi verbose fuel org repo ref
        = Some (Return (index_events (concat pages.*1) ∅)))
  /\ (forall userMap e,
        recordEvent userMap e <> userMap ->
        exists p u,
          ev_route e = Some "preview" /\ ev_path e = Some p /\ ev_user e = Some u
          /\ p <> EmptyString /\ u <> EmptyString
          /\ userMap !! p = None
          /\ recordEvent userMap e = <[ p := u ]> userMap)
  /\ (forall events p u,
        index_events events ∅ !! p = Some u <->
        exists i e, events !! i = Some e /\ qualifying e = Some (p, u)
          /\ forall j e', (j < i)%nat -> events !! j = Some e' ->
               forall u', qualifying e' <> Some (p, u')).
Proof.
  split; [|split; [|split]].
  - intros fuel r. unfold buildPreviewUserMap.
    destruct (fetchPages _ _ _ _ _ _) as [[userMap [[]|e]]|]; [| |done];
      intros [= <-]; by eexists.
  - intros pages fuel Hfollows Hfail Hfuel.
    unfold buildPreviewUserMap. fold (first_log_url org repo ref).
    replace fuel with (length pages + S (fuel - S (length pages)))%nat by lia.
    rewrite (fetchPages_follows _ _ _ _ _ _ _ Hfollows).
    destruct (fetchPages_failed logapi verbose (fuel - S (length pages))
                (end_url (first_log_url org repo ref) pages) (0 + length pages)
                (index_events (concat pages.*1) ∅) Hfail) as [c ->].
    by destruct c.
  - intros userMap e Hchange. rewrite recordEvent_qualifying in *.
    destruct (qualifying e) as [[p u]|] eqn:Hq; [|done].
    apply qualifying_spec in Hq as (? & ? & ? & ? & ?).
    exists p, u. destruct (userMap !! p); [done|]. by repeat split.
  - apply index_events_first.
Qed.

(** Two pages are read, then the service answers 403: the index of the
    two pages is returned, with the first user seen for each path. *)
Lemma buildPreviewUserMap_partial_index_witness :
  buildPreviewUserMap two_pages_then_403 true 10 "org" "site" "main"
  = Some (Return (index_events (concat two_pages.*1) ∅))
  /\ index_events (concat two_pages.*1) ∅
     = {[ "/a" := "ann"; "/b" := "bob"; "/c" := "cy" ]}.
Proof.
  destruct (buildPreviewUserMap_partial_index two_pages_then_403 true
              "org" "site" "main") as (_ & Hpartial & _).
  split.
  - apply Hpartial.
    + repeat split; by eexists _, _, _.
    + done.
    + simpl. lia.
  - by vm_compute.
Defined.

(** A page without a link ends the pagination, with everything read. *)
Lemma buildPreviewUserMap_complete logapi verbose org repo ref
    pages status text events next fuel :
  follows logapi 0 (first_log_url org repo ref) pages ->
  logapi (length pages) (end_url (first_log_url org repo ref) pages)
  = LogResponse status text (BodyData (Some (Some <$> events)) next) ->
  response_ok status = true -> otruthy next = false ->
  (length pages < fuel)%nat ->
  buildPreviewUserMap logapi verbose fuel org repo ref
  = Some (Return (index_events (concat pages.*1 ++ events) ∅)).
Proof.
  intros Hfollows Hlast Hok Hnext Hfuel.
  unfold buildPreviewUserMap. fold (first_log_url org repo ref).
  replace fuel with (length pages + S (fuel - S (length pages)))%nat by lia.
  rewrite (fetchPages_follows _ _ _ _ _ _ _ Hfollows).
  cbn [fetchPages Nat.add]. rewrite Hlast, Hok.
  change (default [] (Some (Some <$> events))) with (Some <$> events).
  cbn [negb].
  rewrite no_null, andb_false_r, processEntries_all.
  unfold index_events. rewrite foldl_app.
  destruct next as [nextUrl|]; [|done]. simpl in Hnext. by rewrite Hnext.
Qed.

(** The index a run builds has no empty user. *)
Lemma buildPreviewUserMap_wf logapi verbose fuel org repo ref userMap :
  buildPreviewUserMap logapi verbose fuel org repo ref = Some (Return userMap) ->
  index_wf userMap.
Proof.
  assert (forall m e, index_wf m -> index_wf (recordEvent m e)) as Hstep.
  { intros m e Hm. rewrite recordEvent_qualifying.
    destruct (qualifying e) as [[p u]|] eqn:Hq; [|done].
    destruct (m !! p) eqn:Hp; [done|].
    apply qualifying_spec in Hq as (_ & _ & _ & _ & Hu).
    intros p' u' [[-> <-]|[_ H]]%lookup_insert_Some; [done|by apply (Hm p')]. }
  assert (forall items m, index_wf m -> index_wf (processEntries items m).1)
    as Hpage.
  { induction items as [|[e|] items IH]; intros m Hm; simpl; auto. }
  assert (forall fuel url n m r, index_wf m ->
            fetchPages logapi verbose fuel url n m = Some r -> index_wf r.1)
    as Hloop.
  { clear fuel. induction fuel as [|fuel IH]; intros url n m r Hm; [done|].
    cbn [fetchPages].
    destruct (logapi n url) as [e|status text body]; [by intros [= <-]|].
    destruct (negb (response_ok status)).
    { destruct verbose, text; by intros [= <-]. }
    destruct body as [e|entries next]; [by intros [= <-]|].
    destruct (_ && _ && _); [by intros [= <-]|].
    pose proof (Hpage (default [] entries) m Hm) as Hm'.
    destruct (processEntries (default [] entries) m) as [m' [[]|e]];
      simpl in Hm'; [|by intros [= <-]].
    destruct next as [nextUrl|]; [|by intros [= <-]].
    destruct (truthy nextUrl); [by apply IH|by intros [= <-]]. }
  unfold buildPreviewUserMap.
  destruct (fetchPages _ _ _ _ _ _) as [[m c]|] eqn:E; [|done].
  apply Hloop in E; [|done]. simpl in E.
  destruct c; by intros [= <-].
Qed.

(** * Further properties of the code *)

(** ** More on strings *)

Lemma str_drop_add (n m : nat) (s : string) :
  str_drop (n + m) s = str_drop m (str_drop n s).
Proof.
  revert s; induction n as [|n IH]; intros s; [done|].
  destruct s as [|c s]; simpl; [by destruct m|apply IH].
Qed.

Lemma str_drop_all (s : string) : str_drop (String.length s) s = EmptyString.
Proof. induction s; simpl; auto. Qed.

Lemma endsWith_spec (s suffix : string) :
  endsWith s suffix = true <-> exists pre, s = pre +:+ suffix.
Proof.
  unfold endsWith. rewrite andb_true_iff, Nat.leb_le, String.eqb_eq. split.
  - intros [Hle Hdrop].
    exists (str_take (String.length s - String.length suffix) s).
    by rewrite <- Hdrop at 2; rewrite str_take_drop.
  - intros [pre ->]. rewrite str_app_length. split; [lia|].
    replace (String.length pre + String.length suffix - String.length suffix)%nat
      with (String.length pre) by lia.
    apply str_drop_app.
Qed.

(** Two suffixes of one string: the shorter is a suffix of the longer. *)
Lemma endsWith_both (s a b : string) :
  endsWith s a = true -> endsWith s b = true ->
  (String.length a <= String.length b)%nat -> endsWith b a = true.
Proof.
  rewrite !endsWith_spec. intros [p1 H1] [p2 H2] Hab.
  exists (str_take (String.length p1 - String.length p2) b).
  assert (a = str_drop (String.length p1 - String.length p2) b) as ->;
    [|by rewrite str_take_drop].
  assert (String.length p1 + String.length a
          = String.length p2 + String.length b)%nat as Hlen
    by (rewrite <- !str_app_length; congruence).
  rewrite <- (str_drop_app p1 a), <- H1, H2.
  replace (String.length p1)
    with (String.length p2 + (String.length p1 - String.length p2))%nat at 1 by lia.
  by rewrite str_drop_add, str_drop_app.
Qed.

Lemma lower_char_idem (c : ascii) : lower_char (lower_char c) = lower_char c.
Proof. destruct c as [[] [] [] [] [] [] [] []]; reflexivity. Qed.

Lemma toLowerCase_idem (s : string) : toLowerCase (toLowerCase s) = toLowerCase s.
Proof. induction s as [|c s IH]; simpl; [done|]. by rewrite lower_char_idem, IH. Qed.


(** ** discovery.js *)

Lemma media_ignore_disjoint :
  forallb (fun m => forallb (fun i => negb (endsWith m i) && negb (endsWith i m))
                      IGNORE_EXTENSIONS) MEDIA_EXTENSIONS = true.
Proof. by vm_compute. Qed.

(** X1. A resource that [isMediaFile] accepts is never dropped by
    [shouldProcessResource]: no path ends both in a media extension and in
    an ignored one. *)
Theorem media_files_are_processed (resource : Resource) :
  isMediaFile (resource_path resource) = true ->
  shouldProcessResource resource = true.
Proof.
  unfold isMediaFile, shouldProcessResource.
  destruct (otruthy (resource_path resource)); [|done].
  set (lowerPath := toLowerCase (default EmptyString (resource_path resource))).
  intros Hmedia. apply existsb_exists in Hmedia as (m & Hm & Hend).
  destruct (existsb _ IGNORE_EXTENSIONS) eqn:Hignore; [|done].
  apply existsb_exists in Hignore as (i & Hi & Hend').
  pose proof media_ignore_disjoint as Hdisj.
  rewrite forallb_forall in Hdisj. specialize (Hdisj m Hm).
  rewrite forallb_forall in Hdisj. specialize (Hdisj i Hi).
  apply andb_prop in Hdisj as [H1 H2].
  destruct (Nat.le_ge_cases (String.length i) (String.length m)) as [Hle|Hle].
  - by rewrite (endsWith_both _ _ _ Hend' Hend Hle) in H1.
  - by rewrite (endsWith_both _ _ _ Hend Hend' Hle) in H2.
Qed.

Lemma media_files_are_processed_witness :
  shouldProcessResource {| resource_path := Some "/img/Logo.PNG" |} = true.
Proof. apply media_files_are_processed. by vm_compute. Defined.

Lemma endsWith_app (s t : string) : endsWith (s +:+ t) t = true.
Proof. apply endsWith_spec. by exists s. Qed.

Lemma startsWith_refl_app (s t : string) : startsWith (s +:+ t) s = true.
Proof. apply startsWith_app. by exists t. Qed.

Lemma str_app_nil_r (s : string) : s +:+ "" = s.
Proof. induction s as [|c s IH]; [done|]. by rewrite str_app_cons, IH. Qed.

(** X2. The path [fetchMarkdown] asks for always ends in [.md] and begins
    with the path of the resource: the path itself when it ends in [.md],
    the [index.md] of a path that ends in a slash, the path with [.md]
    otherwise; so asking for a page and asking for the markdown file
    of that page are the same request. *)
Theorem fetchPath_is_markdown (resourcePath : string) :
  endsWith (fetchPath resourcePath) ".md" = true
  /\ startsWith (fetchPath resourcePath) resourcePath = true
  /\ (forall preview org site ref,
        fetchMarkdown preview org site ref (fetchPath resourcePath)
        = fetchMarkdown preview org site ref resourcePath)
  /\ (fetchPath resourcePath = resourcePath
      \/ fetchPath resourcePath = resourcePath +:+ "index.md"
         /\ endsWith resourcePath "/" = true
      \/ fetchPath resourcePath = resourcePath +:+ ".md"
         /\ endsWith resourcePath "/" = false).
Proof.
  assert (endsWith (fetchPath resourcePath) ".md" = true) as Hmd.
  { unfold fetchPath. destruct (endsWith resourcePath ".md") eqn:E; [done|].
    destruct (endsWith resourcePath "/").
    - apply endsWith_spec. exists (resourcePath +:+ "index").
      by rewrite str_app_assoc.
    - apply endsWith_app. }
  split; [done|]. split; [|split].
  - unfold fetchPath. destruct (endsWith resourcePath ".md").
    + rewrite <- (str_app_nil_r resourcePath) at 1. apply startsWith_refl_app.
    + destruct (endsWith resourcePath "/"); apply startsWith_refl_app.
  - intros preview org site ref. unfold fetchMarkdown.
    assert (fetchPath (fetchPath resourcePath) = fetchPath resourcePath) as ->;
      [|done].
    unfold fetchPath at 1. by rewrite Hmd.
  - unfold fetchPath. destruct (endsWith resourcePath ".md"); [by left|].
    destruct (endsWith resourcePath "/"); right; [by left|by right].
Qed.

(** ** parser.js: content type and dimensions *)

Lemma find_first {A} (f : A -> bool) (l : list A) (i : nat) (x : A) :
  l !! i = Some x -> f x = true ->
  (forall j y, (j < i)%nat -> l !! j = Some y -> f y = false) ->
  List.find f l = Some x.
Proof.
  revert i; induction l as [|a l IH]; intros i Hi Hx Hbefore; [done|].
  destruct i as [|i]; simpl in *.
  - injection Hi as ->. by rewrite Hx.
  - rewrite (Hbefore 0%nat a) by (done || lia).
    apply (IH i); [done|done|]. intros j y Hj Hy.
    apply (Hbefore (S j)); [lia|done].
Qed.

(** X3. [getContentType] gives [null] exactly when none of the twelve
    extensions of its table occurs in the lowercased url; a type it gives
    is the table's type for an extension that occurs there; the case of
    the url does not matter; and the first extension of the table that
    occurs anywhere in the url decides, whatever the url ends in. *)
Theorem getContentType_by_extension (url : string) :
  (getContentType url = None <->
     forall ext t, (ext, t) ∈ CONTENT_TYPE_MAP -> ~ occurs_in ext (toLowerCase url))
  /\ (forall t, getContentType url = Some t ->
        exists ext, (ext, t) ∈ CONTENT_TYPE_MAP /\ occurs_in ext (toLowerCase url))
  /\ getContentType (toLowerCase url) = getContentType url
  /\ (forall i ext t,
        CONTENT_TYPE_MAP !! i = Some (ext, t) ->
        occurs_in ext (toLowerCase url) ->
        (forall j e, (j < i)%nat -> CONTENT_TYPE_MAP !! j = Some e ->
                     ~ occurs_in e.1 (toLowerCase url)) ->
        getContentType url = Some t).
Proof.
  split; [|split; [|split]].
  - unfold getContentType.
    destruct (List.find _ _) as [e|] eqn:E.
    + split; [done|]. intros Hnone. apply find_some in E as [Hin Hocc].
      destruct e as [ext t]. apply list_elem_of_In in Hin.
      destruct (Hnone ext t Hin). by apply includes_spec.
    + split; [|done]. intros _ ext t Hin Hocc.
      apply list_elem_of_In in Hin.
      pose proof (find_none _ _ E _ Hin) as Hno. simpl in Hno.
      apply includes_spec in Hocc. congruence.
  - intros t. unfold getContentType.
    destruct (List.find _ _) as [[ext t']|] eqn:E; [|done].
    intros [= <-]. apply find_some in E as [Hin Hocc]. exists ext.
    split; [by apply list_elem_of_In|by apply includes_spec].
  - unfold getContentType. by rewrite toLowerCase_idem.
  - intros i ext t Hi Hocc Hbefore. unfold getContentType.
    rewrite (find_first _ _ i (ext, t)); [done|done|by apply includes_spec|].
    intros j e Hj He. apply not_true_is_false. intros Hinc.
    by apply (Hbefore j e Hj He), includes_spec.
Qed.

(** A clip kept under a name that holds [.png]: the table's first match
    decides. *)
Lemma getContentType_by_extension_witness :
  getContentType "/shots/frame.png.MP4" = Some "image/png".
Proof.
  apply (proj2 (proj2 (proj2 (getContentType_by_extension "/shots/frame.png.MP4")))
           2%nat ".png" "image/png").
  - done.
  - by exists "/shots/frame", ".mp4".
  - intros j e Hj He. destruct j as [|[|j]]; [| |lia];
      injection He as <-; intros H%includes_spec; by vm_compute in H.
Defined.

Lemma dimensions_match_inv p s st :
  match_here false DIMENSIONS_REGEX 2 p s = Some st ->
  exists w h post, s = "#width=" +:+ w +:+ "&height=" +:+ h +:+ post
    /\ w <> EmptyString /\ str_forallb is_digit w = true
    /\ h <> EmptyString /\ str_forallb is_digit h = true
    /\ caps st = [None; Some w; Some h].
Proof.
  intros H. unfold match_here, DIMENSIONS_REGEX in H.
  cbn [rmatch rest prev caps] in H.
  destruct (startsWith s "#width=") eqn:E; [|done].
  apply startsWith_app in E as [t ->]. rewrite str_drop_app in H.
  destruct t as [|c t]; [done|].
  destruct (is_digit c) eqn:Hc; [|done].
  apply star_greedy_inv in H as (n & Hn & Hall & H).
  cbn [rest prev caps] in H.
  destruct (startsWith (str_drop n t) "&height=") eqn:E; [|done].
  apply startsWith_app in E as [t2 Ht2]. rewrite Ht2, str_drop_app in H.
  destruct t2 as [|c2 t2]; [done|].
  destruct (is_digit c2) eqn:Hc2; [|done].
  apply star_greedy_inv in H as (n2 & Hn2 & Hall2 & H).
  cbn [rest prev caps] in H. injection H as <-. cbn [caps].
  assert (String.length t - n = 9 + String.length t2)%nat as Hlen.
  { rewrite <- str_drop_length, Ht2, str_app_length. done. }
  rewrite str_drop_length.
  replace (String.length t - S (S (S (S (S (S (S (S (String.length t2)))))))))%nat
    with (S n) by lia.
  replace (S (String.length t2) - (String.length t2 - n2))%nat with (S n2) by lia.
  exists (String c (str_take n t)), (String c2 (str_take n2 t2)), (str_drop n2 t2).
  split.
  { f_equal. rewrite str_app_cons. f_equal.
    rewrite <- (str_take_drop n t) at 1. f_equal. rewrite Ht2. f_equal.
    rewrite str_app_cons. by rewrite str_take_drop. }
  split; [done|]. split; [simpl; by rewrite Hc|].
  split; [done|]. split; [simpl; by rewrite Hc2|done].
Qed.


Lemma star_greedy_total cls k p s cs :
  (forall st, is_Some (k st)) -> is_Some (star_greedy cls k p s cs).
Proof.
  intros Hk. revert p; induction s as [|c s IH]; intros p; simpl; [done|].
  destruct (cls c); [|done].
  destruct (star_greedy cls k (Some c) s cs); [by eexists|done].
Qed.

Lemma dimensions_match_here p w h post :
  w <> EmptyString -> str_forallb is_digit w = true ->
  h <> EmptyString -> str_forallb is_digit h = true ->
  is_Some (match_here false DIMENSIONS_REGEX 2 p
             ("#width=" +:+ w +:+ "&height=" +:+ h +:+ post)).
Proof.
  intros Hw Hwd Hh Hhd.
  destruct w as [|c w]; [done|]. destruct h as [|c2 h]; [done|].
  simpl in Hwd, Hhd.
  apply andb_prop in Hwd as [Hc Hwd]. apply andb_prop in Hhd as [Hc2 Hhd].
  unfold match_here, DIMENSIONS_REGEX. cbn [rmatch rest prev caps].
  assert (startsWith ("#width=" +:+ String c w +:+ "&height=" +:+ String c2 h +:+ post)
            "#width=" = true) as -> by (apply startsWith_app; eauto).
  rewrite str_drop_app, str_app_cons, Hc.
  set (k := fun st' : mstate => _).
  assert (exists res, k (MState (last_char (Some c) w)
                           ("&height=" +:+ String c2 h +:+ post)
                           (replicate 3 None)) = Some res) as [res Hres].
  { subst k. cbn [rest prev caps].
    assert (startsWith ("&height=" +:+ String c2 h +:+ post) "&height=" = true) as ->
      by (apply startsWith_app; eauto).
    rewrite str_drop_app, str_app_cons, Hc2.
    apply star_greedy_total. intros st. by eexists. }
  rewrite (star_greedy_run _ _ _ _ _ _ res Hwd); [by eexists|done|done].
Qed.

(** X4. [extractDimensions] finds the fragment [#width=W&height=H]: what it
    returns are two non-empty runs of digits that stand in the url in that
    form, and every url that holds such a fragment has dimensions. *)
Theorem extractDimensions_fragment (url : string) :
  (forall w h, extractDimensions url = Some (w, h) ->
     w <> EmptyString /\ str_forallb is_digit w = true
     /\ h <> EmptyString /\ str_forallb is_digit h = true
     /\ occurs_in ("#width=" +:+ w +:+ "&height=" +:+ h) url)
  /\ (forall pre w h post,
        url = pre +:+ "#width=" +:+ w +:+ "&height=" +:+ h +:+ post ->
        w <> EmptyString -> str_forallb is_digit w = true ->
        h <> EmptyString -> str_forallb is_digit h = true ->
        is_Some (extractDimensions url)).
Proof.
  split.
  - intros w h. unfold extractDimensions.
    destruct (search _ _ _ _ _) as [cs|] eqn:E; [|done].
    apply search_inv in E as (pre & s' & p' & st & -> & H & <-).
    apply dimensions_match_inv in H
      as (w' & h' & post & -> & Hw & Hwd & Hh & Hhd & ->).
    unfold group_str, group. simpl. intros [= <- <-].
    repeat (split; [done|]). exists pre, post.
    by rewrite !str_app_assoc.
  - intros pre w h post -> Hw Hwd Hh Hhd. unfold extractDimensions.
    assert (forall p, is_Some (search false DIMENSIONS_REGEX 2 p
              (pre +:+ "#width=" +:+ w +:+ "&height=" +:+ h +:+ post))) as Hs.
    { induction pre as [|c pre IH]; intros p.
      - rewrite str_app_nil.
        destruct (dimensions_match_here p w h post Hw Hwd Hh Hhd) as [st Hst].
        rewrite (search_here _ _ _ _ _ _ Hst). by eexists.
      - rewrite str_app_cons. simpl.
        destruct (match_here _ _ _ _ _); [by eexists|apply IH]. }
    destruct (Hs None) as [cs ->]. by eexists.
Qed.

Lemma extractDimensions_fragment_witness :
  is_Some (extractDimensions "/media_1a2b.png#width=800&height=600").
Proof.
  apply (proj2 (extractDimensions_fragment "/media_1a2b.png#width=800&height=600")
           "/media_1a2b.png" "800" "600" ""); done.
Defined.

(** ** discovery.js: polling *)


Lemma poll_sleeps_app e1 e2 : poll_sleeps (e1 ++ e2) = poll_sleeps e1 ++ poll_sleeps e2.
Proof. apply omap_app. Qed.

Lemma pollJobStatus_returns jobapi pollInterval hasCallback fuel :
  forall n events events' s,
    pollJobStatus jobapi fuel n pollInterval hasCallback events
    = Some (events', Return s) ->
    s = "completed" \/ s = "stopped".
Proof.
  induction fuel as [|fuel IH]; intros n events events' s; [done|].
  cbn [pollJobStatus].
  destruct (jobapi n) as [e|status [e|state progress]]; [done| |].
  - by destruct (negb (response_ok status)).
  - destruct (negb (response_ok status)); [done|].
    destruct (String.eqb_spec (default EmptyString state) "completed") as [Hc|Hc];
      simpl.
    + intros [= _ <-]. by left.
    + destruct (String.eqb_spec (default EmptyString state) "stopped") as [Hs|Hs];
        simpl.
      * intros [= _ <-]. by right.
      * apply IH.
Qed.

Lemma pollJobStatus_waits jobapi pollInterval hasCallback s :
  forall k n events fuel,
    (forall i, (i < k)%nat -> poll_pending (jobapi (n + i)%nat)) ->
    poll_done (jobapi (n + k)%nat) s ->
    (k < fuel)%nat ->
    exists events',
      pollJobStatus jobapi fuel n pollInterval hasCallback events
      = Some (events', Return s)
      /\ poll_sleeps events' = poll_sleeps events ++ replicate k pollInterval.
Proof.
  induction k as [|k IH]; intros n events fuel Hpending Hdone Hfuel;
    (destruct fuel as [|fuel]; [lia|]); cbn [pollJobStatus].
  - rewrite Nat.add_0_r in Hdone.
    destruct Hdone as (status & progress & -> & -> & Hs). cbn [negb default].
    eexists. split.
    + destruct Hs as [-> | ->]; reflexivity.
    + rewrite app_nil_r. destruct hasCallback, progress; try done.
      by rewrite poll_sleeps_app, app_nil_r.
  - destruct (Hpending 0%nat ltac:(lia))
      as (status & state & progress & Hout & Hok & Hc & Hs).
    rewrite Nat.add_0_r in Hout. rewrite Hout, Hok. cbn [negb].
    apply String.eqb_neq in Hc, Hs. rewrite Hc, Hs. cbn [negb andb].
    edestruct (IH (S n)) as (events' & -> & Hsl); [| |by apply Nat.succ_lt_mono|].
    + intros i Hi. replace (S n + i)%nat with (n + S i)%nat by lia.
      apply Hpending. lia.
    + by replace (S n + k)%nat with (n + S k)%nat by lia.
    + eexists. split; [done|]. rewrite Hsl, poll_sleeps_app. simpl.
      rewrite <- app_assoc. simpl.
      destruct hasCallback, progress; try done.
      by rewrite poll_sleeps_app, app_nil_r.
Qed.

Lemma pollJobStatus_forever jobapi pollInterval hasCallback fuel :
  (forall i, poll_pending (jobapi i)) ->
  forall n events,
    pollJobStatus jobapi fuel n pollInterval hasCallback events = None.
Proof.
  intros Hpending. induction fuel as [|fuel IH]; intros n events; [done|].
  cbn [pollJobStatus].
  destruct (Hpending n) as (status & state & progress & -> & -> & Hc & Hs).
  apply String.eqb_neq in Hc, Hs. rewrite Hc, Hs. apply IH.
Qed.

(** X5. [pollJobStatus] returns only the states completed and stopped.
    When the first [k] polls report another state and the next one a
    terminal state, the function returns that state after exactly [k] waits
    of the polling interval; a job that never reaches a terminal state is
    polled without end. *)
Theorem pollJobStatus_until_terminal (jobapi : nat -> PollOutcome)
    (pollInterval : Z) (hasCallback : bool) :
  (forall fuel events s,
     pollJobStatus jobapi fuel 0 pollInterval hasCallback [] = Some (events, Return s) ->
     s = "completed" \/ s = "stopped")
  /\ (forall k fuel s,
        (forall i, (i < k)%nat -> poll_pending (jobapi i)) ->
        poll_done (jobapi k) s -> (k < fuel)%nat ->
        exists events,
          pollJobStatus jobapi fuel 0 pollInterval hasCallback []
          = Some (events, Return s)
          /\ poll_sleeps events = replicate k pollInterval)
  /\ ((forall i, poll_pending (jobapi i)) ->
      forall fuel, pollJobStatus jobapi fuel 0 pollInterval hasCallback [] = None).
Proof.
  split; [|split].
  - intros fuel events s. apply pollJobStatus_returns.
  - intros k fuel s Hpending Hdone Hfuel.
    by apply (pollJobStatus_waits jobapi pollInterval hasCallback s k 0 [] fuel).
  - intros Hpending fuel. by apply pollJobStatus_forever.
Qed.

Lemma pollJobStatus_until_terminal_witness :
  exists events,
    pollJobStatus job_done_at_2 5 0 10000 true [] = Some (events, Return "stopped")
    /\ poll_sleeps events = [10000; 10000].
Proof.
  destruct (pollJobStatus_until_terminal job_done_at_2 10000 true) as (_ & Hwait & _).
  apply (Hwait 2%nat 5%nat "stopped").
  - intros [|[|i]] Hi; [| |lia]; eexists _, _, _; by repeat split.
  - eexists _, _. repeat split. by right.
  - lia.
Defined.


(** ** Delivery, whole runs *)

(** X6. A dry run touches nothing: no request, no wait, no write; every
    batch is counted as sent. *)
Theorem dry_run_leaves_the_world (medialog : nat -> list MediaEntry -> FetchOutcome)
    (batches : list (list MediaEntry)) (w : World) :
  deliverAll medialog true batches w
  = ({| batchesSent := length batches; errors := 0 |}, w).
Proof.
  unfold deliverAll.
  assert (forall total index stats,
            deliver medialog true total index batches stats w
            = ({| batchesSent := batchesSent stats + length batches;
                  errors := errors stats |}, w)) as Hloop.
  { induction batches as [|batch rest IH]; intros total index stats.
    - simpl. rewrite Nat.add_0_r. by destruct stats.
    - cbn [deliver sendMediaLogBatch]. rewrite andb_false_r.
      rewrite IH. cbn [batchesSent errors length]. do 2 f_equal. lia. }
  by rewrite Hloop.
Qed.

Lemma accepted_trace_posts batches : first_posts (accepted_trace batches) = batches.
Proof.
  induction batches as [|batch [|b rest] IH]; [done|done|].
  change (accepted_trace (batch :: b :: rest))
    with (EPost 0 batch :: ESleep 100 :: accepted_trace (b :: rest)).
  remember (accepted_trace (b :: rest)) as tail.
  change (first_posts (EPost 0 batch :: ESleep 100 :: tail))
    with (batch :: first_posts tail).
  by rewrite IH.
Qed.

Lemma accepted_trace_sleeps batches :
  sleeps (accepted_trace batches) = replicate (length batches - 1) 100.
Proof.
  induction batches as [|batch [|b rest] IH]; [done|done|].
  change (accepted_trace (batch :: b :: rest))
    with (EPost 0 batch :: ESleep 100 :: accepted_trace (b :: rest)).
  remember (accepted_trace (b :: rest)) as tail.
  change (sleeps (EPost 0 batch :: ESleep 100 :: tail)) with (100 :: sleeps tail).
  rewrite IH. simpl. by rewrite Nat.sub_0_r.
Qed.

(** X7. When the service accepts every request, a run sends each batch
    once, in order, pauses 100 ms between two batches and not after the
    last, counts no error and leaves the failure file alone. *)
Theorem accepted_run (medialog : nat -> list MediaEntry -> FetchOutcome)
    (batches : list (list MediaEntry)) (w : World) :
  always_accepts medialog ->
  let r := deliverAll medialog false batches w in
  r.1 = {| batchesSent := length batches; errors := 0 |}
  /\ trace r.2 = trace w ++ accepted_trace batches
  /\ posts r.2 = (posts w + length batches)%nat
  /\ now r.2 = now w + 100 * Z.of_nat (length batches - 1)
  /\ disk r.2 = disk w.
Proof.
  intros Hok. unfold deliverAll.
  assert (forall total index stats w,
            (index + length batches = total)%nat ->
            let r := deliver medialog false total index batches stats w in
            r.1 = {| batchesSent := batchesSent stats + length batches;
                     errors := errors stats |}
            /\ trace r.2 = trace w ++ accepted_trace batches
            /\ posts r.2 = (posts w + length batches)%nat
            /\ now r.2 = now w + 100 * Z.of_nat (length batches - 1)
            /\ disk r.2 = disk w) as Hloop.
  { clear w. induction batches as [|batch rest IH]; intros total index stats w Htotal.
    - simpl. rewrite Nat.add_0_r, app_nil_r, Z.add_0_r. by destruct stats.
    - cbn zeta. cbn [deliver sendMediaLogBatch sendLoop].
      destruct (Hok (posts w) batch) as (status & text & -> & ->).
      cbn [negb andb]. simpl length in Htotal.
      destruct rest as [|b rest].
      + assert ((index <? total - 1)%nat = false) as ->
          by (apply Nat.ltb_ge; simpl in Htotal; lia).
        simpl. rewrite Nat.add_1_r, Z.add_0_r. repeat split; lia.
      + assert ((index <? total - 1)%nat = true) as ->
          by (apply Nat.ltb_lt; simpl in Htotal; lia).
        destruct (IH total (S index)
                    {| batchesSent := S (batchesSent stats); errors := errors stats |}
                    (sleep 100 (post 0 batch w)))
          as (Hs & Htr & Hp & Hn & Hd); [simpl in *; lia|].
        cbn [andb]. rewrite Hs, Htr, Hp, Hn, Hd.
        change (accepted_trace (batch :: b :: rest))
          with (EPost 0 batch :: ESleep 100 :: accepted_trace (b :: rest)).
        cbn [batchesSent errors sleep post trace posts now disk].
        split; [f_equal; simpl; lia|]. split; [by rewrite <- !app_assoc|].
        split; [simpl; lia|]. split; [simpl length; lia|done]. }
  cbn zeta.
  destruct (Hloop (length batches) 0%nat {| batchesSent := 0; errors := 0 |} w)
    as (Hs & Htr & Hp & Hn & Hd); [done|].
  by rewrite Hs, Htr, Hp, Hn, Hd.
Qed.

Lemma accepted_run_witness :
  sleeps (trace (deliverAll always_200 false
                   [[hashed "/media_1a.png"]; [hashed "/media_2b.png"];
                    [hashed "/media_3c.png"]] (initial_world Missing)).2)
  = [100; 100].
Proof.
  destruct (accepted_run always_200
              [[hashed "/media_1a.png"]; [hashed "/media_2b.png"];
               [hashed "/media_3c.png"]] (initial_world Missing))
    as (_ & -> & _).
  - intros n batch. by exists 200, "ok".
  - done.
Defined.

(** The requests and the waits of one submission. *)
Lemma sendLoop_clock medialog batch :
  forall remaining attempt w,
    (attempt + remaining = 4)%nat -> (1 <= remaining)%nat ->
    let r := sendLoop medialog remaining attempt 3 batch w in
    (posts w + 1 <= posts r.1 <= posts w + remaining)%nat
    /\ now w <= now r.1 <= now w + 1000 * (8 - 2 ^ Z.of_nat attempt).
Proof.
  induction remaining as [|remaining IH]; intros attempt w Hsum Hrem; [lia|].
  assert (0 < 2 ^ Z.of_nat attempt <= 8) as Hpow.
  { split; [by apply Z.pow_pos_nonneg; lia|].
    change 8 with (2 ^ Z.of_nat 3). apply Z.pow_le_mono_r; lia. }
  cbn zeta. cbn [sendLoop].
  destruct (medialog (posts w) batch) as [e|status text]; [simpl; lia|].
  destruct (response_ok status); [simpl; lia|].
  destruct (is_rate_limit status); cbn [andb]; [|simpl; lia].
  destruct (Nat.ltb_spec attempt 3) as [Hlt|Hge]; [|simpl; lia].
  destruct (IH (S attempt) (sleep (2 ^ Z.of_nat attempt * 1000) (post attempt batch w)))
    as (Hp & Hn); [lia..|].
  cbn [sleep post posts now] in Hp, Hn.
  replace (Z.of_nat (S attempt)) with (Z.succ (Z.of_nat attempt)) in Hn by lia.
  rewrite Z.pow_succ_r in Hn by lia. split; lia.
Qed.

(** X8. Whatever the service answers, a run makes at least one and at most
    four requests for each batch, and the time it spends waiting, backoff
    and pauses together, is at most 7.1 s for each batch. *)
Theorem run_requests_and_waits (medialog : nat -> list MediaEntry -> FetchOutcome)
    (batches : list (list MediaEntry)) (w : World) :
  let r := deliverAll medialog false batches w in
  (posts w + length batches <= posts r.2 <= posts w + 4 * length batches)%nat
  /\ now w <= now r.2 <= now w + 7100 * Z.of_nat (length batches).
Proof.
  cbn zeta. unfold deliverAll.
  assert (forall w stats index total,
            let r := deliver medialog false total index batches stats w in
            (posts w + length batches <= posts r.2 <= posts w + 4 * length batches)%nat
            /\ now w <= now r.2 <= now w + 7100 * Z.of_nat (length batches)) as Hloop;
    [|apply Hloop].
  clear w. induction batches as [|batch rest IH]; intros w stats index total.
  - simpl. lia.
  - cbn [deliver sendMediaLogBatch].
    destruct (sendLoop_clock medialog batch 4 0 w) as (Hp & Hn); [lia..|].
    destruct (sendLoop medialog 4 0 3 batch w) as [w1 [res|e]];
      cbn [fst snd] in Hp, Hn.
    + match goal with |- context [deliver _ _ _ _ _ ?s ?w2] =>
        pose proof (IH w2 s (S index) total) as [Hp3 Hn3];
        assert (posts w2 = posts w1 /\ now w1 <= now w2 <= now w1 + 100) as [Hp2 Hn2];
        [by destruct (_ && _); simpl; lia|];
        cbn zeta in Hp3, Hn3; revert Hp2 Hn2 Hp3 Hn3;
        generalize (deliver medialog false total (S index) rest s w2);
        generalize w2
      end.
      intros w2 r Hp2 Hn2 Hp3 Hn3. simpl length. simpl in Hn. lia.
    + destruct (saveFailedBatch_effects batch e w1) as (Hp2 & _ & Hn2 & _).
      pose proof (IH (saveFailedBatch batch e w1)
                    {| batchesSent := batchesSent stats; errors := S (errors stats) |}
                    (S index) total) as [Hp3 Hn3].
      cbn zeta in Hp2, Hn2, Hp3, Hn3. revert Hp2 Hn2 Hp3 Hn3.
      generalize (deliver medialog false total (S index) rest
                    {| batchesSent := batchesSent stats; errors := S (errors stats) |}
                    (saveFailedBatch batch e w1)).
      generalize (saveFailedBatch batch e w1).
      intros w2 r Hp2 Hn2 Hp3 Hn3. simpl length. simpl in Hn. lia.
Qed.

(** ** The two passes of cli.js together *)

Lemma enrichEntry_path userIndex fallbackUser e :
  path (enrichEntry userIndex fallbackUser e) = path e.
Proof. by destruct (enrichEntry_frame userIndex fallbackUser e) as (_ & _ & _ & _ & ? & _). Qed.

Lemma enrichEntry_with_operation userIndex fallbackUser op e :
  enrichEntry userIndex fallbackUser (with_operation op e)
  = with_operation op (enrichEntry userIndex fallbackUser e).
Proof.
  unfold enrichEntry. cbn [sourcePath with_operation].
  repeat (match goal with
          | |- context [if ?b then _ else _] => destruct b
          | |- context [match ?o with Some _ => _ | None => _ end] => destruct o
          end); reflexivity.
Qed.

Lemma deduplicate_again seenHashes allEntries :
  deduplicate seenHashes (deduplicate seenHashes allEntries)
  = deduplicate seenHashes allEntries.
Proof.
  revert seenHashes; induction allEntries as [|e rest IH]; intros seenHashes; [done|].
  cbn [deduplicate].
  destruct (otruthy (extractMediaHash (path e))) eqn:Hh.
  - destruct (decide (_ ∈ seenHashes)) as [Hin|Hin]; cbn [deduplicate with_operation path];
      rewrite Hh; [rewrite decide_True by done|rewrite decide_False by done];
      by rewrite IH.
  - cbn [deduplicate with_operation path]. rewrite Hh. by rewrite IH.
Qed.

Lemma deduplicate_enrich userIndex fallbackUser seenHashes allEntries :
  deduplicate seenHashes (enrichEntries userIndex fallbackUser allEntries)
  = enrichEntries userIndex fallbackUser (deduplicate seenHashes allEntries).
Proof.
  unfold enrichEntries.
  revert seenHashes; induction allEntries as [|e rest IH]; intros seenHashes; [done|].
  cbn [deduplicate map]. rewrite enrichEntry_path.
  destruct (otruthy (extractMediaHash (path e))).
  - destruct (decide (_ ∈ seenHashes)); cbn [map];
      by rewrite IH, enrichEntry_with_operation.
  - cbn [map]. by rewrite IH, enrichEntry_with_operation.
Qed.

Lemma enrichEntry_again userIndex fallbackUser e :
  enrichEntry userIndex fallbackUser (enrichEntry userIndex fallbackUser e)
  = enrichEntry userIndex fallbackUser e.
Proof.
  unfold enrichEntry.
  destruct (otruthy (sourcePath e)) eqn:H1.
  - destruct (sitePath (default EmptyString (sourcePath e))) as [p|] eqn:H2.
    + destruct (otruthy (userIndex !! p)) eqn:H3;
        [|destruct (otruthy fallbackUser) eqn:H4];
        cbn [sourcePath with_user]; by rewrite ?H1, ?H2, ?H3, ?H4.
    + destruct (otruthy fallbackUser) eqn:H4;
        cbn [sourcePath with_user]; by rewrite ?H1, ?H2, ?H4.
  - destruct (otruthy fallbackUser) eqn:H4;
      cbn [sourcePath with_user]; by rewrite ?H1, ?H4.
Qed.

(** X9. The two passes look at different fields, deduplication at the
    path and enrichment at the source page: running either again over its
    own result changes nothing, and they give the same records in either
    order. *)
Theorem passes_are_stable (allEntries : list MediaEntry)
    (previewUserMap : gmap string string) (fallbackUser : option string) :
  deduplicatedEntries (deduplicatedEntries allEntries) = deduplicatedEntries allEntries
  /\ enrichEntries previewUserMap fallbackUser
       (enrichEntries previewUserMap fallbackUser allEntries)
     = enrichEntries previewUserMap fallbackUser allEntries
  /\ deduplicatedEntries (enrichEntries previewUserMap fallbackUser allEntries)
     = enrichEntries previewUserMap fallbackUser (deduplicatedEntries allEntries).
Proof.
  split; [apply deduplicate_again|]. split; [|apply deduplicate_enrich].
  unfold enrichEntries. rewrite map_map. apply map_ext. intros e.
  apply enrichEntry_again.
Qed.

(** ** More on the matcher *)

Section MatcherFacts2.
Variable multiline : bool.

(** A pattern without the group [n] leaves capture [n] as it was. *)
Lemma rmatch_keeps n r : binds n r = false ->
  forall k st res,
    rmatch multiline r k st = Some res ->
    exists st', k st' = Some res /\ caps st' !! n = caps st !! n.
Proof.
  induction r as [s|cls|cls|cls|r1 IH1 r2 IH2|r IH|m r IH| |];
    intros Hb k st res; simpl in *.
  - destruct (startsWith (rest st) s); [|done]. intros H.
    eexists; split; [exact H|done].
  - intros H. apply star_greedy_inv in H as (i & _ & _ & Hk).
    eexists; split; [exact Hk|done].
  - destruct (rest st) as [|c s]; [done|]. destruct (cls c); [|done].
    intros H. apply star_greedy_inv in H as (i & _ & _ & Hk).
    eexists; split; [exact Hk|done].
  - intros H. apply star_lazy_inv in H as (i & _ & _ & Hk).
    eexists; split; [exact Hk|done].
  - apply orb_false_elim in Hb as [Hb1 Hb2]. intros H.
    apply (IH1 Hb1) in H as (st1 & H & Hc1).
    apply (IH2 Hb2) in H as (st2 & H & Hc2).
    exists st2. split; [done|congruence].
  - destruct (rmatch multiline r k st) eqn:E.
    + intros [= <-]. by apply (IH Hb) in E.
    + intros H. by exists st.
  - apply orb_false_elim in Hb as [Hm Hb]. apply Nat.eqb_neq in Hm.
    intros H. apply (IH Hb) in H as (st' & H & Hc).
    eexists; split; [exact H|]. cbn [caps].
    by rewrite list_lookup_insert_ne.
  - destruct (at_line_start multiline st); [|done]. intros H. by exists st.
  - destruct (at_line_end multiline st); [|done]. intros H. by exists st.
Qed.

(** Every match the [exec] loop reports is a match at some position of
    the text. *)
Lemma exec_all_elem r groups m : forall s p skip,
  m ∈ exec_all multiline r groups p s skip ->
  exists pre p' s' st,
    s = pre +:+ s' /\ match_here multiline r groups p' s' = Some st /\ caps st = m.
Proof.
  induction s as [|c s IH]; intros p skip.
  - destruct skip as [|skip]; simpl; [|by intros ?%elem_of_nil].
    destruct (match_here _ _ _ _ _) as [st|] eqn:E; [|by intros ?%elem_of_nil].
    intros ->%list_elem_of_singleton. by exists EmptyString, p, EmptyString, st.
  - assert (forall p0 skip0,
              m ∈ exec_all multiline r groups p0 s skip0 ->
              exists pre p' s' st,
                String c s = pre +:+ s'
                /\ match_here multiline r groups p' s' = Some st /\ caps st = m) as Htail.
    { intros p0 skip0 H. apply IH in H as (pre & p' & s' & st & -> & H & Hc).
      by exists (String c pre), p', s', st. }
    destruct skip as [|skip]; simpl; [|apply Htail].
    destruct (match_here _ _ _ _ _) as [st|] eqn:E; [|apply Htail].
    intros [->|H]%elem_of_cons; [|by apply Htail in H].
    by exists EmptyString, p, (String c s), st.
Qed.

End MatcherFacts2.

(** ** The patterns of parser.js *)

Lemma url_char_def_url_char c : url_char c = true -> def_url_char c = true.
Proof.
  unfold url_char, def_url_char. rewrite !negb_true_iff, !orb_false_iff.
  tauto.
Qed.

Lemma str_forallb_impl (f g : ascii -> bool) s :
  (forall c, f c = true -> g c = true) ->
  str_forallb f s = true -> str_forallb g s = true.
Proof.
  intros Hfg. induction s as [|c s IH]; simpl; [done|].
  rewrite !andb_true_iff. intros [? ?]. auto.
Qed.

(** What follows the opening bracket in a match of an inline image or of a
    link: the text up to [](], then the destination, capture 2. *)
Lemma link_body_inv p t st :
  rmatch false (Grp 1 (Star (not_char "]")) &> Str "](" &>
                Grp 2 (Plus url_char) &> optional_title &> Str ")")
    Some (MState p t (replicate 4 None)) = Some st ->
  occurs_in "](" t
  /\ exists url, caps st !! 2%nat = Some (Some url)
       /\ url <> EmptyString /\ str_forallb url_char url = true.
Proof.
  intros H. cbn [rmatch rest prev caps] in H.
  apply star_greedy_inv in H as (n & Hn & Hall & H). cbn [rest prev caps] in H.
  destruct (startsWith (str_drop n t) "](") eqn:E; [|done].
  apply startsWith_app in E as [t2 Ht2]. rewrite Ht2, str_drop_app in H.
  destruct t2 as [|c t2]; [done|]. destruct (url_char c) eqn:Hc; [|done].
  apply star_greedy_inv in H as (n2 & Hn2 & Hall2 & H). cbn [rest prev caps] in H.
  apply (rmatch_keeps false 2) in H as (st' & H & Hcaps); [|done].
  cbn [caps] in Hcaps.
  destruct (startsWith (rest st') ")"); [|done]. injection H as <-. cbn [caps].
  split.
  { exists (str_take n t), (String c t2).
    by rewrite <- Ht2, str_take_drop. }
  rewrite Hcaps, str_drop_length.
  replace (String.length (String c t2) - (String.length t2 - n2))%nat
    with (S n2) by (simpl; lia).
  eexists. split; [reflexivity|]. split; [done|]. simpl. by rewrite Hc.
Qed.

Lemma inline_match_inv p s st :
  match_here false MARKDOWN_IMAGE_INLINE_REGEX 3 p s = Some st ->
  occurs_in "](" s
  /\ exists url, group (caps st) 2 = Some url
       /\ url <> EmptyString /\ str_forallb url_char url = true.
Proof.
  unfold match_here, MARKDOWN_IMAGE_INLINE_REGEX.
  intros H. cbn [rmatch] in H.
  destruct (startsWith (rest _) "![") eqn:E; [|done]. cbn [rest prev caps] in *.
  apply startsWith_app in E as [t ->].
  apply link_body_inv in H as [(a & b & Hocc) (url & Hcaps & Hurl)].
  rewrite str_drop_app in Hocc. split.
  - exists ("![" +:+ a), b. rewrite Hocc. by rewrite !str_app_assoc.
  - exists url. unfold group. by rewrite Hcaps.
Qed.

Lemma link_match_inv p s st :
  match_here false MARKDOWN_LINK_REGEX 3 p s = Some st ->
  occurs_in "](" s
  /\ exists url, group (caps st) 2 = Some url
       /\ url <> EmptyString /\ str_forallb url_char url = true.
Proof.
  unfold match_here, MARKDOWN_LINK_REGEX.
  intros H. cbn [rmatch] in H.
  destruct (startsWith (rest _) "[") eqn:E; [|done]. cbn [rest prev caps] in *.
  apply startsWith_app in E as [t ->].
  apply link_body_inv in H as [(a & b & Hocc) (url & Hcaps & Hurl)].
  rewrite str_drop_app in Hocc. split.
  - exists ("[" +:+ a), b. rewrite Hocc. by rewrite !str_app_assoc.
  - exists url. unfold group. by rewrite Hcaps.
Qed.

Lemma reference_match_inv p s st :
  match_here false MARKDOWN_IMAGE_REFERENCE_REGEX 3 p s = Some st ->
  occurs_in "][" s.
Proof.
  unfold match_here, MARKDOWN_IMAGE_REFERENCE_REGEX.
  intros H. cbn [rmatch rest prev caps] in H.
  destruct (startsWith s "![") eqn:E; [|done].
  apply startsWith_app in E as [t ->]. rewrite str_drop_app in H.
  apply star_greedy_inv in H as (n & Hn & Hall & H). cbn [rest prev caps] in H.
  destruct (startsWith (str_drop n t) "][") eqn:E; [|done].
  apply startsWith_app in E as [t2 Ht2].
  exists ("![" +:+ str_take n t), t2.
  rewrite str_app_assoc. f_equal. by rewrite <- Ht2, str_take_drop.
Qed.

Lemma definition_match_inv p s st :
  match_here true MARKDOWN_REFERENCE_DEFINITION_REGEX 3 p s = Some st ->
  exists url, group (caps st) 2 = Some url
    /\ url <> EmptyString /\ str_forallb def_url_char url = true.
Proof.
  unfold match_here, MARKDOWN_REFERENCE_DEFINITION_REGEX.
  intros H. cbn [rmatch rest prev caps] in H.
  destruct (at_line_start true _); [|done].
  destruct (startsWith s "[") eqn:E; [|done]. cbn [rest prev caps] in H.
  apply startsWith_app in E as [t ->]. rewrite str_drop_app in H.
  destruct t as [|c t]; [done|]. destruct (not_char "]" c); [|done].
  apply star_greedy_inv in H as (n & Hn & Hall & H). cbn [rest prev caps] in H.
  destruct (startsWith (str_drop n t) "]:") eqn:E; [|done].
  apply star_greedy_inv in H as (n1 & Hn1 & Hall1 & H). cbn [rest prev caps] in H.
  destruct (str_drop n1 _) as [|c2 t2] eqn:Ht2; [done|].
  destruct (def_url_char c2) eqn:Hc; [|done].
  apply star_greedy_inv in H as (n2 & Hn2 & Hall2 & H). cbn [rest prev caps] in H.
  apply (rmatch_keeps true 2) in H as (st' & H & Hcaps); [|done].
  cbn [caps] in Hcaps.
  destruct (at_line_end true st'); [|done]. injection H as <-.
  unfold group. rewrite Hcaps, str_drop_length.
  replace (String.length (String c2 t2) - (String.length t2 - n2))%nat
    with (S n2) by (simpl; lia).
  eexists. split; [reflexivity|]. split; [done|]. simpl. by rewrite Hc.
Qed.

(** ** trim *)

Lemma trimEnd_no_space s :
  str_forallb (fun c => negb (is_space c)) s = true -> trimEnd s = s.
Proof.
  induction s as [|c s IH]; simpl; [done|].
  intros [Hc Hs]%andb_prop. rewrite (IH Hs).
  apply negb_true_iff in Hc. rewrite Hc. by destruct s.
Qed.

Lemma trim_no_space s :
  str_forallb (fun c => negb (is_space c)) s = true -> trim s = s.
Proof.
  intros H. unfold trim.
  assert (trimStart s = s) as ->; [|by apply trimEnd_no_space].
  destruct s as [|c s]; simpl in *; [done|].
  apply andb_prop in H as [Hc _]. apply negb_true_iff in Hc. by rewrite Hc.
Qed.

Lemma trimEnd_again s : trimEnd (trimEnd s) = trimEnd s.
Proof.
  induction s as [|c s IH]; simpl; [done|].
  destruct (trimEnd s) as [|c' t] eqn:E.
  - destruct (is_space c) eqn:Hc; simpl; [done|by rewrite Hc].
  - cbn [trimEnd]. cbn [trimEnd] in IH. by rewrite IH.
Qed.

(** What [trimEnd] leaves begins as the string began. *)
Lemma trimEnd_head c s :
  is_space c = false -> exists t, trimEnd (String c s) = String c t.
Proof. intros Hc. simpl. rewrite Hc. destruct (trimEnd s); eauto. Qed.

Lemma trimStart_head s :
  trimStart s = EmptyString
  \/ exists c t, trimStart s = String c t /\ is_space c = false.
Proof.
  induction s as [|c s IH]; simpl; [by left|].
  destruct (is_space c) eqn:Hc; [done|]. right. eauto.
Qed.

Lemma trim_again s : trim (trim s) = trim s.
Proof.
  unfold trim.
  destruct (trimStart_head s) as [->|(c & t & -> & Hc)]; [done|].
  destruct (trimEnd_head c t Hc) as [t' Ht]. rewrite Ht.
  assert (trimStart (String c t') = String c t') as -> by (simpl; by rewrite Hc).
  by rewrite <- Ht, trimEnd_again.
Qed.

(** ** The records of an extraction *)

Lemma def_url_char_no_space s :
  str_forallb def_url_char s = true ->
  str_forallb (fun c => negb (is_space c)) s = true.
Proof.
  apply str_forallb_impl. intros c. unfold def_url_char.
  rewrite !negb_true_iff, orb_false_iff. tauto.
Qed.

(** The destinations the first loop keeps are those of definitions. *)
Lemma collectReferences_values markdown id reference :
  collectReferences markdown !! id = Some reference ->
  exists m, m ∈ matches true MARKDOWN_REFERENCE_DEFINITION_REGEX markdown
    /\ reference.1 = trim (group_str m 2).
Proof.
  unfold collectReferences.
  generalize (matches true MARKDOWN_REFERENCE_DEFINITION_REGEX markdown).
  intros ms. revert id reference.
  induction ms as [|m ms IH] using rev_ind; intros id reference.
  - simpl. by rewrite lookup_empty.
  - rewrite foldl_app. simpl.
    destruct (decide (toLowerCase (group_str m 1) = id)) as [<-|Hne].
    + rewrite lookup_insert_eq. intros [= <-]. exists m.
      split; [apply elem_of_app; right; by apply list_elem_of_singleton|done].
    + rewrite lookup_insert_ne by done. intros H.
      apply IH in H as (m' & Hm' & Heq). exists m'.
      split; [apply elem_of_app; by left|done].
Qed.

(** Every path passed to [addMedia] is a destination as the patterns take
    it: not empty, without white space or double quote. *)
Lemma addMediaCalls_paths markdown c :
  c ∈ addMediaCalls markdown ->
  c.1 <> EmptyString /\ str_forallb def_url_char c.1 = true.
Proof.
  unfold addMediaCalls. rewrite !elem_of_app. intros [H|[H|H]].
  - unfold inlineCalls in H. apply list_elem_of_omap in H as (m & Hm & Hc).
    apply exec_all_elem in Hm as (pre & p' & s' & st & _ & Hst & <-).
    apply inline_match_inv in Hst as (_ & url & Hg & Hne & Hall).
    unfold group_str in Hc. rewrite Hg in Hc. simpl in Hc.
    destruct (truthy url && truthy (trim url)); [|done].
    injection Hc as <-. simpl. split; [done|].
    by apply (str_forallb_impl url_char), Hall; apply url_char_def_url_char.
  - unfold referenceCalls in H. apply list_elem_of_omap in H as (m & Hm & Hc).
    cbn zeta in Hc.
    destruct (collectReferences markdown !! _) as [reference|] eqn:Href; [|done].
    injection Hc as <-. simpl.
    apply collectReferences_values in Href as (d & Hd & ->).
    apply exec_all_elem in Hd as (pre & p' & s' & st & _ & Hst & <-).
    apply definition_match_inv in Hst as (url & Hg & Hne & Hall).
    unfold group_str. rewrite Hg. simpl.
    by rewrite trim_no_space by (by apply def_url_char_no_space).
  - unfold linkCalls, linkUrls in H.
    apply list_elem_of_fmap in H as (url & -> & H). simpl.
    apply list_elem_of_filter in H as [_ H].
    apply list_elem_of_fmap in H as (m & -> & Hm).
    apply exec_all_elem in Hm as (pre & p' & s' & st & _ & Hst & <-).
    apply link_match_inv in Hst as (_ & url & Hg & Hne & Hall).
    unfold group_str. rewrite Hg. simpl. split; [done|].
    by apply (str_forallb_impl url_char), Hall; apply url_char_def_url_char.
Qed.

Lemma keepFirst_sub seen calls c : c ∈ keepFirst seen calls -> c ∈ calls.
Proof.
  rewrite keepFirst_lookup. intros (i & Hi & _).
  by apply list_elem_of_lookup_2 in Hi.
Qed.

(** X10. Every record of an extraction has a path that is not empty and
    holds no white space and no double quote, the action add and the url
    of the page as source; its alt text, when it has one, is not empty and
    has no white space at either end. *)
Theorem extracted_records_are_clean (markdown page org repo ref : string)
    (e : MediaEntry) :
  e ∈ extractMediaReferences markdown page org repo ref ->
  (path e <> EmptyString /\ str_forallb def_url_char (path e) = true)
  /\ action e = Some "add"
  /\ sourcePath e = Some (sourceUrlOf page org repo ref)
  /\ (forall a, alt e = Some a -> a <> EmptyString /\ trim a = a).
Proof.
  rewrite extractMediaReferences_keepFirst.
  intros (c & -> & Hc)%list_elem_of_fmap.
  apply keepFirst_sub, addMediaCalls_paths in Hc.
  split; [done|]. split; [done|]. split; [done|].
  intros a. cbn [alt newEntry].
  destruct (truthy c.2 && truthy (trim c.2)) eqn:E; [|done].
  intros [= <-]. apply andb_prop in E as [_ E].
  split; [by destruct (trim c.2)|apply trim_again].
Qed.

Lemma extracted_records_are_clean_witness :
  str_forallb def_url_char "docs/spec.pdf" = true.
Proof.
  apply (extracted_records_are_clean scenario_markdown "/products/x" "org" "site" "main"
           (newEntry (sourceUrlOf "/products/x" "org" "site" "main") "docs/spec.pdf" "")).
  apply (list_elem_of_lookup_2 _ 1%nat). by vm_compute.
Defined.

Lemma matches_nil {A} (l : list A) : (forall x, x ∉ l) -> l = [].
Proof. destruct l as [|x l]; [done|]. intros H. destruct (H x). by left. Qed.

Lemma occurs_in_suffix sub pre s : occurs_in sub s -> occurs_in sub (pre +:+ s).
Proof. intros (a & b & ->). exists (pre +:+ a), b. by rewrite str_app_assoc. Qed.

(** X11. A text in which neither [](] nor [][] occurs, the empty text
    among them, gives no record. *)
Theorem no_brackets_no_records (markdown page org repo ref : string) :
  includes markdown "](" = false -> includes markdown "][" = false ->
  extractMediaReferences markdown page org repo ref = [].
Proof.
  intros Hlink Href.
  assert (~ occurs_in "](" markdown) as Hno1
    by (intros H%includes_spec; congruence).
  assert (~ occurs_in "][" markdown) as Hno2
    by (intros H%includes_spec; congruence).
  assert (matches false MARKDOWN_IMAGE_INLINE_REGEX markdown = []) as Hinline.
  { apply matches_nil. intros m Hm.
    apply exec_all_elem in Hm as (pre & p' & s' & st & -> & Hst & _).
    apply inline_match_inv in Hst as [Hocc _].
    by apply Hno1, occurs_in_suffix. }
  assert (matches false MARKDOWN_IMAGE_REFERENCE_REGEX markdown = []) as Hrefs.
  { apply matches_nil. intros m Hm.
    apply exec_all_elem in Hm as (pre & p' & s' & st & -> & Hst & _).
    apply reference_match_inv in Hst.
    by apply Hno2, occurs_in_suffix. }
  assert (matches false MARKDOWN_LINK_REGEX markdown = []) as Hlinks.
  { apply matches_nil. intros m Hm.
    apply exec_all_elem in Hm as (pre & p' & s' & st & -> & Hst & _).
    apply link_match_inv in Hst as [Hocc _].
    by apply Hno1, occurs_in_suffix. }
  unfold extractMediaReferences, inlineImages, referenceImages, plainLinks.
  by rewrite Hinline, Hrefs, Hlinks.
Qed.

Lemma no_brackets_no_records_witness :
  extractMediaReferences "See [the notes] and picture.png" "/p" "org" "site" "main" = [].
Proof. by apply no_brackets_no_records. Defined.

(** ** Enrichment, whole runs *)

(** X13. Enrichment over a log that can be read to its end: when the
    service answers with pages that link on and then with a page that does
    not, [enrichEntriesWithUser] returns, and gives each record the
    attribution of the index of all the events read. *)
Theorem enrichEntriesWithUser_reads_the_log
    (logapi : nat -> string -> LogOutcome) (verbose : bool)
    (org repo ref : string) (entries : list MediaEntry)
    (fallbackUser : option string)
    (pages : list (list LogEvent * string)) (status : Z) (text : option string)
    (events : list LogEvent) (next : option string) (fuel : nat) :
  follows logapi 0 (first_log_url org repo ref) pages ->
  logapi (length pages) (end_url (first_log_url org repo ref) pages)
  = LogResponse status text (BodyData (Some (Some <$> events)) next) ->
  response_ok status = true -> otruthy next = false ->
  (length pages < fuel)%nat ->
  enrichEntriesWithUser logapi fuel entries org repo ref fallbackUser verbose
  = Some (Return (attributed (index_events (concat pages.*1 ++ events) ∅)
                    fallbackUser <$> entries)).
Proof.
  intros Hfollows Hlast Hok Hnext Hfuel.
  pose proof (buildPreviewUserMap_complete logapi verbose org repo ref pages
                status text events next fuel Hfollows Hlast Hok Hnext Hfuel) as Hmap.
  unfold enrichEntriesWithUser. rewrite Hmap. do 2 f_equal.
  apply buildPreviewUserMap_wf in Hmap.
  unfold enrichEntries. apply map_ext. intros e.
  by apply enrichEntry_attributed.
Qed.

Lemma enrichEntriesWithUser_reads_the_log_witness :
  enrichEntriesWithUser one_page 5 example_records "org" "site" "main" None false
  = Some (Return (attributed (index_events [preview "/products/x" "ann@example.com"] ∅)
                    None <$> example_records)).
Proof.
  apply (enrichEntriesWithUser_reads_the_log one_page false "org" "site" "main"
           example_records None [] 200 (Some "")
           [preview "/products/x" "ann@example.com"] None 5); try done.
  simpl. lia.
Defined.

Lemma enrichEntry_empty fallbackUser e :
  enrichEntry ∅ fallbackUser e
  = match configured fallbackUser with Some f => with_user f e | None => e end.
Proof.
  rewrite enrichEntry_attributed by (intros p u; by rewrite lookup_empty).
  unfold attributed, attribution.
  destruct (sourcePath e) as [sp|]; [|done].
  destruct (truthy sp); [|done].
  destruct (sitePath sp) as [p|]; [|done]. by rewrite lookup_empty.
Qed.

(** X14. Enrichment without the log: when the first request to the log
    fails (it is rejected, the response is not a success, or its body
    cannot be read), [enrichEntriesWithUser] still returns, and every
    record gets the fallback identity, or stays as it was when none is
    configured. *)
Theorem enrichEntriesWithUser_without_the_log
    (logapi : nat -> string -> LogOutcome) (verbose : bool)
    (org repo ref : string) (entries : list MediaEntry)
    (fallbackUser : option string) (fuel : nat) :
  failed_request (logapi 0%nat (first_log_url org repo ref)) ->
  (1 <= fuel)%nat ->
  enrichEntriesWithUser logapi fuel entries org repo ref fallbackUser verbose
  = Some (Return ((fun e => match configured fallbackUser with
                            | Some f => with_user f e
                            | None => e
                            end) <$> entries)).
Proof.
  intros Hfail Hfuel. destruct fuel as [|fuel]; [lia|].
  unfold enrichEntriesWithUser, buildPreviewUserMap.
  fold (first_log_url org repo ref).
  destruct (fetchPages_failed logapi verbose fuel (first_log_url org repo ref)
              0 ∅ Hfail) as [c ->].
  assert (forall m : gmap string string,
            match c with
            | Return _ => Some (Return m)
            | Throw _ => Some (Return m)
            end = Some (Return m)) as -> by (by destruct c).
  do 2 f_equal. unfold enrichEntries. apply map_ext. intros e.
  apply enrichEntry_empty.
Qed.

Lemma enrichEntriesWithUser_without_the_log_witness :
  enrichEntriesWithUser log_offline 1 example_records "org" "site" "main"
    (Some "ops@example.com") true
  = Some (Return (with_user "ops@example.com" <$> example_records)).
Proof.
  by apply (enrichEntriesWithUser_without_the_log log_offline true "org" "site" "main"
              example_records (Some "ops@example.com") 1).
Defined.

(** ** Stand-alone media *)

Lemma media_typed_or_untyped :
  forallb (fun ext => existsb (String.eqb ext) CONTENT_TYPE_MAP.*1
                      || existsb (String.eqb ext) untyped_extensions)
    MEDIA_EXTENSIONS = true.
Proof. by vm_compute. Qed.

Lemma endsWith_includes s ext : endsWith s ext = true -> includes s ext = true.
Proof.
  intros [pre ->]%endsWith_spec. apply includes_spec.
  exists pre, EmptyString. by rewrite str_app_nil_r.
Qed.

(** X15. The entry [runIngest] builds for a stand-alone media file has a
    content type, unless the path ends in one of the media extensions the
    type table does not know: svg and the documents. *)
Theorem standalone_content_type (org repo path : string) :
  isMediaFile (Some path) = true ->
  is_Some (contentType (standaloneEntry org repo path))
  \/ exists ext, ext ∈ untyped_extensions
       /\ endsWith (toLowerCase path) ext = true.
Proof.
  unfold isMediaFile. destruct (otruthy (Some path)); [|done]. cbn [default].
  unfold id. intros (ext & Hin & Hend)%existsb_exists.
  pose proof media_typed_or_untyped as Hcases.
  rewrite forallb_forall in Hcases. specialize (Hcases ext Hin).
  apply orb_prop in Hcases as [Hkey|Hun].
  - left. cbn [contentType standaloneEntry]. unfold getContentType.
    destruct (List.find _ _) as [e|] eqn:E; [by eexists|]. exfalso.
    apply existsb_exists in Hkey as (k & Hk & ->%String.eqb_eq).
    apply list_elem_of_In, list_elem_of_fmap in Hk as ([k' t] & -> & Hk).
    apply list_elem_of_In in Hk.
    pose proof (find_none _ _ E _ Hk) as Hno. cbn [fst] in Hno, Hend.
    by rewrite (endsWith_includes _ _ Hend) in Hno.
  - right. apply existsb_exists in Hun as (k & Hk & ->%String.eqb_eq).
    exists k. split; [by apply list_elem_of_In|done].
Qed.

Lemma standalone_content_type_witness :
  is_Some (contentType (standaloneEntry "org" "site" "/media_1a2b.MP4"))
  \/ exists ext, ext ∈ untyped_extensions
       /\ endsWith (toLowerCase "/media_1a2b.MP4") ext = true.
Proof. by apply standalone_content_type. Defined.

(** ** Batches without progress *)

(** X16. With no record there is no batch, whatever the size.  With at
    least one record and a configured size of zero or below, the loop of
    [batchEntries] adds nothing to its index and never ends. *)
Theorem batchEntries_without_progress {A : Type} (entries : list A)
    (configured : Z) (fuel : nat) :
  (forall size : JsNumber, batchEntries fuel (@nil A) size = Some [])
  /\ batchEntries fuel (@nil A) (effectiveBatchSize (Int configured)) = Some []
  /\ (configured <= 0 -> entries <> [] ->
      batchEntries fuel entries (effectiveBatchSize (Int configured)) = None).
Proof.
  split; [by destruct fuel|]. split; [by destruct fuel|].
  intros Hconf Hne. unfold batchEntries. cbn [effectiveBatchSize].
  apply batchLoop_diverges; [lia|]. destruct entries; [done|]. simpl. lia.
Qed.

Lemma batchEntries_without_progress_witness :
  batchEntries 1000 [hashed "/media_1a.png"] (effectiveBatchSize (Int 0)) = None.
Proof.
  apply (batchEntries_without_progress [hashed "/media_1a.png"] 0 1000); [lia|done].
Defined.

(** ** The content hash *)

Lemma startsWith_app_long p : forall a b,
  (String.length p <= String.length a)%nat ->
  startsWith (a +:+ b) p = startsWith a p.
Proof.
  induction p as [|x p IH]; intros a b Hlen;
    [by destruct a; destruct (_ +:+ b)|].
  destruct a as [|y a]; simpl in Hlen; [lia|].
  rewrite str_app_cons. simpl. destruct (Ascii.eqb x y); [|done].
  apply IH. lia.
Qed.

Lemma includes_cons_false c s sub :
  includes (String c s) sub = false ->
  startsWith (String c s) sub = false /\ includes s sub = false.
Proof.
  change (includes (String c s) sub)
    with (if startsWith (String c s) sub then true else includes s sub).
  by destruct (startsWith (String c s) sub).
Qed.

(** The search passes over a prefix in which no name begins. *)
Lemma hash_search_skip pre t p :
  includes (pre +:+ "media") "media_" = false ->
  search false MEDIA_HASH_REGEX 1 p (pre +:+ "media_" +:+ t)
  = search false MEDIA_HASH_REGEX 1 (last_char p pre) ("media_" +:+ t).
Proof.
  revert p; induction pre as [|c pre IH]; intros p Hno.
  - by rewrite str_app_nil.
  - rewrite str_app_cons in Hno. apply includes_cons_false in Hno as [Hhere Hno].
    rewrite str_app_cons. cbn [search last_char].
    assert (match_here false MEDIA_HASH_REGEX 1 p (String c (pre +:+ "media_" +:+ t))
            = None) as ->.
    { unfold match_here, MEDIA_HASH_REGEX. cbn [rmatch rest prev caps].
      replace (String c (pre +:+ "media_" +:+ t))
        with (String c (pre +:+ "media") +:+ "_" +:+ t).
      2:{ rewrite str_app_cons. f_equal. by rewrite str_app_assoc. }
      rewrite startsWith_app_long, Hhere; [done|].
      simpl. rewrite str_app_length. simpl. lia. }
    by apply IH.
Qed.

(** Two runs of hexadecimal digits that end at a dot are the same run. *)
Lemma hex_run_unique h h' post post' :
  str_forallb is_lower_hex h = true -> str_forallb is_lower_hex h' = true ->
  h +:+ "." +:+ post = h' +:+ "." +:+ post' -> h = h'.
Proof.
  revert h'; induction h as [|c h IH]; intros [|c' h'] Hh Hh' Heq;
    rewrite ?str_app_nil, ?str_app_cons in Heq; simpl in Hh, Hh'.
  - done.
  - injection Heq as <- _. done.
  - injection Heq as -> _. done.
  - injection Heq as <- Heq. apply andb_prop in Hh as [_ Hh].
    apply andb_prop in Hh' as [_ Hh']. f_equal. by apply IH.
Qed.

(** X17. The hash [extractMediaHash] gives is a non-empty run of lowercase
    hexadecimal digits that stands in the url between [media_] and a dot;
    every url that holds such a name has a hash; and when the first
    [media_] of the url begins such a name, the hash is the run of that
    name. *)
Theorem extractMediaHash_of_the_name (url : string) :
  (forall h, extractMediaHash url = Some h ->
     h <> EmptyString /\ str_forallb is_lower_hex h = true
     /\ occurs_in ("media_" +:+ h +:+ ".") url)
  /\ (forall pre h post,
        url = pre +:+ "media_" +:+ h +:+ "." +:+ post ->
        h <> EmptyString -> str_forallb is_lower_hex h = true ->
        is_Some (extractMediaHash url)
        /\ (includes (pre +:+ "media") "media_" = false ->
            extractMediaHash url = Some h)).
Proof.
  split.
  - intros h Hh. apply extractMediaHash_sound in Hh as (Hne & Hall & pre & post & ->).
    split; [done|]. split; [done|]. exists pre, post. by rewrite !str_app_assoc.
  - intros pre h post -> Hne Hall.
    split; [by apply extractMediaHash_complete|].
    intros Hfirst. unfold extractMediaHash. rewrite hash_search_skip by done.
    destruct (hash_match_here (last_char None pre) h post Hne Hall) as [st Hst].
    rewrite (search_here _ _ _ _ _ _ Hst).
    apply hash_match_inv in Hst as (h' & post' & Heq & _ & Hall' & ->).
    apply (f_equal (str_drop (String.length "media_"))) in Heq.
    rewrite !str_drop_app in Heq.
    by rewrite (hex_run_unique _ _ _ _ Hall Hall' Heq).
Qed.

Lemma extractMediaHash_of_the_name_witness :
  extractMediaHash "/img/media_1a2b3c.png?width=750" = Some "1a2b3c".
Proof.
  by apply (proj2 (proj2 (extractMediaHash_of_the_name "/img/media_1a2b3c.png?width=750")
                     "/img/" "1a2b3c" "png?width=750" eq_refl
                     ltac:(done) eq_refl)).
Defined.

(** ** Pagination without end *)

(** X18. The pagination of [buildPreviewUserMap] has no bound of its own:
    against a service whose every page links on, the loop never ends, and
    neither does [enrichEntriesWithUser]. *)
Theorem buildPreviewUserMap_has_no_page_limit
    (logapi : nat -> string -> LogOutcome) (verbose : bool)
    (org repo ref : string) (entries : list MediaEntry)
    (fallbackUser : option string) :
  (forall n url, exists events nextUrl, good_page (logapi n url) events nextUrl) ->
  forall fuel,
    buildPreviewUserMap logapi verbose fuel org repo ref = None
    /\ enrichEntriesWithUser logapi fuel entries org repo ref fallbackUser verbose
       = None.
Proof.
  intros Hpages fuel.
  assert (forall url n userMap,
            fetchPages logapi verbose fuel url n userMap = None) as Hloop.
  { induction fuel as [|fuel IH]; intros url n userMap; [done|].
    destruct (Hpages n url)
      as (events & nextUrl & status & text & items & Hout & Hok & Hnext & Hitems).
    cbn [fetchPages]. rewrite Hout, Hok. cbn [negb].
    rewrite Hitems, no_null, andb_false_r, processEntries_all, Hnext.
    apply IH. }
  assert (buildPreviewUserMap logapi verbose fuel org repo ref = None) as Hmap
    by (unfold buildPreviewUserMap; by rewrite Hloop).
  split; [done|]. unfold enrichEntriesWithUser. by rewrite Hmap.
Qed.

Lemma buildPreviewUserMap_has_no_page_limit_witness :
  buildPreviewUserMap endless_log false 1000 "org" "site" "main" = None.
Proof.
  apply (buildPreviewUserMap_has_no_page_limit endless_log false "org" "site" "main"
           [] None).
  intros n url. exists [], "https://admin.hlx.page/log/next".
  by exists 200, (Some ""), (Some []).
Defined.
